(** * Graphics: an instanced-rendering demo (src/main.cpp)

    A shallow embedding of [main.cpp] and the properties of its
    specification.  The program opens a window, uploads one quad and
    1000 per-instance attributes, and draws the instances every frame with
    one of two shader programs; two keys toggle wireframe mode and the
    active shader.

    - C++ [float] and [double] are IEEE-754 binary32 and binary64, modelled
      by the Standard Library's [SpecFloat] operations at precision 24 / 53.
      Every operation rounds to its own type, to nearest with ties to even:
      no wider intermediate precision and no fused multiply-add.
    - The OpenGL / GLFW side is the environment: a small driver state
      (object names, bindings, buffer contents, polygon mode) together with
      the chronological trace of every API call the program makes.
    - What the environment answers ([rand], [glfwGetTime], compile and link
      statuses, key events) is an explicit input. *)

From Stdlib Require Import ZArith Bool Lia List String Ascii.
From Stdlib Require Import Floats.SpecFloat.
From stdpp Require Import base option list gmap strings.

Local Open Scope Z_scope.

(** ** IEEE-754 arithmetic of the two C++ floating-point types *)

Module F32.
Definition prec : Z := 24.
Definition emax : Z := 128.
Definition add := SFadd prec emax.
Definition sub := SFsub prec emax.
Definition mul := SFmul prec emax.
Definition div := SFdiv prec emax.
Definition leb := SFleb.
Definition ltb := SFltb.
Definition valid := valid_binary prec emax.
(** [(float)n] for an [int] n. *)
Definition of_int (n : Z) : spec_float := binary_normalize prec emax n 0 false.
(** [(float)d] for a [double] d. *)
Definition of_double (d : spec_float) : spec_float :=
  match d with
  | S754_finite s m e => binary_round prec emax s m e
  | _ => d
  end.
End F32.

Module F64.
Definition prec : Z := 53.
Definition emax : Z := 1024.
Definition sub := SFsub prec emax.
End F64.

Abbreviation float := spec_float (only parsing).
Abbreviation double := spec_float (only parsing).

(** Float literals of the source, as binary32 values. *)
Definition f0_0 : float := S754_zero false.                     (* 0.0f *)
Definition f1_0 : float := F32.of_int 1.                        (* 1.0f *)
Definition f2_0 : float := F32.of_int 2.                        (* 2.0f *)
Definition f0_05 : float := S754_finite false 13421773 (-28).   (* 0.05f *)
Definition fm1_0 : float := SFopp f1_0.                         (* -1.0f *)

(** [glm::pi<float>()]: the binary32 nearest to pi, 0x40490FDB. *)
Definition glm_pi : float := S754_finite false 13176795 (-22).

(** [2.0f * glm::pi<float>()], the wrap-around bound of line 383. *)
Definition two_pi : float := F32.mul f2_0 glm_pi.

(** ** Source constants *)

Definition WINDOW_WIDTH : Z := 1920.
Definition WINDOW_HEIGHT : Z := 1080.
Definition ASPECT_RATIO : float :=
  F32.div (F32.of_int WINDOW_WIDTH) (F32.of_int WINDOW_HEIGHT).

Definition sizeof_float : Z := 4.
Definition sizeof_unsigned_int : Z := 4.

Definition endl : string := String (ascii_of_nat 10) EmptyString.

Definition vertexRectangleSource : string := "
    #version 330 core

    uniform mat4 projection;                // projection matrix uniform

    layout (location = 0) in vec2 basePos;  // original position
    layout (location = 1) in vec2 iPos;     // instanced position
    layout (location = 2) in vec3 iColor;   // instanced color
    layout (location = 3) in vec3 iModel;   // instanced model

    out vec3 vColorOut; 

    mat2 rotationMatrix(float angle) {
        float s = sin(angle);
        float c = cos(angle);
        return mat2(c, -s, s, c);
    }

    void main()
    {
        vec2 scale = vec2(iModel.x, iModel.y);
        float radians = iModel.z;

        vec2 newPos = rotationMatrix(radians) * (basePos * scale);
        gl_Position = projection * vec4(newPos + iPos, 0.0, 1.0);
        vColorOut = iColor;
    }
".

Definition fragmentRectangleSource : string := "
    #version 330 core

    in vec3 vColorOut;
    out vec4 FragColor;

    void main()
    {
        FragColor = vec4(vColorOut, 1.0f);
    }
".

Definition vertexCircleSource : string := "
    #version 330 core

    uniform mat4 projection;                // projection matrix uniform

    layout (location = 0) in vec2 basePos;  // original position
    layout (location = 1) in vec2 iPos;     // instanced position
    layout (location = 2) in vec3 iColor;   // instanced color
    layout (location = 3) in vec3 iModel;   // instanced model

    out vec3 iColorOut; 
    out vec2 iPosOut;
    out float iRadiusOut;

    mat2 rotationMatrix(float angle) {
        float s = sin(angle);
        float c = cos(angle);
        return mat2(c, -s, s, c);
    }

    void main()
    {
        vec2 scale = vec2(iModel.x, iModel.x);
        float radians = iModel.z;

        vec2 newPos = rotationMatrix(radians) * (basePos * scale);
        gl_Position = projection * vec4(newPos + iPos, 0.0, 1.0);

        iColorOut = iColor;
        iPosOut = iPos;
        iRadiusOut = iModel.x;
    }
".

Definition fragmentCircleSource : string := "
    #version 330 core

    uniform vec2 resolution;

    in vec3 iColorOut;
    in vec2 iPosOut;
    in float iRadiusOut;

    out vec4 FragColor;

    void main()
    {
        // Convert current fragment pixel coordinates to normalized coordinates
        vec2 normalizedCoords = (2.0 * gl_FragCoord.xy - resolution) / resolution;
        normalizedCoords.x *= resolution.x / resolution.y;
        
        // Dont render the pixel if the position is outside of the circle radius
        if (length(normalizedCoords - iPosOut) > iRadiusOut) {
            discard;
        }
        FragColor = vec4(iColorOut, 1.0f);
    }
".

(** ** glm vectors *)

Module vec2.
Record t : Type := mk { x : float; y : float }.
End vec2.

Module vec3.
Record t : Type := mk { x : float; y : float; z : float }.
(** [v.z = a] *)
Definition set_z (a : float) (v : t) : t := mk (x v) (y v) a.
End vec3.

(** ** The OpenGL / GLFW interface *)

Inductive shader_type := GL_VERTEX_SHADER | GL_FRAGMENT_SHADER.
Inductive buffer_target := GL_ARRAY_BUFFER | GL_ELEMENT_ARRAY_BUFFER.
Inductive buffer_usage := GL_STATIC_DRAW.
Inductive polygon_mode := GL_POINT | GL_LINE | GL_FILL.
Inductive face := GL_FRONT_AND_BACK.
Inductive data_type := GL_FLOAT | GL_UNSIGNED_INT.
Inductive primitive := GL_TRIANGLES.
Inductive clear_mask := GL_COLOR_BUFFER_BIT.

(** What a data pointer handed to OpenGL points to. *)
Inductive payload :=
  | Floats (l : list float)
  | UInts (l : list Z)
  | Vec2s (l : list vec2.t)
  | Vec3s (l : list vec3.t)
  | Ortho (left right bottom top zNear zFar : float).

Definition GLFW_KEY_SPACE : Z := 32.
Definition GLFW_KEY_T : Z := 84.
Definition GLFW_RELEASE : Z := 0.
Definition GLFW_PRESS : Z := 1.
Definition GLFW_REPEAT : Z := 2.

(** One constructor per API function; creators carry the returned name.
    The three [glDelete...] calls besides [glDeleteShader] are part of the
    API although [main.cpp] never makes them. *)
Module Call.
Inductive t :=
| glfwInit
| glfwCreateWindow (width height : Z) (title : string)
| glfwSetKeyCallback
| glfwMakeContextCurrent
| glewInit
| glfwGetTime (now : double)
| glfwWindowShouldClose (closing : bool)
| glfwSwapBuffers
| glfwPollEvents
| glfwTerminate
| glCreateShader (type : shader_type) (name : Z)
| glShaderSource (shader : Z) (source : string)
| glCompileShader (shader : Z)
| glGetShaderiv_COMPILE_STATUS (shader : Z) (status : Z)
| glGetShaderInfoLog (shader : Z) (log : string)
| glCreateProgram (name : Z)
| glAttachShader (program shader : Z)
| glLinkProgram (program : Z)
| glGetProgramiv_LINK_STATUS (program : Z) (status : Z)
| glGetProgramInfoLog (program : Z) (log : string)
| glDeleteShader (shader : Z)
| glDeleteProgram (program : Z)
| glDeleteBuffers (buffer : Z)
| glDeleteVertexArrays (array : Z)
| glGenVertexArrays (name : Z)
| glBindVertexArray (array : Z)
| glGenBuffers (name : Z)
| glBindBuffer (target : buffer_target) (buffer : Z)
| glBufferData (target : buffer_target) (size : Z) (data : payload) (usage : buffer_usage)
| glBufferSubData (target : buffer_target) (offset size : Z) (data : payload)
| glVertexAttribPointer (index size : Z) (type : data_type) (normalized : bool) (stride offset : Z)
| glEnableVertexAttribArray (index : Z)
| glVertexAttribDivisor (index divisor : Z)
| glPolygonMode (f : face) (mode : polygon_mode)
| glUseProgram (program : Z)
| glGetUniformLocation (program : Z) (name : string) (location : Z)
| glUniformMatrix4fv (location count : Z) (transpose : bool) (value : payload)
| glUniform2f (location : Z) (v0 v1 : float)
| glClear (mask : clear_mask)
| glDrawElementsInstanced (mode : primitive) (count : Z) (type : data_type) (indices : Z) (instancecount : Z).
End Call.

(** The driver: names handed out so far, live program objects, bindings,
    buffer contents and the rasteriser's polygon mode.  Shader and program
    objects share one name space; buffers and vertex arrays have their own.
    Shader objects are never queried again after linking, so the driver
    state keeps no record of them beyond the trace. *)
Record GLstate := mkGL {
  next_object : Z;
  next_buffer : Z;
  next_vertex_array : Z;
  live_programs : gset Z;
  array_buffer_binding : Z;
  element_array_buffer_binding : Z;
  vertex_array_binding : Z;
  buffer_store : gmap Z payload;
  current_program : Z;
  gl_polygon_mode : polygon_mode
}.

Definition gl_initial : GLstate :=
  mkGL 1 1 1 ∅ 0 0 0 ∅ 0 GL_FILL.

(** What the environment decides: the values of successive [rand()] calls,
    the statuses and logs the driver reports per object, uniform locations
    and the clock at start-up.  [RAND_MAX] comes from the C library. *)
Record Env := mkEnv {
  RAND_MAX : Z;
  rand_value : nat -> Z;
  compile_status : Z -> Z;
  shader_info_log : Z -> string;
  link_status : Z -> Z;
  program_info_log : Z -> string;
  uniform_location : Z -> string -> Z;
  start_time : double
}.

(** The file-scope variables of [main.cpp]. *)
Record Globals := mkGlobals {
  circleShader : Z;
  rectangleShader : Z;
  activeShader : Z;
  WIREFRAME_ENABLED : bool
}.

(** Everything outside [main]'s locals: globals, driver, the trace of calls,
    standard output and how many times [rand] was called. *)
Record World := mkWorld {
  globals : Globals;
  gl : GLstate;
  trace : list Call.t;
  stdout : list string;
  rand_calls : nat
}.

Definition world_initial : World :=
  mkWorld (mkGlobals 0 0 0 false) gl_initial [] [] 0.

(** ** A state monad over the world *)

Definition M (A : Type) : Type := World -> A * World.

#[global] Instance M_ret : MRet M := fun A (a : A) w => (a, w).
#[global] Instance M_bind : MBind M :=
  fun A B (f : A -> M B) (m : M A) w => let '(a, w') := m w in f a w'.

Definition run {A} (m : M A) (w : World) : A * World := m w.
Definition exec {A} (m : M A) (w : World) : World := snd (m w).
Definition eval {A} (m : M A) (w : World) : A := fst (m w).

Definition emit (c : Call.t) : M unit :=
  fun w => (tt, mkWorld (globals w) (gl w) (trace w ++ [c]) (stdout w) (rand_calls w)).

Definition get_gl : M GLstate := fun w => (gl w, w).
Definition put_gl (g : GLstate) : M unit :=
  fun w => (tt, mkWorld (globals w) g (trace w) (stdout w) (rand_calls w)).

Definition get_globals : M Globals := fun w => (globals w, w).
Definition put_globals (g : Globals) : M unit :=
  fun w => (tt, mkWorld g (gl w) (trace w) (stdout w) (rand_calls w)).

(** [std::cout << s] *)
Definition cout (s : string) : M unit :=
  fun w => (tt, mkWorld (globals w) (gl w) (trace w) (stdout w ++ [s]) (rand_calls w)).

(** ** The API calls the program makes, as actions *)

Section Api.
Context (env : Env).

(** [rand()]: the next value of the environment's sequence. *)
Definition rand : M Z :=
  fun w => (rand_value env (rand_calls w),
            mkWorld (globals w) (gl w) (trace w) (stdout w) (S (rand_calls w))).

Definition glCreateShader (type : shader_type) : M Z :=
  g ← get_gl;
  let name := next_object g in
  put_gl (mkGL (name + 1) (next_buffer g) (next_vertex_array g) (live_programs g)
               (array_buffer_binding g) (element_array_buffer_binding g)
               (vertex_array_binding g) (buffer_store g) (current_program g)
               (gl_polygon_mode g));;
  emit (Call.glCreateShader type name);;
  mret name.

Definition glCreateProgram : M Z :=
  g ← get_gl;
  let name := next_object g in
  put_gl (mkGL (name + 1) (next_buffer g) (next_vertex_array g)
               ({[name]} ∪ live_programs g)
               (array_buffer_binding g) (element_array_buffer_binding g)
               (vertex_array_binding g) (buffer_store g) (current_program g)
               (gl_polygon_mode g));;
  emit (Call.glCreateProgram name);;
  mret name.

Definition glShaderSource (shader : Z) (source : string) : M unit :=
  emit (Call.glShaderSource shader source).
Definition glCompileShader (shader : Z) : M unit :=
  emit (Call.glCompileShader shader).
Definition glGetShaderiv_COMPILE_STATUS (shader : Z) : M Z :=
  let status := compile_status env shader in
  emit (Call.glGetShaderiv_COMPILE_STATUS shader status);; mret status.
Definition glGetShaderInfoLog (shader : Z) : M string :=
  let log := shader_info_log env shader in
  emit (Call.glGetShaderInfoLog shader log);; mret log.
Definition glAttachShader (program shader : Z) : M unit :=
  emit (Call.glAttachShader program shader).
Definition glLinkProgram (program : Z) : M unit :=
  emit (Call.glLinkProgram program).
Definition glGetProgramiv_LINK_STATUS (program : Z) : M Z :=
  let status := link_status env program in
  emit (Call.glGetProgramiv_LINK_STATUS program status);; mret status.
Definition glGetProgramInfoLog (program : Z) : M string :=
  let log := program_info_log env program in
  emit (Call.glGetProgramInfoLog program log);; mret log.
Definition glDeleteShader (shader : Z) : M unit :=
  emit (Call.glDeleteShader shader).

Definition glGenVertexArrays : M Z :=
  g ← get_gl;
  let name := next_vertex_array g in
  put_gl (mkGL (next_object g) (next_buffer g) (name + 1) (live_programs g)
               (array_buffer_binding g) (element_array_buffer_binding g)
               (vertex_array_binding g) (buffer_store g) (current_program g)
               (gl_polygon_mode g));;
  emit (Call.glGenVertexArrays name);;
  mret name.

Definition glGenBuffers : M Z :=
  g ← get_gl;
  let name := next_buffer g in
  put_gl (mkGL (next_object g) (name + 1) (next_vertex_array g) (live_programs g)
               (array_buffer_binding g) (element_array_buffer_binding g)
               (vertex_array_binding g) (buffer_store g) (current_program g)
               (gl_polygon_mode g));;
  emit (Call.glGenBuffers name);;
  mret name.

Definition glBindVertexArray (array : Z) : M unit :=
  g ← get_gl;
  put_gl (mkGL (next_object g) (next_buffer g) (next_vertex_array g) (live_programs g)
               (array_buffer_binding g) (element_array_buffer_binding g)
               array (buffer_store g) (current_program g) (gl_polygon_mode g));;
  emit (Call.glBindVertexArray array).

Definition glBindBuffer (target : buffer_target) (buffer : Z) : M unit :=
  g ← get_gl;
  put_gl (match target with
          | GL_ARRAY_BUFFER =>
              mkGL (next_object g) (next_buffer g) (next_vertex_array g) (live_programs g)
                   buffer (element_array_buffer_binding g)
                   (vertex_array_binding g) (buffer_store g) (current_program g)
                   (gl_polygon_mode g)
          | GL_ELEMENT_ARRAY_BUFFER =>
              mkGL (next_object g) (next_buffer g) (next_vertex_array g) (live_programs g)
                   (array_buffer_binding g) buffer
                   (vertex_array_binding g) (buffer_store g) (current_program g)
                   (gl_polygon_mode g)
          end);;
  emit (Call.glBindBuffer target buffer).

Definition bound_buffer (g : GLstate) (target : buffer_target) : Z :=
  match target with
  | GL_ARRAY_BUFFER => array_buffer_binding g
  | GL_ELEMENT_ARRAY_BUFFER => element_array_buffer_binding g
  end.

Definition store (g : GLstate) (target : buffer_target) (data : payload) : GLstate :=
  mkGL (next_object g) (next_buffer g) (next_vertex_array g) (live_programs g)
       (array_buffer_binding g) (element_array_buffer_binding g)
       (vertex_array_binding g) (<[bound_buffer g target := data]> (buffer_store g))
       (current_program g) (gl_polygon_mode g).

Definition glBufferData (target : buffer_target) (size : Z) (data : payload)
    (usage : buffer_usage) : M unit :=
  g ← get_gl;
  put_gl (store g target data);;
  emit (Call.glBufferData target size data usage).

(** Only ever called with offset 0 and the size of the whole buffer, so
    the bound buffer's contents are replaced. *)
Definition glBufferSubData (target : buffer_target) (offset size : Z)
    (data : payload) : M unit :=
  g ← get_gl;
  put_gl (store g target data);;
  emit (Call.glBufferSubData target offset size data).

Definition glVertexAttribPointer (index size : Z) (type : data_type)
    (normalized : bool) (stride offset : Z) : M unit :=
  emit (Call.glVertexAttribPointer index size type normalized stride offset).
Definition glEnableVertexAttribArray (index : Z) : M unit :=
  emit (Call.glEnableVertexAttribArray index).
Definition glVertexAttribDivisor (index divisor : Z) : M unit :=
  emit (Call.glVertexAttribDivisor index divisor).

Definition glPolygonMode (f : face) (mode : polygon_mode) : M unit :=
  g ← get_gl;
  put_gl (mkGL (next_object g) (next_buffer g) (next_vertex_array g) (live_programs g)
               (array_buffer_binding g) (element_array_buffer_binding g)
               (vertex_array_binding g) (buffer_store g) (current_program g) mode);;
  emit (Call.glPolygonMode f mode).

Definition glUseProgram (program : Z) : M unit :=
  g ← get_gl;
  put_gl (mkGL (next_object g) (next_buffer g) (next_vertex_array g) (live_programs g)
               (array_buffer_binding g) (element_array_buffer_binding g)
               (vertex_array_binding g) (buffer_store g) program (gl_polygon_mode g));;
  emit (Call.glUseProgram program).

Definition glGetUniformLocation (program : Z) (name : string) : M Z :=
  let location := uniform_location env program name in
  emit (Call.glGetUniformLocation program name location);; mret location.
Definition glUniformMatrix4fv (location count : Z) (transpose : bool)
    (value : payload) : M unit :=
  emit (Call.glUniformMatrix4fv location count transpose value).
Definition glUniform2f (location : Z) (v0 v1 : float) : M unit :=
  emit (Call.glUniform2f location v0 v1).
Definition glClear (mask : clear_mask) : M unit :=
  emit (Call.glClear mask).
Definition glDrawElementsInstanced (mode : primitive) (count : Z) (type : data_type)
    (indices instancecount : Z) : M unit :=
  emit (Call.glDrawElementsInstanced mode count type indices instancecount).

(** ** The functions of [main.cpp] *)

Record BufferData := mkBufferData {
  data : payload;
  size : Z;
  usage : buffer_usage
}.

Record VertexAttribute := mkVertexAttribute {
  index : Z;
  attr_size : Z;
  type : data_type;
  normalized : bool;
  stride : Z;
  offset : Z
}.

(** Lines 135-184.  [!success] is [success == 0]. *)
Definition compileShader (vertexSource fragSource : string) : M Z :=
  (* Compile vertex shader *)
  vertexShader ← glCreateShader GL_VERTEX_SHADER;
  glShaderSource vertexShader vertexSource;;
  glCompileShader vertexShader;;
  (* Error checking *)
  success ← glGetShaderiv_COMPILE_STATUS vertexShader;
  (if success =? 0 then
     infoLog ← glGetShaderInfoLog vertexShader;
     cout ("Error, vertex shader failed to compile:" +:+ endl +:+ infoLog +:+ endl)
   else mret tt);;
  (* Compile fragment shader *)
  fragmentShader ← glCreateShader GL_FRAGMENT_SHADER;
  glShaderSource fragmentShader fragSource;;
  glCompileShader fragmentShader;;
  (* Error checking *)
  success ← glGetShaderiv_COMPILE_STATUS fragmentShader;
  (if success =? 0 then
     infoLog ← glGetShaderInfoLog fragmentShader;
     cout ("Error, fragment shader failed to compile:" +:+ endl +:+ infoLog +:+ endl)
   else mret tt);;
  (* Create and link shader program *)
  shaderProgram ← glCreateProgram;
  glAttachShader shaderProgram vertexShader;;
  glAttachShader shaderProgram fragmentShader;;
  glLinkProgram shaderProgram;;
  (* Error checking *)
  success ← glGetProgramiv_LINK_STATUS shaderProgram;
  (if success =? 0 then
     infoLog ← glGetProgramInfoLog shaderProgram;
     cout ("Error, shaders failed to link:" +:+ endl +:+ infoLog +:+ endl)
   else mret tt);;
  glDeleteShader vertexShader;;
  glDeleteShader fragmentShader;;
  mret shaderProgram.

(** Lines 186-205; the two reference parameters are returned. *)
Definition setupBuffers (vertexBufferData : BufferData)
    (vertexAttribute : VertexAttribute) : M (Z * Z) :=
  VAO ← glGenVertexArrays;
  glBindVertexArray VAO;;
  VBO ← glGenBuffers;
  glBindBuffer GL_ARRAY_BUFFER VBO;;
  glBufferData GL_ARRAY_BUFFER (size vertexBufferData) (data vertexBufferData)
               (usage vertexBufferData);;
  glVertexAttribPointer (index vertexAttribute) (attr_size vertexAttribute)
                        (type vertexAttribute) (normalized vertexAttribute)
                        (stride vertexAttribute) (offset vertexAttribute);;
  glEnableVertexAttribArray (index vertexAttribute);;
  glBindVertexArray 0;;
  mret (VAO, VBO).

(** Lines 207-219. *)
Definition createEBO (VAO : Z) (bufferData : BufferData) : M Z :=
  glBindVertexArray VAO;;
  EBO ← glGenBuffers;
  glBindBuffer GL_ELEMENT_ARRAY_BUFFER EBO;;
  glBufferData GL_ELEMENT_ARRAY_BUFFER (size bufferData) (data bufferData)
               (usage bufferData);;
  glBindVertexArray 0;;
  mret EBO.

(** Lines 221-238. *)
Definition createVBO (VAO : Z) (bufferData : BufferData)
    (vertexAttrib : VertexAttribute) : M Z :=
  glBindVertexArray VAO;;
  VBO ← glGenBuffers;
  glBindBuffer GL_ARRAY_BUFFER VBO;;
  glBufferData GL_ARRAY_BUFFER (size bufferData) (data bufferData) (usage bufferData);;
  glVertexAttribPointer (index vertexAttrib) (attr_size vertexAttrib)
                        (type vertexAttrib) (normalized vertexAttrib)
                        (stride vertexAttrib) (offset vertexAttrib);;
  glEnableVertexAttribArray (index vertexAttrib);;
  glVertexAttribDivisor (index vertexAttrib) 1;;
  glBindVertexArray 0;;
  mret VBO.

(** Lines 257-261, on the value [r] that [rand()] returned. *)
Definition rndFloat_with (r : Z) (lower upper : float) : float :=
  let random := F32.div (F32.of_int r) (F32.of_int (RAND_MAX env)) in
  F32.add lower (F32.mul random (F32.sub upper lower)).

Definition rndFloat (lower upper : float) : M float :=
  r ← rand;
  mret (rndFloat_with r lower upper).

(** Lines 263-269: returns the delta; the new [lastFrameTime] is the
    clock reading [now]. *)
Definition getDeltaTima (now lastFrameTime : double) : M (double * double) :=
  emit (Call.glfwGetTime now);;
  let currentFrameTime := now in
  let deltaTime := F64.sub currentFrameTime lastFrameTime in
  mret (deltaTime, currentFrameTime).

Definition set_WIREFRAME_ENABLED (b : bool) : M unit :=
  g ← get_globals;
  put_globals (mkGlobals (circleShader g) (rectangleShader g) (activeShader g) b).

Definition set_activeShader (p : Z) : M unit :=
  g ← get_globals;
  put_globals (mkGlobals (circleShader g) (rectangleShader g) p (WIREFRAME_ENABLED g)).

(** Lines 277-297. *)
Definition keyCallback (key scancode action mods : Z) : M unit :=
  (if (key =? GLFW_KEY_SPACE) && (action =? GLFW_PRESS) then
     g ← get_globals;
     if WIREFRAME_ENABLED g then
       set_WIREFRAME_ENABLED (negb (WIREFRAME_ENABLED g));;
       glPolygonMode GL_FRONT_AND_BACK GL_FILL
     else
       set_WIREFRAME_ENABLED (negb (WIREFRAME_ENABLED g));;
       glPolygonMode GL_FRONT_AND_BACK GL_LINE
   else mret tt);;
  (if (key =? GLFW_KEY_T) && (action =? GLFW_PRESS) then
     g ← get_globals;
     if negb (activeShader g =? rectangleShader g)
     then set_activeShader (rectangleShader g)
     else set_activeShader (circleShader g)
   else mret tt).
End Api.

(** ** [main] *)

(** A key event GLFW hands to the callback. *)
Record KeyEvent := mkKeyEvent {
  key : Z;
  scancode : Z;
  action : Z;
  mods : Z
}.

(** One iteration of the render loop as the environment sees it: the clock
    reading of this frame's [glfwGetTime] and the key events that this
    frame's [glfwPollEvents] delivers. *)
Record Frame := mkFrame {
  frame_time : double;
  frame_keys : list KeyEvent
}.

(** The locals of [main] that outlive start-up. *)
Record Locals := mkLocals {
  instances : list vec2.t;
  instance_colors : list vec3.t;
  instance_models : list vec3.t;
  VAO : Z;
  VBO : Z;
  EBO : Z;
  iPosVBO : Z;
  iColorVBO : Z;
  iModelVBO : Z;
  rotationAngle : float;
  lastFrameTime : double
}.

Definition vertices : list float :=
  [ f1_0; f1_0;       (* top right *)
    f1_0; fm1_0;      (* bottom right *)
    fm1_0; fm1_0;     (* bottom left *)
    fm1_0; f1_0 ].    (* top left *)

Definition indices : list Z :=
  [ 0; 1; 3;     (* first triangle *)
    1; 2; 3 ].   (* second triangle *)

Definition sizeof_vertices : Z := Z.of_nat (length vertices) * sizeof_float.
Definition sizeof_indices : Z := Z.of_nat (length indices) * sizeof_unsigned_int.

Definition instances_index : nat := 1000.

Definition rotationSpeed : float := f1_0.

(** [for (size_t i = start; i < start + count; i++) body] *)
Fixpoint for_loop {S : Type} (count : nat) (i : nat) (body : nat -> S -> M S) (s : S)
    : M S :=
  match count with
  | O => mret s
  | Datatypes.S count' => s' ← body i s; for_loop count' (Datatypes.S i) body s'
  end.

Section Main.
Context (env : Env).

(** Lines 328-333, the body of the initialisation loop.  The arguments of
    a constructor call are drawn left to right here; C++ leaves their
    order open, and no property below depends on it. *)
Definition init_instance (i : nat)
    (arrays : list vec2.t * list vec3.t * list vec3.t)
    : M (list vec2.t * list vec3.t * list vec3.t) :=
  let '(instances, instance_colors, instance_models) := arrays in
  px ← rndFloat env (SFopp ASPECT_RATIO) ASPECT_RATIO;
  py ← rndFloat env fm1_0 f1_0;
  let rndPos := vec2.mk px py in
  cr ← rndFloat env f0_0 f1_0;
  cg ← rndFloat env f0_0 f1_0;
  cb ← rndFloat env f0_0 f1_0;
  let rndCol := vec3.mk cr cg cb in
  let instance_models := <[i := vec3.mk f0_05 f0_05 f0_0]> instance_models in
  let instances := <[i := rndPos]> instances in
  let instance_colors := <[i := rndCol]> instance_colors in
  mret (instances, instance_colors, instance_models).

(** Lines 301-377: everything before the render loop.  The three arrays
    come from [new T[instances_index]]; their initial contents are
    indeterminate in C++ and every element is overwritten by the loop. *)
Definition main_init : M Locals :=
  emit Call.glfwInit;;
  emit (Call.glfwCreateWindow WINDOW_WIDTH WINDOW_HEIGHT "OpenGL");;
  emit Call.glfwSetKeyCallback;;
  emit Call.glfwMakeContextCurrent;;
  emit Call.glewInit;;
  arrays ← for_loop instances_index 0 init_instance
             (replicate instances_index (vec2.mk f0_0 f0_0),
              replicate instances_index (vec3.mk f0_0 f0_0 f0_0),
              replicate instances_index (vec3.mk f0_0 f0_0 f0_0));
  let '(instances, instance_colors, instance_models) := arrays in
  (* Create VAO and VBO for vertices and indices *)
  let vertexAttr := mkVertexAttribute 0 2 GL_FLOAT false (2 * sizeof_float) 0 in
  let vertexData := mkBufferData (Floats vertices) sizeof_vertices GL_STATIC_DRAW in
  '(VAO, VBO) ← setupBuffers vertexData vertexAttr;
  (* Create indices buffer *)
  let indexData := mkBufferData (UInts indices) sizeof_indices GL_STATIC_DRAW in
  EBO ← createEBO VAO indexData;
  (* Create VBO for instance positions *)
  let instanceAttr := mkVertexAttribute 1 2 GL_FLOAT false (2 * sizeof_float) 0 in
  let instanceData := mkBufferData (Vec2s instances)
                        (Z.of_nat instances_index * (2 * sizeof_float)) GL_STATIC_DRAW in
  iPosVBO ← createVBO VAO instanceData instanceAttr;
  (* Create VBO for instance colors *)
  let colorAttr := mkVertexAttribute 2 3 GL_FLOAT false (3 * sizeof_float) 0 in
  let colorData := mkBufferData (Vec3s instance_colors)
                     (Z.of_nat instances_index * (3 * sizeof_float)) GL_STATIC_DRAW in
  iColorVBO ← createVBO VAO colorData colorAttr;
  (* Create VBO for instance models *)
  let scaleAttr := mkVertexAttribute 3 3 GL_FLOAT false (3 * sizeof_float) 0 in
  let scaleData := mkBufferData (Vec3s instance_models)
                     (Z.of_nat instances_index * (3 * sizeof_float)) GL_STATIC_DRAW in
  iModelVBO ← createVBO VAO scaleData scaleAttr;
  let orthoMatrix := Ortho (SFopp ASPECT_RATIO) ASPECT_RATIO fm1_0 f1_0 fm1_0 f1_0 in
  circle ← compileShader env vertexCircleSource fragmentCircleSource;
  g ← get_globals;
  put_globals (mkGlobals circle (rectangleShader g) (activeShader g)
                         (WIREFRAME_ENABLED g));;
  rectangle ← compileShader env vertexRectangleSource fragmentRectangleSource;
  g ← get_globals;
  put_globals (mkGlobals (circleShader g) rectangle (activeShader g)
                         (WIREFRAME_ENABLED g));;
  g ← get_globals;
  glUseProgram (circleShader g);;
  location ← glGetUniformLocation env (circleShader g) "projection";
  glUniformMatrix4fv location 1 false orthoMatrix;;
  location ← glGetUniformLocation env (circleShader g) "resolution";
  glUniform2f location (F32.of_int WINDOW_WIDTH) (F32.of_int WINDOW_HEIGHT);;
  glUseProgram (rectangleShader g);;
  location ← glGetUniformLocation env (rectangleShader g) "projection";
  glUniformMatrix4fv location 1 false orthoMatrix;;
  set_activeShader (rectangleShader g);;
  let rotationAngle := f0_0 in            (* Initial rotation angle *)
  emit (Call.glfwGetTime (start_time env));;
  let lastFrameTime := start_time env in  (* Get initial time *)
  mret (mkLocals instances instance_colors instance_models
                 VAO VBO EBO iPosVBO iColorVBO iModelVBO
                 rotationAngle lastFrameTime).

(** [glfwPollEvents]: GLFW runs the key callback on each pending event. *)
Fixpoint dispatch (events : list KeyEvent) : M unit :=
  match events with
  | [] => mret tt
  | e :: events' =>
      keyCallback (key e) (scancode e) (action e) (mods e);; dispatch events'
  end.

Definition glfwPollEvents (events : list KeyEvent) : M unit :=
  emit Call.glfwPollEvents;; dispatch events.

(** Lines 382-383. *)
Definition advance (rotationAngle : float) (deltaTime : double) : float :=
  let rotationAngle :=
    F32.add rotationAngle (F32.mul rotationSpeed (F32.of_double deltaTime)) in
  if F32.leb two_pi rotationAngle
  then F32.sub rotationAngle two_pi
  else rotationAngle.

(** Lines 384-387. *)
Definition set_rotation (rotationAngle : float) (i : nat)
    (instance_models : list vec3.t) : M (list vec3.t) :=
  mret (alter (vec3.set_z rotationAngle) i instance_models).

(** Lines 381-398: the body of the render loop. *)
Definition render_frame (l : Locals) (f : Frame) : M Locals :=
  '(deltaTime, lastFrameTime) ← getDeltaTima (frame_time f) (lastFrameTime l);
  let rotationAngle := advance (rotationAngle l) deltaTime in
  instance_models ← for_loop instances_index 0 (set_rotation rotationAngle)
                      (instance_models l);
  glBindBuffer GL_ARRAY_BUFFER (iModelVBO l);;
  glBufferSubData GL_ARRAY_BUFFER 0 (Z.of_nat instances_index * (3 * sizeof_float))
                  (Vec3s instance_models);;
  glBindBuffer GL_ARRAY_BUFFER 0;;
  glClear GL_COLOR_BUFFER_BIT;;
  g ← get_globals;
  glUseProgram (activeShader g);;
  glBindVertexArray (VAO l);;
  glDrawElementsInstanced GL_TRIANGLES (sizeof_indices / sizeof_float)
                          GL_UNSIGNED_INT 0 (Z.of_nat instances_index);;
  glBindVertexArray 0;;
  emit Call.glfwSwapBuffers;;
  glfwPollEvents (frame_keys f);;
  mret (mkLocals (instances l) (instance_colors l) instance_models
                 (VAO l) (VBO l) (EBO l) (iPosVBO l) (iColorVBO l) (iModelVBO l)
                 rotationAngle lastFrameTime).

(** Lines 379-399: one iteration per frame the environment lets pass
    before [glfwWindowShouldClose] answers true. *)
Fixpoint render_loop (l : Locals) (frames : list Frame) : M Locals :=
  match frames with
  | [] => emit (Call.glfwWindowShouldClose true);; mret l
  | f :: frames' =>
      emit (Call.glfwWindowShouldClose false);;
      l' ← render_frame l f;
      render_loop l' frames'
  end.

(** Lines 299-402. *)
Definition main (frames : list Frame) : M Z :=
  l ← main_init;
  render_loop l frames;;
  emit Call.glfwTerminate;;
  mret 0.
End Main.

(** ** Vocabulary of the properties *)

(** *** What [compileShader] prints and calls, by the statuses reported *)

Definition vertex_message (env : Env) (shader : Z) : list string :=
  if compile_status env shader =? 0
  then ["Error, vertex shader failed to compile:" +:+ endl
          +:+ shader_info_log env shader +:+ endl]
  else [].

Definition fragment_message (env : Env) (shader : Z) : list string :=
  if compile_status env shader =? 0
  then ["Error, fragment shader failed to compile:" +:+ endl
          +:+ shader_info_log env shader +:+ endl]
  else [].

Definition link_message (env : Env) (program : Z) : list string :=
  if link_status env program =? 0
  then ["Error, shaders failed to link:" +:+ endl
          +:+ program_info_log env program +:+ endl]
  else [].

(** The diagnostics of one [compileShader] call whose first fresh name is [n]. *)
Definition compile_messages (env : Env) (n : Z) : list string :=
  vertex_message env n ++ fragment_message env (n + 1) ++ link_message env (n + 2).

Definition shader_log_call (env : Env) (shader : Z) : list Call.t :=
  if compile_status env shader =? 0
  then [Call.glGetShaderInfoLog shader (shader_info_log env shader)]
  else [].

Definition program_log_call (env : Env) (program : Z) : list Call.t :=
  if link_status env program =? 0
  then [Call.glGetProgramInfoLog program (program_info_log env program)]
  else [].

Definition compile_calls (env : Env) (n : Z) (vertexSource fragSource : string)
    : list Call.t :=
  [Call.glCreateShader GL_VERTEX_SHADER n;
   Call.glShaderSource n vertexSource;
   Call.glCompileShader n;
   Call.glGetShaderiv_COMPILE_STATUS n (compile_status env n)]
  ++ shader_log_call env n
  ++ [Call.glCreateShader GL_FRAGMENT_SHADER (n + 1);
      Call.glShaderSource (n + 1) fragSource;
      Call.glCompileShader (n + 1);
      Call.glGetShaderiv_COMPILE_STATUS (n + 1) (compile_status env (n + 1))]
  ++ shader_log_call env (n + 1)
  ++ [Call.glCreateProgram (n + 2);
      Call.glAttachShader (n + 2) n;
      Call.glAttachShader (n + 2) (n + 1);
      Call.glLinkProgram (n + 2);
      Call.glGetProgramiv_LINK_STATUS (n + 2) (link_status env (n + 2))]
  ++ program_log_call env (n + 2)
  ++ [Call.glDeleteShader n; Call.glDeleteShader (n + 1)].

(** The driver after one [compileShader]: three names used, one more live
    program. *)
Definition gl_after_compile (g : GLstate) : GLstate :=
  mkGL (next_object g + 3) (next_buffer g) (next_vertex_array g)
       ({[next_object g + 2]} ∪ live_programs g)
       (array_buffer_binding g) (element_array_buffer_binding g)
       (vertex_array_binding g) (buffer_store g) (current_program g)
       (gl_polygon_mode g).

(** *** The key callback as a transition on the world *)

Definition toggle_wireframe (w : World) : World :=
  let g := globals w in
  let d := gl w in
  let mode := if WIREFRAME_ENABLED g then GL_FILL else GL_LINE in
  mkWorld (mkGlobals (circleShader g) (rectangleShader g) (activeShader g)
                     (negb (WIREFRAME_ENABLED g)))
          (mkGL (next_object d) (next_buffer d) (next_vertex_array d) (live_programs d)
                (array_buffer_binding d) (element_array_buffer_binding d)
                (vertex_array_binding d) (buffer_store d) (current_program d) mode)
          (trace w ++ [Call.glPolygonMode GL_FRONT_AND_BACK mode])
          (stdout w) (rand_calls w).

Definition swap_shader (w : World) : World :=
  let g := globals w in
  mkWorld (mkGlobals (circleShader g) (rectangleShader g)
                     (if activeShader g =? rectangleShader g
                      then circleShader g else rectangleShader g)
                     (WIREFRAME_ENABLED g))
          (gl w) (trace w) (stdout w) (rand_calls w).

Definition key_step (key action : Z) (w : World) : World :=
  let w1 := if (key =? GLFW_KEY_SPACE) && (action =? GLFW_PRESS)
            then toggle_wireframe w else w in
  if (key =? GLFW_KEY_T) && (action =? GLFW_PRESS) then swap_shader w1 else w1.

Definition is_glPolygonMode (c : Call.t) : Prop :=
  match c with Call.glPolygonMode _ _ => True | _ => False end.

(** What a key event leaves alone: everything of the driver but the polygon
    mode, standard output, the random stream; it only adds
    [glPolygonMode] calls to the trace. *)
Definition key_frame (w w' : World) : Prop :=
  circleShader (globals w') = circleShader (globals w)
  /\ rectangleShader (globals w') = rectangleShader (globals w)
  /\ live_programs (gl w') = live_programs (gl w)
  /\ next_object (gl w') = next_object (gl w)
  /\ next_buffer (gl w') = next_buffer (gl w)
  /\ next_vertex_array (gl w') = next_vertex_array (gl w)
  /\ buffer_store (gl w') = buffer_store (gl w)
  /\ current_program (gl w') = current_program (gl w)
  /\ stdout w' = stdout w
  /\ rand_calls w' = rand_calls w
  /\ exists calls, trace w' = trace w ++ calls /\ Forall is_glPolygonMode calls.

(** The shader-program invariant: the active program is one of the two
    compiled ones, the two are different objects, and both are live. *)
Definition shader_invariant (w : World) : Prop :=
  let g := globals w in
  (activeShader g = circleShader g \/ activeShader g = rectangleShader g)
  /\ circleShader g <> rectangleShader g
  /\ circleShader g ∈ live_programs (gl w)
  /\ rectangleShader g ∈ live_programs (gl w).

(** *** Start-up *)

(** The values the initialisation loop stores at index [j], when [rand] had
    been called [calls] times before the loop. *)
Definition instance_at (env : Env) (calls j : nat) : vec2.t :=
  vec2.mk
    (rndFloat_with env (rand_value env (calls + 5 * j)%nat)
                   (SFopp ASPECT_RATIO) ASPECT_RATIO)
    (rndFloat_with env (rand_value env (calls + 5 * j + 1)%nat) fm1_0 f1_0).

Definition color_at (env : Env) (calls j : nat) : vec3.t :=
  vec3.mk
    (rndFloat_with env (rand_value env (calls + 5 * j + 2)%nat) f0_0 f1_0)
    (rndFloat_with env (rand_value env (calls + 5 * j + 3)%nat) f0_0 f1_0)
    (rndFloat_with env (rand_value env (calls + 5 * j + 4)%nat) f0_0 f1_0).

Definition init_instances (env : Env) : list vec2.t :=
  instance_at env 0 <$> seq 0 instances_index.
Definition init_colors (env : Env) : list vec3.t :=
  color_at env 0 <$> seq 0 instances_index.
Definition init_models : list vec3.t :=
  replicate instances_index (vec3.mk f0_05 f0_05 f0_0).

Definition ortho_matrix : payload :=
  Ortho (SFopp ASPECT_RATIO) ASPECT_RATIO fm1_0 f1_0 fm1_0 f1_0.

(** The calls of [setupBuffers], [createEBO] and the three [createVBO]. *)
Definition buffer_calls (env : Env) : list Call.t :=
  [Call.glGenVertexArrays 1; Call.glBindVertexArray 1;
   Call.glGenBuffers 1; Call.glBindBuffer GL_ARRAY_BUFFER 1;
   Call.glBufferData GL_ARRAY_BUFFER sizeof_vertices (Floats vertices) GL_STATIC_DRAW;
   Call.glVertexAttribPointer 0 2 GL_FLOAT false (2 * sizeof_float) 0;
   Call.glEnableVertexAttribArray 0; Call.glBindVertexArray 0;
   Call.glBindVertexArray 1; Call.glGenBuffers 2;
   Call.glBindBuffer GL_ELEMENT_ARRAY_BUFFER 2;
   Call.glBufferData GL_ELEMENT_ARRAY_BUFFER sizeof_indices (UInts indices) GL_STATIC_DRAW;
   Call.glBindVertexArray 0;
   Call.glBindVertexArray 1; Call.glGenBuffers 3; Call.glBindBuffer GL_ARRAY_BUFFER 3;
   Call.glBufferData GL_ARRAY_BUFFER (Z.of_nat instances_index * (2 * sizeof_float))
                     (Vec2s (init_instances env)) GL_STATIC_DRAW;
   Call.glVertexAttribPointer 1 2 GL_FLOAT false (2 * sizeof_float) 0;
   Call.glEnableVertexAttribArray 1; Call.glVertexAttribDivisor 1 1;
   Call.glBindVertexArray 0;
   Call.glBindVertexArray 1; Call.glGenBuffers 4; Call.glBindBuffer GL_ARRAY_BUFFER 4;
   Call.glBufferData GL_ARRAY_BUFFER (Z.of_nat instances_index * (3 * sizeof_float))
                     (Vec3s (init_colors env)) GL_STATIC_DRAW;
   Call.glVertexAttribPointer 2 3 GL_FLOAT false (3 * sizeof_float) 0;
   Call.glEnableVertexAttribArray 2; Call.glVertexAttribDivisor 2 1;
   Call.glBindVertexArray 0;
   Call.glBindVertexArray 1; Call.glGenBuffers 5; Call.glBindBuffer GL_ARRAY_BUFFER 5;
   Call.glBufferData GL_ARRAY_BUFFER (Z.of_nat instances_index * (3 * sizeof_float))
                     (Vec3s init_models) GL_STATIC_DRAW;
   Call.glVertexAttribPointer 3 3 GL_FLOAT false (3 * sizeof_float) 0;
   Call.glEnableVertexAttribArray 3; Call.glVertexAttribDivisor 3 1;
   Call.glBindVertexArray 0].

Definition uniform_calls (env : Env) : list Call.t :=
  [Call.glUseProgram 3;
   Call.glGetUniformLocation 3 "projection" (uniform_location env 3 "projection");
   Call.glUniformMatrix4fv (uniform_location env 3 "projection") 1 false ortho_matrix;
   Call.glGetUniformLocation 3 "resolution" (uniform_location env 3 "resolution");
   Call.glUniform2f (uniform_location env 3 "resolution")
                    (F32.of_int WINDOW_WIDTH) (F32.of_int WINDOW_HEIGHT);
   Call.glUseProgram 6;
   Call.glGetUniformLocation 6 "projection" (uniform_location env 6 "projection");
   Call.glUniformMatrix4fv (uniform_location env 6 "projection") 1 false ortho_matrix;
   Call.glfwGetTime (start_time env)].

(** Every call made before the render loop, in order. *)
Definition init_trace (env : Env) : list Call.t :=
  [Call.glfwInit; Call.glfwCreateWindow WINDOW_WIDTH WINDOW_HEIGHT "OpenGL";
   Call.glfwSetKeyCallback; Call.glfwMakeContextCurrent; Call.glewInit]
  ++ buffer_calls env
  ++ compile_calls env 1 vertexCircleSource fragmentCircleSource
  ++ compile_calls env 4 vertexRectangleSource fragmentRectangleSource
  ++ uniform_calls env.

Definition init_locals (env : Env) : Locals :=
  mkLocals (init_instances env) (init_colors env) init_models
           1 1 2 3 4 5 f0_0 (start_time env).

Definition init_world (env : Env) : World :=
  mkWorld (mkGlobals 3 6 6 false)
          (mkGL 7 6 2 ({[6]} ∪ ({[3]} ∪ ∅)) 5 2 0
                (<[5 := Vec3s init_models]>
                 (<[4 := Vec3s (init_colors env)]>
                  (<[3 := Vec2s (init_instances env)]>
                   (<[2 := UInts indices]>
                    (<[1 := Floats vertices]> ∅)))))
                6 GL_FILL)
          (init_trace env)
          (compile_messages env 1 ++ compile_messages env 4)
          (5 * instances_index)%nat.

(** *** One frame *)

(** The calls of one loop iteration up to and including [glfwPollEvents],
    given the transforms uploaded and the program active at that point. *)
Definition frame_calls (l : Locals) (f : Frame) (models : list vec3.t) (active : Z)
    : list Call.t :=
  [Call.glfwGetTime (frame_time f);
   Call.glBindBuffer GL_ARRAY_BUFFER (iModelVBO l);
   Call.glBufferSubData GL_ARRAY_BUFFER 0 (Z.of_nat instances_index * (3 * sizeof_float))
                        (Vec3s models);
   Call.glBindBuffer GL_ARRAY_BUFFER 0;
   Call.glClear GL_COLOR_BUFFER_BIT;
   Call.glUseProgram active;
   Call.glBindVertexArray (VAO l);
   Call.glDrawElementsInstanced GL_TRIANGLES (sizeof_indices / sizeof_float)
                                GL_UNSIGNED_INT 0 (Z.of_nat instances_index);
   Call.glBindVertexArray 0;
   Call.glfwSwapBuffers;
   Call.glfwPollEvents].

(** The transforms after the loop of lines 384-387 (it does not touch the
    world). *)
Definition rotate_models (a : float) (models : list vec3.t) : list vec3.t :=
  eval (for_loop instances_index 0 (set_rotation a) models) world_initial.

(** The angle after a frame that reads the clock at [frame_time f]. *)
Definition next_angle (l : Locals) (f : Frame) : float :=
  advance (rotationAngle l) (F64.sub (frame_time f) (lastFrameTime l)).

Definition frame_locals (l : Locals) (f : Frame) : Locals :=
  mkLocals (instances l) (instance_colors l)
           (rotate_models (next_angle l f) (instance_models l))
           (VAO l) (VBO l) (EBO l) (iPosVBO l) (iColorVBO l) (iModelVBO l)
           (next_angle l f) (frame_time f).

(** The world when [glfwPollEvents] starts running callbacks. *)
Definition frame_world (l : Locals) (f : Frame) (w : World) : World :=
  let d := gl w in
  let models := rotate_models (next_angle l f) (instance_models l) in
  mkWorld (globals w)
          (mkGL (next_object d) (next_buffer d) (next_vertex_array d) (live_programs d)
                0 (element_array_buffer_binding d) 0
                (<[iModelVBO l := Vec3s models]> (buffer_store d))
                (activeShader (globals w)) (gl_polygon_mode d))
          (trace w ++ frame_calls l f models (activeShader (globals w)))
          (stdout w) (rand_calls w).

(** *** Resources created and deleted along a trace *)







(** An environment for concrete runs: [RAND_MAX] of the Win32 C runtime, a
    linear congruential [rand], a driver on which everything compiles. *)
Definition sample_env : Env :=
  mkEnv 32767 (fun n => (Z.of_nat n * 7919 + 13) mod 32768)
        (fun _ => 1) (fun _ => EmptyString) (fun _ => 1) (fun _ => EmptyString)
        (fun program _ => program) (S754_zero false).

Definition sample_frame : Frame :=
  mkFrame (S754_finite false 4503599627370496 (-55))
          [mkKeyEvent GLFW_KEY_T 0 GLFW_PRESS 0].

(** ** Vocabulary for floating-point bounds *)

(** A rounding location that records a lost remainder. *)
Definition inexact (l : location) : bool :=
  match l with loc_Exact => false | loc_Inexact _ => true end.

(** The real number at position [l] after the integer [m], divided by
    [2 ^ k], is rounded to [m']: one of its two integer neighbours, and
    itself when it is an integer. *)
Definition faithful (m : Z) (l : location) (k m' : Z) : Prop :=
  m' = m / 2 ^ k
  \/ (m' = m / 2 ^ k + 1 /\ (m mod 2 ^ k <> 0 \/ inexact l = true)).

(** Rounding [m / 2 ^ k] to the nearest integer, ties to even. *)
Definition rne (m k : Z) : Z :=
  let q := m / 2 ^ k in
  let rem := m mod 2 ^ k in
  if 2 * rem <? 2 ^ k then q
  else if 2 ^ k <? 2 * rem then q + 1
  else if Z.even q then q else q + 1.

Section FormatDefs.
Variables prec emax : Z.

(** The float made of a rounded mantissa [m <= 2 ^ prec] at exponent [e]:
    what the tail of [binary_round_aux] builds. *)
Definition pack (sx : bool) (m e : Z) : spec_float :=
  if m =? 0 then S754_zero sx
  else if m <? 2 ^ prec then
    if e <=? emax - prec then S754_finite sx (Z.to_pos m) e else S754_infinity sx
  else
    if e + 1 <=? emax - prec then S754_finite sx (Z.to_pos (m / 2)) (e + 1)
    else S754_infinity sx.

(** The value of a finite float in units of [2 ^ emin], an integer for
    every valid float. *)
Definition Zv (x : spec_float) : Z :=
  match x with
  | S754_finite s m e => cond_Zopp s (Zpos m * 2 ^ (e - emin prec emax))
  | _ => 0
  end.
End FormatDefs.

(** The magnitude of a float in units of [2 ^ b]; meaningful for finite
    floats whose exponent is at least [b]. *)
Definition mag (b : Z) (x : spec_float) : Z :=
  match x with
  | S754_finite _ m e => Zpos m * 2 ^ (e - b)
  | _ => 0
  end.

(** Zeros and finite numbers, as opposed to infinities and NaN. *)
Definition is_finite (x : spec_float) : bool :=
  match x with
  | S754_finite _ _ _ | S754_zero _ => true
  | _ => false
  end.

(** The sign bit of [x] is [s], or [x] is a zero of that sign. *)
Definition has_sign (s : bool) (x : spec_float) : Prop :=
  match x with
  | S754_finite s' _ _ | S754_zero s' => s' = s
  | _ => False
  end.

(** A float is non-negative: a zero, a positive finite number or plus
    infinity. *)
Definition nonneg (x : spec_float) : Prop :=
  match x with
  | S754_nan => False
  | S754_zero _ => True
  | S754_infinity s | S754_finite s _ _ => s = false
  end.

(** *** The rotation angle *)

(** The angle lies in [[0, two_pi)], by the comparisons of binary32. *)
Definition in_turn (a : float) : Prop :=
  F32.leb f0_0 a = true /\ F32.ltb a two_pi = true.

(** Line 382's increment: [rotationSpeed * (float)deltaTime]. *)
Definition increment (l : Locals) (f : Frame) : float :=
  F32.mul rotationSpeed (F32.of_double (F64.sub (frame_time f) (lastFrameTime l))).

(** Every frame's increment over [frames] is at least 0 and below
    [two_pi]. *)
Fixpoint paced (l : Locals) (frames : list Frame) : Prop :=
  match frames with
  | [] => True
  | f :: frames' =>
      F32.leb f0_0 (increment l f) = true
      /\ F32.ltb (increment l f) two_pi = true
      /\ paced (frame_locals l f) frames'
  end.

(** Locals with empty arrays, the angle at 0 and the clock at 0. *)
Definition still_locals : Locals :=
  mkLocals [] [] [] 1 1 2 3 4 5 f0_0 (S754_zero false).



(** *** Random floats *)

(** The value of a finite binary32 float, in units of [2 ^ -149]. *)
Definition value32 (x : float) : Z := Zv F32.prec F32.emax x.

(** [v] lies in the closed interval from [lower] to [upper]. *)
Definition within (lower upper v : float) : Prop :=
  F32.leb lower v = true /\ F32.leb v upper = true.

(** A range [lower <= upper] whose width [upper - lower] binary32
    computes without overflow and without rounding up. *)
Definition tight_range (lower upper : float) : bool :=
  F32.valid lower && F32.valid upper
  && F32.leb lower upper
  && is_finite (F32.sub upper lower)
  && (value32 (F32.sub upper lower) <=? value32 upper - value32 lower).

(** [rand] always answers [RAND_MAX]. *)
Definition top_env : Env :=
  mkEnv 32767 (fun _ => 32767)
        (fun _ => 1) (fun _ => EmptyString) (fun _ => 1) (fun _ => EmptyString)
        (fun program _ => program) (S754_zero false).

(** ** Vocabulary of the further properties *)

(** *** Key presses in a batch of events *)

(** The event is a press of key [k]. *)
Definition is_press (k : Z) (e : KeyEvent) : bool :=
  (key e =? k) && (action e =? GLFW_PRESS).

(** How many events of the batch are presses of key [k]. *)
Fixpoint presses (k : Z) (events : list KeyEvent) : nat :=
  match events with
  | [] => 0
  | e :: events' => (if is_press k e then 1 else 0) + presses k events'
  end.

(** The program [keyCallback] switches to on a press of T. *)
Definition other_shader (g : Globals) : Z :=
  if activeShader g =? rectangleShader g then circleShader g else rectangleShader g.

(** The polygon mode the driver is in mirrors the wireframe flag. *)
Definition mode_in_sync (w : World) : Prop :=
  gl_polygon_mode (gl w) = (if WIREFRAME_ENABLED (globals w) then GL_LINE else GL_FILL).

(** A batch of events: SPACE pressed and released, T pressed three times
    with a key repeat in between. *)
Definition sample_release : KeyEvent := mkKeyEvent GLFW_KEY_SPACE 57 GLFW_RELEASE 0.
Definition sample_repeat : KeyEvent := mkKeyEvent GLFW_KEY_T 20 GLFW_REPEAT 0.
Definition sample_space : KeyEvent := mkKeyEvent GLFW_KEY_SPACE 57 GLFW_PRESS 0.
Definition sample_T : KeyEvent := mkKeyEvent GLFW_KEY_T 20 GLFW_PRESS 0.
Definition sample_events : list KeyEvent :=
  [sample_space; sample_T; sample_release; sample_repeat; sample_T; sample_T].

(** *** What a buffer helper does to the world *)



(** *** Vertex arrays and buffers, as OpenGL keeps them

    The driver state of [GLstate] keeps one binding per target.  OpenGL
    itself keeps the element-array binding and the attribute set-up per
    vertex array object; this replay of a trace keeps them that way, so
    that a draw call can be checked against the arrays it reads. *)

(** One vertex attribute of a vertex array: the buffer bound to
    [GL_ARRAY_BUFFER] when [glVertexAttribPointer] was called, the number
    of components, the stride, the divisor and whether it is enabled. *)
Record Attrib := mkAttrib {
  attrib_buffer : Z;
  attrib_components : Z;
  attrib_stride : Z;
  attrib_divisor : Z;
  attrib_enabled : bool
}.

(** OpenGL's initial attribute state. *)
Definition attrib_unset : Attrib := mkAttrib 0 4 0 0 false.

Record Vao := mkVao {
  vao_attribs : gmap Z Attrib;
  vao_elements : Z
}.

Definition vao_empty : Vao := mkVao ∅ 0.

Record Pipeline := mkPipeline {
  pl_array_buffer : Z;
  pl_vertex_array : Z;
  pl_vaos : gmap Z Vao;
  pl_buffers : gmap Z payload;
  pl_program : Z;
  pl_programs : gset Z
}.

Definition pipeline_initial : Pipeline := mkPipeline 0 0 ∅ ∅ 0 ∅.

(** The vertex array that is bound, and one of its attributes. *)
Definition the_vao (s : Pipeline) : Vao :=
  default vao_empty (pl_vaos s !! pl_vertex_array s).
Definition the_attrib (v : Vao) (i : Z) : Attrib :=
  default attrib_unset (vao_attribs v !! i).

Definition set_vao (v : Vao) (s : Pipeline) : Pipeline :=
  mkPipeline (pl_array_buffer s) (pl_vertex_array s)
             (<[pl_vertex_array s := v]> (pl_vaos s))
             (pl_buffers s) (pl_program s) (pl_programs s).

Definition set_attrib (i : Z) (a : Attrib) (s : Pipeline) : Pipeline :=
  set_vao (mkVao (<[i := a]> (vao_attribs (the_vao s))) (vao_elements (the_vao s))) s.

(** The buffer a target names. *)
Definition bound_to (s : Pipeline) (target : buffer_target) : Z :=
  match target with
  | GL_ARRAY_BUFFER => pl_array_buffer s
  | GL_ELEMENT_ARRAY_BUFFER => vao_elements (the_vao s)
  end.

Definition set_buffer (target : buffer_target) (d : payload) (s : Pipeline) : Pipeline :=
  mkPipeline (pl_array_buffer s) (pl_vertex_array s) (pl_vaos s)
             (<[bound_to s target := d]> (pl_buffers s))
             (pl_program s) (pl_programs s).

(** What one call does to the pipeline state. *)
Definition pipeline_step (s : Pipeline) (c : Call.t) : Pipeline :=
  match c with
  | Call.glCreateProgram p =>
      mkPipeline (pl_array_buffer s) (pl_vertex_array s) (pl_vaos s) (pl_buffers s)
                 (pl_program s) ({[p]} ∪ pl_programs s)
  | Call.glDeleteProgram p =>
      mkPipeline (pl_array_buffer s) (pl_vertex_array s) (pl_vaos s) (pl_buffers s)
                 (pl_program s) (pl_programs s ∖ {[p]})
  | Call.glUseProgram p =>
      mkPipeline (pl_array_buffer s) (pl_vertex_array s) (pl_vaos s) (pl_buffers s)
                 p (pl_programs s)
  | Call.glBindVertexArray v =>
      mkPipeline (pl_array_buffer s) v (pl_vaos s) (pl_buffers s)
                 (pl_program s) (pl_programs s)
  | Call.glBindBuffer GL_ARRAY_BUFFER b =>
      mkPipeline b (pl_vertex_array s) (pl_vaos s) (pl_buffers s)
                 (pl_program s) (pl_programs s)
  | Call.glBindBuffer GL_ELEMENT_ARRAY_BUFFER b =>
      set_vao (mkVao (vao_attribs (the_vao s)) b) s
  | Call.glBufferData target _ d _ => set_buffer target d s
  | Call.glBufferSubData target _ _ d => set_buffer target d s
  | Call.glVertexAttribPointer i n _ _ st _ =>
      let a := the_attrib (the_vao s) i in
      set_attrib i (mkAttrib (pl_array_buffer s) n st (attrib_divisor a)
                             (attrib_enabled a)) s
  | Call.glEnableVertexAttribArray i =>
      let a := the_attrib (the_vao s) i in
      set_attrib i (mkAttrib (attrib_buffer a) (attrib_components a) (attrib_stride a)
                             (attrib_divisor a) true) s
  | Call.glVertexAttribDivisor i d =>
      let a := the_attrib (the_vao s) i in
      set_attrib i (mkAttrib (attrib_buffer a) (attrib_components a) (attrib_stride a)
                             d (attrib_enabled a)) s
  | _ => s
  end.

Definition replay (s : Pipeline) (calls : list Call.t) : Pipeline :=
  fold_left pipeline_step calls s.

(** [P] holds of every call of the trace, in the state the calls before
    it have built. *)
Fixpoint checked (P : Pipeline -> Call.t -> Prop) (s : Pipeline) (calls : list Call.t)
    : Prop :=
  match calls with
  | [] => True
  | c :: calls' => P s c /\ checked P (pipeline_step s c) calls'
  end.

(** The inputs both vertex shaders declare: [layout (location = 0..3)]. *)
Definition shader_inputs : list Z := [0; 1; 2; 3].

(** How many attribute values of [n] float components an array holds. *)
Definition attribute_values (n : Z) (p : payload) : option Z :=
  match p with
  | Floats l => if 0 <? n then Some (Z.of_nat (length l) / n) else None
  | Vec2s l => if n =? 2 then Some (Z.of_nat (length l)) else None
  | Vec3s l => if n =? 3 then Some (Z.of_nat (length l)) else None
  | _ => None
  end.

(** Attribute [a] is enabled, tightly packed, and its buffer holds a value
    for every vertex index fetched (divisor 0) or for every instance
    (divisor 1). *)
Definition attrib_feeds (s : Pipeline) (fetched : list Z) (instances : Z) (a : Attrib)
    : Prop :=
  attrib_enabled a = true
  /\ attrib_stride a = attrib_components a * sizeof_float
  /\ exists p n,
       pl_buffers s !! attrib_buffer a = Some p
       /\ attribute_values (attrib_components a) p = Some n
       /\ (attrib_divisor a = 0 /\ Forall (fun i => 0 <= i < n) fetched
           \/ attrib_divisor a = 1 /\ instances <= n).

(** A draw of [count] indices and [instances] instances runs a live
    program and reads inside the index buffer and inside the buffer of
    every shader input. *)
Definition draw_reads_in_bounds (s : Pipeline) (count instances : Z) : Prop :=
  pl_program s ∈ pl_programs s
  /\ exists idx,
       pl_buffers s !! vao_elements (the_vao s) = Some (UInts idx)
       /\ 0 <= count <= Z.of_nat (length idx)
       /\ Forall (fun i => attrib_feeds s (take (Z.to_nat count) idx) instances
                                        (the_attrib (the_vao s) i))
                 shader_inputs.

Definition draw_in_bounds (s : Pipeline) (c : Call.t) : Prop :=
  match c with
  | Call.glDrawElementsInstanced _ count _ first instances =>
      first = 0 /\ draw_reads_in_bounds s count instances
  | _ => True
  end.

(** The size in bytes of an array handed to OpenGL. *)
Definition payload_bytes (p : payload) : Z :=
  match p with
  | Floats l => Z.of_nat (length l) * sizeof_float
  | UInts l => Z.of_nat (length l) * sizeof_unsigned_int
  | Vec2s l => Z.of_nat (length l) * (2 * sizeof_float)
  | Vec3s l => Z.of_nat (length l) * (3 * sizeof_float)
  | Ortho _ _ _ _ _ _ => 16 * sizeof_float
  end.

(** An upload passes the size of the array it passes; a partial update
    stays inside the storage the buffer has. *)
Definition upload_fits (s : Pipeline) (c : Call.t) : Prop :=
  match c with
  | Call.glBufferData _ size d _ => size = payload_bytes d
  | Call.glBufferSubData target first size d =>
      0 <= first /\ size = payload_bytes d
      /\ exists old, pl_buffers s !! bound_to s target = Some old
                     /\ first + size <= payload_bytes old
  | _ => True
  end.

Definition is_draw (c : Call.t) : bool :=
  match c with Call.glDrawElementsInstanced _ _ _ _ _ => true | _ => false end.

(** The vertex array start-up builds. *)
Definition quad_vao : Vao :=
  mkVao (<[3 := mkAttrib 5 3 12 1 true]>
         (<[2 := mkAttrib 4 3 12 1 true]>
          (<[1 := mkAttrib 3 2 8 1 true]>
           (<[0 := mkAttrib 1 2 8 0 true]> ∅))))
        2.

(** The state between two frames: no vertex array bound, vertex array 1
    set up as [quad_vao], the five buffers filled, both programs live. *)
Definition pipeline_ready (s : Pipeline) : Prop :=
  pl_vertex_array s = 0
  /\ pl_vaos s !! 1 = Some quad_vao
  /\ pl_buffers s !! 1 = Some (Floats vertices)
  /\ pl_buffers s !! 2 = Some (UInts indices)
  /\ (exists A, pl_buffers s !! 3 = Some (Vec2s A) /\ length A = instances_index)
  /\ (exists C, pl_buffers s !! 4 = Some (Vec3s C) /\ length C = instances_index)
  /\ (exists M, pl_buffers s !! 5 = Some (Vec3s M) /\ length M = instances_index)
  /\ 3 ∈ pl_programs s /\ 6 ∈ pl_programs s.

(** Both checks at once. *)
Definition call_safe (s : Pipeline) (c : Call.t) : Prop :=
  draw_in_bounds s c /\ upload_fits s c.

(** The pipeline after start-up. *)
Definition init_pipeline (env : Env) : Pipeline :=
  mkPipeline 5 0 (<[1 := quad_vao]> ∅)
             (<[5 := Vec3s init_models]>
              (<[4 := Vec3s (init_colors env)]>
               (<[3 := Vec2s (init_instances env)]>
                (<[2 := UInts indices]>
                 (<[1 := Floats vertices]> ∅)))))
             6 ({[6]} ∪ ({[3]} ∪ ∅)).

(** *** The clock *)

(** The value of a finite binary64 float, in units of [2 ^ -1074]. *)
Definition value64 (x : double) : Z := Zv F64.prec F64.emax x.

(** 6.0 as a [double]: a frame time safely below [two_pi] seconds. *)
Definition six_seconds : double := S754_finite false 6755399441055744 (-50).

(** A clock reading is a finite number. *)
Definition reading (t : double) : bool :=
  valid_binary F64.prec F64.emax t && is_finite t.

(** From the reading [last] on, every reading of [frames] is a finite
    number, not before the previous one and at most 6 seconds after it. *)
Fixpoint steady_clock (last : double) (frames : list Frame) : bool :=
  match frames with
  | [] => true
  | f :: frames' =>
      reading (frame_time f)
      && (value64 last <=? value64 (frame_time f))
      && (value64 (frame_time f) <=? value64 last + value64 six_seconds)
      && steady_clock (frame_time f) frames'
  end.

(** [4.0f * glm::pi<float>()]: two turns. *)
Definition four_pi : float := F32.mul (F32.of_int 4) glm_pi.

(** *** Ranges whose width is computed exactly *)

Definition exact_range (lower upper : float) : bool :=
  F32.valid lower && F32.valid upper
  && F32.leb lower upper
  && is_finite (F32.sub upper lower)
  && (value32 (F32.sub upper lower) =? value32 upper - value32 lower).

(** A steady run: half a second per frame. *)
Definition half_second_frames : list Frame :=
  [mkFrame (S754_finite false 4503599627370496 (-53)) [];
   mkFrame (S754_finite false 4503599627370496 (-52)) []].

(** *** Uniforms against the shader sources *)













(** *** What the render loop leaves alone *)

(** From [w] to [w'] no buffer other than [iModelVBO] changed, no object
    name was handed out, the live programs and the two program handles
    are the same, nothing was printed and [rand] was not called. *)
Definition loop_keeps (l : Locals) (w w' : World) : Prop :=
  (forall k, k <> iModelVBO l -> buffer_store (gl w') !! k = buffer_store (gl w) !! k)
  /\ circleShader (globals w') = circleShader (globals w)
  /\ rectangleShader (globals w') = rectangleShader (globals w)
  /\ live_programs (gl w') = live_programs (gl w)
  /\ next_object (gl w') = next_object (gl w)
  /\ next_buffer (gl w') = next_buffer (gl w)
  /\ next_vertex_array (gl w') = next_vertex_array (gl w)
  /\ stdout w' = stdout w
  /\ rand_calls w' = rand_calls w.

(** The buffer [iModelVBO] holds the array [instance_models]. *)
Definition models_in_sync (l : Locals) (w : World) : Prop :=
  buffer_store (gl w) !! iModelVBO l = Some (Vec3s (instance_models l)).

(** *** Failures of one [compileShader] call *)

Definition is_log_query (c : Call.t) : bool :=
  match c with
  | Call.glGetShaderInfoLog _ _ | Call.glGetProgramInfoLog _ _ => true
  | _ => false
  end.

(** How many of the three stages report status 0, when the first fresh
    object name is [n]. *)
Definition failures (env : Env) (n : Z) : nat :=
  Nat.add (Nat.add (if compile_status env n =? 0 then 1%nat else 0%nat)
                   (if compile_status env (n + 1) =? 0 then 1%nat else 0%nat))
          (if link_status env (n + 2) =? 0 then 1%nat else 0%nat).

(** * Proofs *)

(** ** Running the monad symbolically *)

Ltac mred :=
  cbv [mbind mret M_bind M_ret emit get_gl put_gl get_globals put_globals cout
       rand rndFloat
       glCreateShader glCreateProgram glShaderSource glCompileShader
       glGetShaderiv_COMPILE_STATUS glGetShaderInfoLog glAttachShader glLinkProgram
       glGetProgramiv_LINK_STATUS glGetProgramInfoLog glDeleteShader
       glGenVertexArrays glGenBuffers glBindVertexArray glBindBuffer glBufferData
       glBufferSubData glVertexAttribPointer glEnableVertexAttribArray
       glVertexAttribDivisor glPolygonMode glUseProgram glGetUniformLocation
       glUniformMatrix4fv glUniform2f glClear glDrawElementsInstanced
       set_WIREFRAME_ENABLED set_activeShader store bound_buffer getDeltaTima
       setupBuffers createEBO createVBO glfwPollEvents
       data size usage index attr_size type normalized stride offset
       globals gl trace stdout rand_calls
       next_object next_buffer next_vertex_array live_programs array_buffer_binding
       element_array_buffer_binding vertex_array_binding buffer_store
       current_program gl_polygon_mode
       circleShader rectangleShader activeShader WIREFRAME_ENABLED].

Lemma for_loop_S {S} n i (body : nat -> S -> M S) s w :
  for_loop (Datatypes.S n) i body s w
  = let '(s', w') := body i s w in for_loop n (Datatypes.S i) body s' w'.
Proof. reflexivity. Qed.

(** ** [compileShader] *)

Lemma compileShader_run env vs fs w :
  compileShader env vs fs w
  = (next_object (gl w) + 2,
     mkWorld (globals w) (gl_after_compile (gl w))
             (trace w ++ compile_calls env (next_object (gl w)) vs fs)
             (stdout w ++ compile_messages env (next_object (gl w)))
             (rand_calls w)).
Proof.
  destruct w as [gb [n nb nv lp ab eb vb bs cp pm] t o rc].
  unfold compileShader, compile_calls, compile_messages, gl_after_compile,
    vertex_message, fragment_message, link_message, shader_log_call, program_log_call.
  mred.
  destruct (compile_status env n =? 0); mred;
  (destruct (compile_status env (n + 1) =? 0); mred;
   replace (n + 1 + 1) with (n + 2) by lia;
   (destruct (link_status env (n + 2) =? 0); mred;
    replace (n + 2 + 1) with (n + 3) by lia;
    rewrite <- ?app_assoc; cbn [app]; rewrite ?app_nil_r; reflexivity)).
Qed.

(** ** The key callback *)

Lemma keyCallback_run key sc action md w :
  keyCallback key sc action md w = (tt, key_step key action w).
Proof.
  destruct w as [[c r a wf] [n nb nv lp ab eb vb bs cp pm] t o rc].
  unfold keyCallback, key_step, toggle_wireframe, swap_shader. mred.
  destruct ((key =? GLFW_KEY_SPACE) && (action =? GLFW_PRESS));
    destruct ((key =? GLFW_KEY_T) && (action =? GLFW_PRESS));
    mred; try destruct wf; mred; try destruct (a =? r); reflexivity.
Qed.

Lemma key_frame_refl w : key_frame w w.
Proof.
  repeat split. exists []. split; [symmetry; apply app_nil_r | constructor].
Qed.

Lemma key_frame_trans w1 w2 w3 : key_frame w1 w2 -> key_frame w2 w3 -> key_frame w1 w3.
Proof.
  intros (A1 & A2 & A3 & A4 & A5 & A6 & A7 & A8 & A9 & A10 & c1 & A11 & A12)
         (B1 & B2 & B3 & B4 & B5 & B6 & B7 & B8 & B9 & B10 & c2 & B11 & B12).
  repeat split; try congruence.
  exists (c1 ++ c2). split.
  - rewrite B11, A11, app_assoc. reflexivity.
  - apply Forall_app; split; assumption.
Qed.

Lemma key_step_frame key action w : key_frame w (key_step key action w).
Proof.
  unfold key_step, toggle_wireframe, swap_shader.
  destruct ((key =? GLFW_KEY_SPACE) && (action =? GLFW_PRESS));
    destruct ((key =? GLFW_KEY_T) && (action =? GLFW_PRESS));
    repeat split; cbn [trace];
    first [ exists []; split; [symmetry; apply app_nil_r | constructor]
          | eexists; split; [reflexivity | repeat constructor] ].
Qed.

Lemma key_step_invariant key action w :
  shader_invariant w -> shader_invariant (key_step key action w).
Proof.
  unfold shader_invariant, key_step, toggle_wireframe, swap_shader.
  intros (Hact & Hne & Hc & Hr).
  destruct ((key =? GLFW_KEY_SPACE) && (action =? GLFW_PRESS));
    destruct ((key =? GLFW_KEY_T) && (action =? GLFW_PRESS));
    cbn [globals gl circleShader rectangleShader activeShader live_programs];
    repeat split; try assumption;
    destruct (activeShader (globals w) =? rectangleShader (globals w)); auto.
Qed.

Lemma dispatch_cons e events w :
  dispatch (e :: events) w = dispatch events (key_step (key e) (action e) w).
Proof.
  cbn [dispatch]. mred. rewrite keyCallback_run. reflexivity.
Qed.

Lemma dispatch_frame events : forall w, key_frame w (snd (dispatch events w)).
Proof.
  induction events as [|e events IH]; intros w.
  - apply key_frame_refl.
  - rewrite dispatch_cons.
    eapply key_frame_trans; [apply key_step_frame | apply IH].
Qed.

Lemma dispatch_invariant events : forall w,
  shader_invariant w -> shader_invariant (snd (dispatch events w)).
Proof.
  induction events as [|e events IH]; intros w Hw.
  - exact Hw.
  - rewrite dispatch_cons. apply IH, key_step_invariant, Hw.
Qed.


(** ** The two [for] loops *)

Lemma set_rotation_loop a n : forall i ms w,
  exists ms', for_loop n i (set_rotation a) ms w = (ms', w)
  /\ length ms' = length ms
  /\ forall j, ms' !! j
       = if decide (i <= j < i + n)%nat then vec3.set_z a <$> ms !! j else ms !! j.
Proof.
  induction n as [|n IH]; intros i ms w.
  - exists ms. split; [reflexivity|]. split; [reflexivity|].
    intros j. case_decide; [lia | reflexivity].
  - destruct (IH (S i) (alter (vec3.set_z a) i ms) w) as (ms' & Hrun & Hlen & Hl).
    exists ms'. split; [rewrite for_loop_S; exact Hrun|]. split.
    + rewrite Hlen. apply length_alter.
    + intros j. rewrite Hl. destruct (decide (i = j)) as [-> | Hne].
      * rewrite list_lookup_alter_eq. repeat case_decide; try lia. reflexivity.
      * rewrite list_lookup_alter_ne by done. repeat case_decide; try lia; reflexivity.
Qed.

Lemma rotate_models_lookup a ms j :
  rotate_models a ms !! j
  = if decide (j < instances_index)%nat then vec3.set_z a <$> ms !! j else ms !! j.
Proof.
  unfold rotate_models, eval.
  destruct (set_rotation_loop a instances_index 0 ms world_initial)
    as (ms' & -> & _ & Hl).
  cbn [fst]. rewrite Hl. repeat case_decide; try lia; reflexivity.
Qed.

Lemma rotate_models_length a ms : length (rotate_models a ms) = length ms.
Proof.
  unfold rotate_models, eval.
  destruct (set_rotation_loop a instances_index 0 ms world_initial)
    as (ms' & -> & Hlen & _).
  exact Hlen.
Qed.

Lemma rotate_models_run a ms w :
  for_loop instances_index 0 (set_rotation a) ms w = (rotate_models a ms, w).
Proof.
  destruct (set_rotation_loop a instances_index 0 ms w) as (ms' & -> & _ & Hl).
  f_equal. apply list_eq. intros j. rewrite Hl, rotate_models_lookup.
  repeat case_decide; try lia; reflexivity.
Qed.

(** When the array has [instances_index] elements the loop rewrites the
    [z] of each of them. *)
Lemma rotate_models_all a ms :
  length ms = instances_index -> rotate_models a ms = vec3.set_z a <$> ms.
Proof.
  intros Hlen. apply list_eq. intros j.
  rewrite rotate_models_lookup, list_lookup_fmap. case_decide; [reflexivity|].
  rewrite (lookup_ge_None_2 ms j) by lia. reflexivity.
Qed.

Lemma init_loop env n : forall i A C Mo w, exists A' C' Mo',
  for_loop n i (init_instance env) (A, C, Mo) w
  = ((A', C', Mo'),
     mkWorld (globals w) (gl w) (trace w) (stdout w) (rand_calls w + 5 * n)%nat)
  /\ length A' = length A /\ length C' = length C /\ length Mo' = length Mo
  /\ forall j,
      (A' !! j = if decide (i <= j < i + n /\ j < length A)%nat
                 then Some (instance_at env (rand_calls w) (j - i)) else A !! j)
      /\ (C' !! j = if decide (i <= j < i + n /\ j < length C)%nat
                    then Some (color_at env (rand_calls w) (j - i)) else C !! j)
      /\ (Mo' !! j = if decide (i <= j < i + n /\ j < length Mo)%nat
                     then Some (vec3.mk f0_05 f0_05 f0_0) else Mo !! j).
Proof.
  induction n as [|n IH]; intros i A C Mo w.
  - exists A, C, Mo. split. { destruct w; cbn. do 2 f_equal. lia. }
    repeat split; case_decide; try lia; reflexivity.
  - rewrite for_loop_S. unfold init_instance at 1. mred.
    match goal with
    | |- context [for_loop n (S i) (init_instance env) (?a, ?c, ?m) ?w'] =>
        destruct (IH (S i) a c m w') as (A' & C' & Mo' & Hrun & HlA & HlC & HlM & Hl)
    end.
    exists A', C', Mo'. rewrite Hrun. clear Hrun IH.
    destruct w as [gb g t o rc]. cbn [globals gl trace stdout rand_calls] in *.
    split. { do 2 f_equal. lia. }
    rewrite HlA, HlC, HlM, !length_insert. repeat split; try reflexivity.
    all: destruct (Hl j) as (H1 & H2 & H3);
         rewrite ?H1, ?H2, ?H3, ?length_insert; clear Hl H1 H2 H3.
    all: destruct (decide (i = j)) as [-> | Hne].
    all: repeat case_decide; try lia.
    all: rewrite ?list_lookup_insert_eq by lia;
         rewrite ?list_lookup_insert_ne by lia; try reflexivity.
    all: try (rewrite list_insert_ge by lia; reflexivity).
    all: unfold instance_at, color_at; f_equal; f_equal; f_equal; f_equal; lia.
Qed.

(** The initialisation loop of [main], from the initial world. *)
Lemma init_loop_run env w :
  rand_calls w = 0%nat ->
  for_loop instances_index 0 (init_instance env)
    (replicate instances_index (vec2.mk f0_0 f0_0),
     replicate instances_index (vec3.mk f0_0 f0_0 f0_0),
     replicate instances_index (vec3.mk f0_0 f0_0 f0_0)) w
  = ((init_instances env, init_colors env, init_models),
     mkWorld (globals w) (gl w) (trace w) (stdout w) (5 * instances_index)%nat).
Proof.
  intros Hrc.
  destruct (init_loop env instances_index 0
              (replicate instances_index (vec2.mk f0_0 f0_0))
              (replicate instances_index (vec3.mk f0_0 f0_0 f0_0))
              (replicate instances_index (vec3.mk f0_0 f0_0 f0_0)) w)
    as (A' & C' & Mo' & Hrun & HlA & HlC & HlM & Hl).
  rewrite Hrun. rewrite Hrc in *. rewrite !length_replicate in *.
  assert (A' = init_instances env) as ->.
  { apply list_eq. intros j. destruct (Hl j) as (-> & _ & _).
    unfold init_instances. rewrite list_lookup_fmap. case_decide.
    - rewrite lookup_seq_lt by lia. rewrite Nat.sub_0_r. reflexivity.
    - rewrite (lookup_ge_None_2 (replicate _ _)) by (rewrite length_replicate; lia).
      rewrite lookup_seq_ge by lia. reflexivity. }
  assert (C' = init_colors env) as ->.
  { apply list_eq. intros j. destruct (Hl j) as (_ & -> & _).
    unfold init_colors. rewrite list_lookup_fmap. case_decide.
    - rewrite lookup_seq_lt by lia. rewrite Nat.sub_0_r. reflexivity.
    - rewrite (lookup_ge_None_2 (replicate _ _)) by (rewrite length_replicate; lia).
      rewrite lookup_seq_ge by lia. reflexivity. }
  assert (Mo' = init_models) as ->.
  { apply list_eq. intros j. destruct (Hl j) as (_ & _ & ->).
    unfold init_models. case_decide.
    - symmetry. apply lookup_replicate_2. lia.
    - rewrite !(lookup_ge_None_2 (replicate _ _)) by (rewrite length_replicate; lia).
      reflexivity. }
  reflexivity.
Qed.

(** ** Start-up as a whole *)

Lemma main_init_run env :
  main_init env world_initial = (init_locals env, init_world env).
Proof.
  unfold main_init, world_initial, gl_initial. mred.
  rewrite init_loop_run by reflexivity. mred.
  rewrite compileShader_run. mred.
  rewrite compileShader_run. mred.
  unfold init_locals, init_world, init_trace, buffer_calls, uniform_calls,
    gl_after_compile, ortho_matrix.
  mred. cbn [app]. rewrite <- !app_assoc. cbn [app].
  reflexivity.
Qed.

(** ** One frame, and the loop *)

Lemma render_frame_run l f w :
  render_frame l f w
  = (frame_locals l f, snd (dispatch (frame_keys f) (frame_world l f w))).
Proof.
  destruct w as [gb [n nb nv lp ab eb vb bs cp pm] t o rc].
  unfold render_frame. mred.
  rewrite rotate_models_run. mred.
  unfold frame_world, frame_calls, frame_locals, next_angle.
  cbn [globals gl trace stdout rand_calls next_object next_buffer next_vertex_array
       live_programs array_buffer_binding element_array_buffer_binding
       vertex_array_binding buffer_store current_program gl_polygon_mode].
  rewrite <- !app_assoc. cbn [app].
  destruct (dispatch (frame_keys f) _) as [[] w']. reflexivity.
Qed.

(** The world and locals after the loop has run over [frames]. *)
Lemma render_loop_cons l f frames w :
  render_loop l (f :: frames) w
  = render_loop (frame_locals l f) frames
      (snd (dispatch (frame_keys f)
              (frame_world l f (snd (emit (Call.glfwWindowShouldClose false) w))))).
Proof.
  cbn [render_loop]. unfold mbind at 1 2, M_bind.
  cbn [emit]. rewrite render_frame_run. reflexivity.
Qed.

Lemma render_loop_invariant frames : forall l w,
  shader_invariant w -> shader_invariant (snd (render_loop l frames w)).
Proof.
  induction frames as [|f frames IH]; intros l w Hw.
  - exact Hw.
  - rewrite render_loop_cons. apply IH, dispatch_invariant. exact Hw.
Qed.

Lemma render_loop_arrays frames : forall l w,
  let l' := fst (render_loop l frames w) in
  instances l' = instances l
  /\ instance_colors l' = instance_colors l
  /\ length (instance_models l') = length (instance_models l)
  /\ vec3.x <$> instance_models l' = vec3.x <$> instance_models l
  /\ vec3.y <$> instance_models l' = vec3.y <$> instance_models l.
Proof.
  induction frames as [|f frames IH]; intros l w.
  - repeat split.
  - cbv zeta. rewrite render_loop_cons.
    destruct (IH (frame_locals l f)
                (snd (dispatch (frame_keys f)
                   (frame_world l f (snd (emit (Call.glfwWindowShouldClose false) w))))))
      as (H1 & H2 & H3 & H4 & H5).
    rewrite H1, H2, H3, H4, H5. cbn [frame_locals instances instance_colors instance_models].
    split; [reflexivity|]. split; [reflexivity|].
    split; [apply rotate_models_length|].
    split; apply list_eq; intros j; rewrite !list_lookup_fmap, rotate_models_lookup;
      case_decide; try reflexivity; destruct (instance_models l !! j); reflexivity.
Qed.

(** ** Traces: what is created and deleted, and when *)






Lemma main_run env frames :
  main env frames world_initial
  = (0, snd (emit Call.glfwTerminate
               (snd (render_loop (init_locals env) frames (init_world env))))).
Proof.
  unfold main. unfold mbind at 1, M_bind. rewrite main_init_run.
  unfold mbind, M_bind.
  destruct (render_loop (init_locals env) frames (init_world env)) as [l w].
  reflexivity.
Qed.



(** ** The claims on the input handler and the shader programs *)

(** C3: a press of T swaps the active shader program: from the rectangle
    program to the circle program, from anything else to the rectangle
    program; the two compiled programs stay what they are.  Starting from
    either of the two programs, two presses of T give back the program that
    was active before. *)
Theorem key_T_swaps_shader (w : World) (scancode mods : Z) :
  let w' := exec (keyCallback GLFW_KEY_T scancode GLFW_PRESS mods) w in
  activeShader (globals w')
  = (if activeShader (globals w) =? rectangleShader (globals w)
     then circleShader (globals w) else rectangleShader (globals w))
  /\ circleShader (globals w') = circleShader (globals w)
  /\ rectangleShader (globals w') = rectangleShader (globals w)
  /\ forall scancode' mods' : Z,
       activeShader (globals w) = circleShader (globals w)
       \/ activeShader (globals w) = rectangleShader (globals w) ->
       activeShader
         (globals (exec (keyCallback GLFW_KEY_T scancode' GLFW_PRESS mods') w'))
       = activeShader (globals w).
Proof.
  unfold exec. rewrite keyCallback_run. cbn [snd].
  destruct w as [[c r a wf] d t o rc].
  split; [reflexivity|]. split; [reflexivity|]. split; [reflexivity|].
  intros sc' md' Hact. rewrite keyCallback_run. cbn [snd].
  unfold key_step, swap_shader.
  cbn [andb Z.eqb GLFW_KEY_T GLFW_KEY_SPACE GLFW_PRESS Pos.eqb globals
       circleShader rectangleShader activeShader] in *.
  destruct (Z.eqb_spec a r) as [-> | Hne].
  - destruct (Z.eqb_spec c r) as [-> | Hcr]; reflexivity.
  - rewrite Z.eqb_refl. destruct Hact as [-> | ->]; [reflexivity | contradiction].
Qed.

Lemma key_T_swaps_shader_witness :
  activeShader
    (globals
       (exec (keyCallback GLFW_KEY_T 20 GLFW_PRESS 0)
          (exec (keyCallback GLFW_KEY_T 20 GLFW_PRESS 0) (init_world sample_env))))
  = 6.
Proof.
  apply (proj2 (proj2 (proj2
           (key_T_swaps_shader (init_world sample_env) 20 0))) 20 0).
  right. reflexivity.
Defined.

(** C4: a press of the space key negates [WIREFRAME_ENABLED] and sets the
    polygon mode to [GL_LINE] exactly when the flag becomes true and to
    [GL_FILL] exactly when it becomes false; an event with another key or
    another action changes neither the flag nor the polygon mode (and makes
    no [glPolygonMode] call).  Two presses of space restore the flag. *)
Theorem key_space_toggles_wireframe (w : World) (scancode mods : Z) :
  let w' := exec (keyCallback GLFW_KEY_SPACE scancode GLFW_PRESS mods) w in
  WIREFRAME_ENABLED (globals w') = negb (WIREFRAME_ENABLED (globals w))
  /\ (gl_polygon_mode (gl w') = GL_LINE <-> WIREFRAME_ENABLED (globals w') = true)
  /\ (gl_polygon_mode (gl w') = GL_FILL <-> WIREFRAME_ENABLED (globals w') = false)
  /\ trace w' = trace w ++ [Call.glPolygonMode GL_FRONT_AND_BACK (gl_polygon_mode (gl w'))]
  /\ (forall scancode' mods' : Z,
        WIREFRAME_ENABLED
          (globals (exec (keyCallback GLFW_KEY_SPACE scancode' GLFW_PRESS mods') w'))
        = WIREFRAME_ENABLED (globals w))
  /\ forall key action scancode' mods' : Z,
       ~ (key = GLFW_KEY_SPACE /\ action = GLFW_PRESS) ->
       let w'' := exec (keyCallback key scancode' action mods') w in
       WIREFRAME_ENABLED (globals w'') = WIREFRAME_ENABLED (globals w)
       /\ gl_polygon_mode (gl w'') = gl_polygon_mode (gl w)
       /\ trace w'' = trace w.
Proof.
  unfold exec. rewrite keyCallback_run. cbn [snd].
  destruct w as [[c r a wf] [n nb nv lp ab eb vb bs cp pm] t o rc].
  unfold key_step, toggle_wireframe, swap_shader.
  cbn [andb Z.eqb GLFW_KEY_T GLFW_KEY_SPACE GLFW_PRESS Pos.eqb globals gl trace
       WIREFRAME_ENABLED gl_polygon_mode].
  split; [reflexivity|].
  split; [destruct wf; cbn; split; congruence|].
  split; [destruct wf; cbn; split; congruence|].
  split; [reflexivity|].
  split.
  - intros sc' md'. rewrite keyCallback_run. cbn [snd].
    unfold key_step, toggle_wireframe, swap_shader.
    cbn [andb Z.eqb GLFW_KEY_T GLFW_KEY_SPACE GLFW_PRESS Pos.eqb globals gl
         WIREFRAME_ENABLED].
    apply negb_involutive.
  - intros key action sc' md' Hother. cbv zeta. rewrite keyCallback_run. cbn [snd].
    unfold key_step, toggle_wireframe, swap_shader.
    assert (Hb : (key =? GLFW_KEY_SPACE) && (action =? GLFW_PRESS) = false).
    { apply andb_false_iff.
      destruct (Z.eqb_spec key GLFW_KEY_SPACE); [right | left; reflexivity].
      destruct (Z.eqb_spec action GLFW_PRESS); [exfalso; auto | reflexivity]. }
    rewrite Hb.
    destruct ((key =? GLFW_KEY_T) && (action =? GLFW_PRESS)); repeat split.
Qed.

Lemma key_space_toggles_wireframe_witness :
  let w'' := exec (keyCallback GLFW_KEY_T 20 GLFW_PRESS 0) (init_world sample_env) in
  WIREFRAME_ENABLED (globals w'') = WIREFRAME_ENABLED (globals (init_world sample_env))
  /\ gl_polygon_mode (gl w'') = gl_polygon_mode (gl (init_world sample_env))
  /\ trace w'' = trace (init_world sample_env).
Proof.
  apply (proj2 (proj2 (proj2 (proj2 (proj2
           (key_space_toggles_wireframe (init_world sample_env) 57 0)))))
           GLFW_KEY_T GLFW_PRESS 20 0).
  intros [Hk _]. discriminate Hk.
Defined.

Lemma init_world_invariant env : shader_invariant (init_world env).
Proof.
  unfold shader_invariant, init_world.
  cbn [globals gl circleShader rectangleShader activeShader live_programs].
  split; [right; reflexivity|]. split; [discriminate|]. split; set_solver.
Qed.

(** C5: after start-up the active shader is one of [circleShader] and
    [rectangleShader], these are two different live program objects (so
    exactly one of them is active), and every run of the key callback and
    every iteration of the render loop keeps it so; hence it holds after
    any number of iterations. *)
Theorem active_shader_invariant :
  (forall env, shader_invariant (exec (main_init env) world_initial))
  /\ (forall w key scancode action mods,
        shader_invariant w ->
        shader_invariant (exec (keyCallback key scancode action mods) w))
  /\ (forall l f w,
        shader_invariant w -> shader_invariant (exec (render_frame l f) w))
  /\ (forall env frames,
        shader_invariant
          (exec (l ← main_init env; render_loop l frames) world_initial)).
Proof.
  split; [|split; [|split]].
  - intros env. unfold exec. rewrite main_init_run. apply init_world_invariant.
  - intros w key sc action md Hw. unfold exec. rewrite keyCallback_run.
    apply key_step_invariant, Hw.
  - intros l f w Hw. unfold exec. rewrite render_frame_run.
    apply dispatch_invariant. exact Hw.
  - intros env frames. unfold exec, mbind, M_bind. rewrite main_init_run.
    apply render_loop_invariant, init_world_invariant.
Qed.

Lemma active_shader_invariant_witness :
  shader_invariant
    (exec (render_frame (init_locals sample_env) sample_frame) (init_world sample_env)).
Proof.
  apply (proj1 (proj2 (proj2 active_shader_invariant))).
  unfold shader_invariant, init_world.
  cbn [globals gl circleShader rectangleShader activeShader live_programs].
  split; [right; reflexivity|]. split; [discriminate|]. split; set_solver.
Defined.



(** ** The claims on the render loop and the resources *)


(** C1: every iteration of the render loop, in this order: reads the clock
    and advances the angle by [rotationSpeed] (1.0f) times the time since
    the previous reading, subtracting [two_pi] once if the sum is at least
    [two_pi]; writes that one angle into the z of all 1000 model transforms
    and uploads them to the transform buffer; clears the framebuffer; and
    makes one instanced draw call, 6 indices and 1000 instances, with the
    shader program active at that moment.  The calls after
    [glfwPollEvents] are the [glPolygonMode] calls of key callbacks. *)
Theorem render_frame_steps (l : Locals) (f : Frame) (w : World) :
  length (instance_models l) = instances_index ->
  let l' := eval (render_frame l f) w in
  let w' := exec (render_frame l f) w in
  let delta := F64.sub (frame_time f) (lastFrameTime l) in
  let sum := F32.add (rotationAngle l) (F32.mul rotationSpeed (F32.of_double delta)) in
  rotationSpeed = S754_finite false 8388608 (-23)
  /\ rotationAngle l' = (if F32.leb two_pi sum then F32.sub sum two_pi else sum)
  /\ lastFrameTime l' = frame_time f
  /\ instance_models l' = vec3.set_z (rotationAngle l') <$> instance_models l
  /\ length (instance_models l') = 1000%nat
  /\ (forall i v, instance_models l' !! i = Some v -> vec3.z v = rotationAngle l')
  /\ (exists key_calls,
        trace w'
        = trace w
          ++ [Call.glfwGetTime (frame_time f);
              Call.glBindBuffer GL_ARRAY_BUFFER (iModelVBO l);
              Call.glBufferSubData GL_ARRAY_BUFFER 0 12000 (Vec3s (instance_models l'));
              Call.glBindBuffer GL_ARRAY_BUFFER 0;
              Call.glClear GL_COLOR_BUFFER_BIT;
              Call.glUseProgram (activeShader (globals w));
              Call.glBindVertexArray (VAO l);
              Call.glDrawElementsInstanced GL_TRIANGLES 6 GL_UNSIGNED_INT 0 1000;
              Call.glBindVertexArray 0;
              Call.glfwSwapBuffers;
              Call.glfwPollEvents]
          ++ key_calls
        /\ Forall is_glPolygonMode key_calls)
  /\ buffer_store (gl w') !! iModelVBO l = Some (Vec3s (instance_models l')).
Proof.
  intros Hlen. unfold eval, exec. rewrite render_frame_run. cbn [fst snd].
  destruct (dispatch_frame (frame_keys f) (frame_world l f w))
    as (_ & _ & _ & _ & _ & _ & Hbs & _ & _ & _ & keys & Hk & Hpm).
  cbn [frame_locals rotationAngle lastFrameTime instance_models].
  rewrite (rotate_models_all _ _ Hlen).
  split; [reflexivity|]. split; [reflexivity|]. split; [reflexivity|].
  split; [reflexivity|].
  split; [rewrite length_fmap; exact Hlen|].
  split.
  { intros i v Hv. rewrite list_lookup_fmap in Hv.
    destruct (instance_models l !! i) as [v0|]; [|discriminate].
    injection Hv as <-. reflexivity. }
  split.
  { exists keys. split; [|exact Hpm].
    rewrite Hk. cbn [frame_world trace]. rewrite (rotate_models_all _ _ Hlen).
    rewrite <- app_assoc. reflexivity. }
  rewrite Hbs. cbn [frame_world gl buffer_store].
  rewrite (rotate_models_all _ _ Hlen). apply lookup_insert_eq.
Qed.

Lemma render_frame_steps_witness :
  rotationAngle (eval (render_frame (init_locals sample_env) sample_frame)
                      (init_world sample_env))
  = S754_finite false 8388608 (-26).
Proof.
  refine (eq_trans
    (proj1 (proj2 (render_frame_steps (init_locals sample_env) sample_frame
                     (init_world sample_env) _))) _).
  - vm_compute. reflexivity.
  - vm_compute. reflexivity.
Defined.





(** * Binary floating-point arithmetic

    Bounds on the results of [SpecFloat]'s rounding, addition,
    multiplication and division, for any format. *)


Lemma digits2_pos_size p : digits2_pos p = Pos.size p.
Proof. induction p as [p IH|p IH|]; cbn; rewrite ?IH; reflexivity. Qed.

Lemma Zdigits2_log2 m : 0 < m -> Zdigits2 m = Z.log2 m + 1.
Proof.
  destruct m as [|p|p]; try lia. intros _. cbn [Zdigits2].
  rewrite digits2_pos_size. destruct p; cbn; lia.
Qed.

Lemma Zdigits2_bounds m :
  0 < m -> 2 ^ (Zdigits2 m - 1) <= m < 2 ^ Zdigits2 m.
Proof.
  intros Hm. rewrite (Zdigits2_log2 m Hm).
  replace (Z.log2 m + 1 - 1) with (Z.log2 m) by lia.
  replace (Z.log2 m + 1) with (Z.succ (Z.log2 m)) by lia.
  apply Z.log2_spec, Hm.
Qed.

Lemma Zdigits2_unique m d : 2 ^ (d - 1) <= m < 2 ^ d -> 0 < m -> Zdigits2 m = d.
Proof.
  intros H Hm. rewrite (Zdigits2_log2 m Hm).
  assert (0 <= d - 1).
  { destruct (Z.le_gt_cases 0 (d - 1)); [assumption|].
    assert (d <= 0) by lia. 
    assert (2 ^ d <= 2 ^ 0) by (apply Z.pow_le_mono_r; lia). lia. }
  rewrite (Z.log2_unique m (d - 1)); try lia.
  replace (Z.succ (d - 1)) with d by lia. exact H.
Qed.

Lemma Zdigits2_pos m : 0 < m -> 0 < Zdigits2 m.
Proof. destruct m; cbn; lia. Qed.

Lemma Zdigits2_le m n : 0 < m -> m <= n -> Zdigits2 m <= Zdigits2 n.
Proof.
  intros Hm Hmn. rewrite !Zdigits2_log2 by lia.
  pose proof (Z.log2_le_mono m n Hmn). lia.
Qed.

Lemma Zdigits2_shift m k : 0 < m -> 0 <= k -> Zdigits2 (m * 2 ^ k) = Zdigits2 m + k.
Proof.
  intros Hm Hk. apply Zdigits2_unique; [|nia].
  pose proof (Zdigits2_bounds m Hm) as [Hlo Hhi].
  pose proof (Zdigits2_pos m Hm).
  replace (Zdigits2 m + k - 1) with (Zdigits2 m - 1 + k) by lia.
  rewrite !Z.pow_add_r by lia. split; nia.
Qed.

(** A larger value has at least as many binary digits before the point. *)
Lemma value_le_digits m1 e1 m2 e2 b :
  0 < m1 -> 0 < m2 -> b <= e1 -> b <= e2 ->
  m1 * 2 ^ (e1 - b) <= m2 * 2 ^ (e2 - b) ->
  Zdigits2 m1 + e1 <= Zdigits2 m2 + e2.
Proof.
  intros H1 H2 Hb1 Hb2 Hle.
  pose proof (Zdigits2_bounds m1 H1) as [Hlo _].
  pose proof (Zdigits2_bounds m2 H2) as [_ Hhi].
  pose proof (Zdigits2_pos m1 H1). pose proof (Zdigits2_pos m2 H2).
  destruct (Z.le_gt_cases (Zdigits2 m1 + e1) (Zdigits2 m2 + e2)); [assumption|].
  exfalso.
  assert (Ha : m2 * 2 ^ (e2 - b) < 2 ^ (Zdigits2 m2) * 2 ^ (e2 - b)).
  { apply Z.mul_lt_mono_pos_r; [apply Z.pow_pos_nonneg; lia | exact Hhi]. }
  rewrite <- Z.pow_add_r in Ha by lia.
  assert (Hb : 2 ^ (Zdigits2 m2 + (e2 - b)) <= 2 ^ (Zdigits2 m1 - 1 + (e1 - b)))
    by (apply Z.pow_le_mono_r; lia).
  rewrite (Z.pow_add_r 2 (Zdigits2 m1 - 1)) in Hb by lia.
  assert (2 ^ (Zdigits2 m1 - 1) * 2 ^ (e1 - b) <= m1 * 2 ^ (e1 - b)).
  { apply Z.mul_le_mono_nonneg_r; [apply Z.pow_nonneg; lia | exact Hlo]. }
  lia.
Qed.

(** Shifting right by one bit, on a non-negative mantissa. *)
Lemma shr_1_spec m r s :
  0 <= m ->
  shr_1 (Build_shr_record m r s) = Build_shr_record (m / 2) (Z.odd m) (r || s).
Proof.
  intros Hm. rewrite <- Z.div2_div.
  destruct m as [|[p|p|]|p]; try lia; reflexivity.
Qed.

Lemma iter_pos_nat {A} (f : A -> A) p : forall x,
  SpecFloat.iter_pos f p x = Nat.iter (Pos.to_nat p) f x.
Proof.
  induction p as [p IH|p IH|]; intros x; cbn [SpecFloat.iter_pos].
  - rewrite !IH, Pos2Nat.inj_xI.
    replace (S (2 * Pos.to_nat p)) with (Pos.to_nat p + (Pos.to_nat p + 1))%nat by lia.
    rewrite !Nat.iter_add. reflexivity.
  - rewrite !IH, Pos2Nat.inj_xO.
    replace (2 * Pos.to_nat p)%nat with (Pos.to_nat p + Pos.to_nat p)%nat by lia.
    rewrite Nat.iter_add. reflexivity.
  - reflexivity.
Qed.

Lemma mod_pow2_succ m k :
  0 <= m -> 0 <= k ->
  m mod 2 ^ (k + 1) = m mod 2 ^ k + 2 ^ k * Z.b2z (Z.odd (m / 2 ^ k)).
Proof.
  intros Hm Hk. rewrite Z.pow_add_r by lia. change (2 ^ 1) with 2.
  rewrite Z.rem_mul_r by (try apply Z.pow_nonzero; lia).
  rewrite Zmod_odd. destruct (Z.odd (m / 2 ^ k)); cbn [Z.b2z]; lia.
Qed.

(** [k + 1] shifts from mantissa [m] with round and sticky bits [r], [s]. *)
Lemma shr_iter m r s k :
  0 <= m ->
  Nat.iter (S k) shr_1 (Build_shr_record m r s)
  = Build_shr_record (m / 2 ^ (Z.of_nat k + 1))
      (Z.odd (m / 2 ^ Z.of_nat k))
      (r || s || negb (m mod 2 ^ Z.of_nat k =? 0)).
Proof.
  intros Hm. induction k as [|k IH].
  - cbn [Nat.iter]. rewrite shr_1_spec by assumption.
    change (2 ^ (Z.of_nat 0 + 1)) with 2. change (2 ^ Z.of_nat 0) with 1.
    rewrite Z.div_1_r, Z.mod_1_r. cbn. rewrite orb_false_r. reflexivity.
  - change (Nat.iter (S (S k)) shr_1 ?x) with (shr_1 (Nat.iter (S k) shr_1 x)).
    rewrite IH, shr_1_spec by (apply Z.div_pos; [lia | apply Z.pow_pos_nonneg; lia]).
    rewrite Z.div_div by (try apply Z.pow_pos_nonneg; lia).
    replace (Z.of_nat (S k)) with (Z.of_nat k + 1) by lia.
    replace (2 ^ (Z.of_nat k + 1) * 2) with (2 ^ (Z.of_nat k + 1 + 1))
      by (rewrite (Z.pow_add_r 2 (Z.of_nat k + 1) 1) by lia; reflexivity).
    f_equal.
    rewrite (mod_pow2_succ m (Z.of_nat k)) by lia.
    pose proof (Z.mod_pos_bound m (2 ^ Z.of_nat k) ltac:(apply Z.pow_pos_nonneg; lia)).
    pose proof (Z.pow_pos_nonneg 2 (Z.of_nat k) ltac:(lia) ltac:(lia)).
    destruct (Z.odd (m / 2 ^ Z.of_nat k)); cbn [Z.b2z];
      destruct (Z.eqb_spec (m mod 2 ^ Z.of_nat k) 0);
      destruct r, s; cbn; try reflexivity;
      match goal with |- context [?a =? 0] => destruct (Z.eqb_spec a 0) end;
      try reflexivity; nia.
Qed.

Lemma shr_spec m r s e n :
  0 <= m -> 0 < n ->
  shr (Build_shr_record m r s) e n
  = (Build_shr_record (m / 2 ^ n) (Z.odd (m / 2 ^ (n - 1)))
       (r || s || negb (m mod 2 ^ (n - 1) =? 0)), e + n).
Proof.
  intros Hm Hn. destruct n as [|p|p]; try lia. cbn [shr].
  rewrite iter_pos_nat.
  destruct (Pos2Nat.is_succ p) as [k Hk]. rewrite Hk, shr_iter by assumption.
  assert (Z.pos p = Z.of_nat k + 1) as -> by lia.
  replace (Z.of_nat k + 1 - 1) with (Z.of_nat k) by lia. reflexivity.
Qed.

Lemma shr_nop mrs e n : n <= 0 -> shr mrs e n = (mrs, e).
Proof. intros Hn. destruct n; try reflexivity; lia. Qed.

Lemma shr_faithful m l e k :
  0 <= m -> 0 <= k ->
  let res := shr (shr_record_of_loc m l) e k in
  snd res = e + k
  /\ faithful m l k
       (round_nearest_even (shr_m (fst res)) (loc_of_shr_record (fst res))).
Proof.
  intros Hm Hk. destruct (Z.eq_dec k 0) as [-> | Hk0].
  - cbv zeta. rewrite shr_nop by lia. cbn [fst snd]. split; [lia|].
    unfold faithful. change (2 ^ 0) with 1. rewrite Z.div_1_r.
    destruct l as [|[]]; cbn; try (left; reflexivity).
    + destruct (Z.even m); [left | right; split; [|right]]; reflexivity.
    + right. split; [|right]; reflexivity.
  - cbv zeta.
    assert (Hrec : exists r s, shr_record_of_loc m l = Build_shr_record m r s)
      by (destruct l as [|[]]; eexists; eexists; reflexivity).
    destruct Hrec as (r0 & s0 & ->).
    rewrite shr_spec by lia. cbn [fst snd shr_m]. split; [reflexivity|].
    cbn [loc_of_shr_record].
    pose proof (mod_pow2_succ m (k - 1) Hm ltac:(lia)) as Hmod.
    replace (k - 1 + 1) with k in Hmod by lia.
    pose proof (Z.pow_pos_nonneg 2 (k - 1) ltac:(lia) ltac:(lia)).
    pose proof (Z.mod_pos_bound m (2 ^ (k - 1)) ltac:(lia)).
    unfold faithful.
    destruct (Z.odd (m / 2 ^ (k - 1))); cbn [Z.b2z] in Hmod;
      destruct (r0 || s0 || negb (m mod 2 ^ (k - 1) =? 0)); cbn [round_nearest_even];
      try (left; reflexivity).
    + right. split; [reflexivity | left; lia].
    + destruct (Z.even (m / 2 ^ k));
        [left; reflexivity | right; split; [reflexivity | left; lia]].
Qed.


Lemma faithful_bounds m l k m' :
  0 <= m -> 0 <= k -> faithful m l k m' -> m / 2 ^ k <= m' <= m / 2 ^ k + 1.
Proof. intros _ _ [-> | [-> _]]; lia. Qed.


Lemma rne_0 m : rne m 0 = m.
Proof.
  unfold rne. change (2 ^ 0) with 1. rewrite Z.mod_1_r, Z.div_1_r. reflexivity.
Qed.

Lemma rne_bounds m k : m / 2 ^ k <= rne m k <= m / 2 ^ k + 1.
Proof.
  unfold rne. destruct (_ <? _); [lia|]. destruct (_ <? _); [lia|].
  destruct (Z.even _); lia.
Qed.

Lemma rne_mono m1 m2 k : 0 <= k -> m1 <= m2 -> rne m1 k <= rne m2 k.
Proof.
  intros Hk Hle.
  assert (Hp : 0 < 2 ^ k) by (apply Z.pow_pos_nonneg; lia).
  pose proof (Z.div_le_mono m1 m2 (2 ^ k) Hp Hle) as Hq.
  destruct (Z.eq_dec (m1 / 2 ^ k) (m2 / 2 ^ k)) as [E|N].
  - pose proof (Z.div_mod m1 (2 ^ k) ltac:(lia)) as D1.
    pose proof (Z.div_mod m2 (2 ^ k) ltac:(lia)) as D2.
    assert (Hr : m1 mod 2 ^ k <= m2 mod 2 ^ k) by (rewrite E in D1; nia).
    unfold rne. rewrite E.
    destruct (Z.ltb_spec (2 * (m1 mod 2 ^ k)) (2 ^ k)),
             (Z.ltb_spec (2 * (m2 mod 2 ^ k)) (2 ^ k)),
             (Z.ltb_spec (2 ^ k) (2 * (m1 mod 2 ^ k))),
             (Z.ltb_spec (2 ^ k) (2 * (m2 mod 2 ^ k)));
      try lia; destruct (Z.even (m2 / 2 ^ k)); lia.
  - pose proof (rne_bounds m1 k). pose proof (rne_bounds m2 k). lia.
Qed.

(** What [shr] followed by [round_nearest_even] computes on an exact
    mantissa. *)
Lemma shr_rne m e k :
  0 <= m -> 0 <= k ->
  let res := shr (shr_record_of_loc m loc_Exact) e k in
  round_nearest_even (shr_m (fst res)) (loc_of_shr_record (fst res)) = rne m k.
Proof.
  intros Hm Hk. destruct (Z.eq_dec k 0) as [-> | Hk0].
  - cbv zeta. rewrite shr_nop by lia. rewrite rne_0. reflexivity.
  - cbv zeta. cbn [shr_record_of_loc]. rewrite shr_spec by lia.
    cbn [fst shr_m loc_of_shr_record orb].
    pose proof (mod_pow2_succ m (k - 1) Hm ltac:(lia)) as Hmod.
    replace (k - 1 + 1) with k in Hmod by lia.
    assert (Hp : 0 < 2 ^ (k - 1)) by (apply Z.pow_pos_nonneg; lia).
    assert (Hpk : 2 ^ k = 2 * 2 ^ (k - 1)).
    { replace k with (1 + (k - 1)) at 1 by lia. rewrite Z.pow_add_r by lia. reflexivity. }
    pose proof (Z.mod_pos_bound m (2 ^ (k - 1)) Hp) as Hlow.
    unfold rne. rewrite Hmod, Hpk.
    destruct (Z.odd (m / 2 ^ (k - 1))); cbn [Z.b2z];
      destruct (Z.eqb_spec (m mod 2 ^ (k - 1)) 0) as [E0|N0]; cbn [negb round_nearest_even];
      destruct (Z.ltb_spec (2 * (m mod 2 ^ (k - 1) + 2 ^ (k - 1) * 1)) (2 * 2 ^ (k - 1)));
      destruct (Z.ltb_spec (2 * (m mod 2 ^ (k - 1) + 2 ^ (k - 1) * 0)) (2 * 2 ^ (k - 1)));
      try lia;
      destruct (Z.ltb_spec (2 * 2 ^ (k - 1)) (2 * (m mod 2 ^ (k - 1) + 2 ^ (k - 1) * 1)));
      try lia; reflexivity.
Qed.

Lemma iter_xO_pow (m d : positive) : Zpos (Pos.iter xO m d) = Zpos m * 2 ^ Zpos d.
Proof.
  induction d as [|d IH] using Pos.peano_ind.
  - cbn [Pos.iter]. rewrite Pos2Z.inj_xO. change (2 ^ 1) with 2. lia.
  - rewrite Pos.iter_succ, Pos2Z.inj_xO, IH, Pos2Z.inj_succ, Z.pow_succ_r by lia. lia.
Qed.

Lemma shl_align_spec mx ex ex' :
  snd (shl_align mx ex ex') = Z.min ex ex'
  /\ Zpos (fst (shl_align mx ex ex')) = Zpos mx * 2 ^ (ex - Z.min ex ex').
Proof.
  unfold shl_align. destruct (ex' - ex) as [|d|d] eqn:Hd; cbn [fst snd].
  - replace (Z.min ex ex') with ex by lia. rewrite Z.sub_diag. split; lia.
  - replace (Z.min ex ex') with ex by lia. rewrite Z.sub_diag. split; lia.
  - replace (Z.min ex ex') with ex' by lia. split; [reflexivity|].
    rewrite iter_xO_pow. do 2 f_equal. lia.
Qed.

Section Format.
Variables prec emax : Z.
Hypothesis prec_pos : 0 < prec.
Hypothesis prec_lt_emax : prec < emax.

Local Abbreviation emin := (SpecFloat.emin prec emax).
Local Abbreviation fexp := (SpecFloat.fexp prec emax).
Local Abbreviation pack := (pack prec emax).
Local Abbreviation Zv := (Zv prec emax).

Lemma fexp_ge_emin e : emin <= fexp e.
Proof. unfold SpecFloat.fexp. lia. Qed.

Lemma fexp_ge e : e - prec <= fexp e.
Proof. unfold SpecFloat.fexp. lia. Qed.

Lemma fexp_mono e1 e2 : e1 <= e2 -> fexp e1 <= fexp e2.
Proof. unfold SpecFloat.fexp. lia. Qed.

Lemma binary_round_aux_pack sx mx ex lx :
  0 < mx -> ex <= fexp (Zdigits2 mx + ex) ->
  let res := shr (shr_record_of_loc mx lx) ex (fexp (Zdigits2 mx + ex) - ex) in
  let m' := round_nearest_even (shr_m (fst res)) (loc_of_shr_record (fst res)) in
  faithful mx lx (fexp (Zdigits2 mx + ex) - ex) m'
  /\ 0 <= m' <= 2 ^ prec
  /\ binary_round_aux prec emax sx mx ex lx
     = pack sx m' (fexp (Zdigits2 mx + ex)).
Proof.
  intros Hmx Hk. cbv zeta. set (e1 := fexp (Zdigits2 mx + ex)) in *.
  unfold binary_round_aux, shr_fexp. fold e1.
  destruct (shr_faithful mx lx ex (e1 - ex) ltac:(lia) ltac:(lia)) as [He' Hf].
  destruct (shr (shr_record_of_loc mx lx) ex (e1 - ex)) as [mrs' e'].
  cbn [fst snd] in He', Hf |- *. subst e'. replace (ex + (e1 - ex)) with e1 by lia.
  set (m' := round_nearest_even (shr_m mrs') (loc_of_shr_record mrs')) in *.
  split; [exact Hf|].
  assert (Hp2 : 0 < 2 ^ (e1 - ex)) by (apply Z.pow_pos_nonneg; lia).
  assert (Hpp : 0 < 2 ^ prec) by (apply Z.pow_pos_nonneg; lia).
  assert (Hq : 0 <= mx / 2 ^ (e1 - ex) < 2 ^ prec).
  { split; [apply Z.div_pos; lia|].
    apply Z.div_lt_upper_bound; [lia|].
    pose proof (Zdigits2_bounds mx Hmx) as [_ Hhi].
    pose proof (fexp_ge (Zdigits2 mx + ex)). fold e1 in H.
    rewrite <- Z.pow_add_r by lia.
    eapply Z.lt_le_trans; [exact Hhi|]. apply Z.pow_le_mono_r; lia. }
  pose proof (faithful_bounds mx lx (e1 - ex) m' ltac:(lia) ltac:(lia) Hf) as Hm'.
  split; [lia|].
  pose proof (fexp_ge_emin (Zdigits2 mx + ex)) as Hemin. fold e1 in Hemin.
  unfold pack. destruct (Z.eqb_spec m' 0) as [Hz|Hnz].
  - rewrite Hz. cbn [Zdigits2 shr_record_of_loc]. rewrite shr_nop; [reflexivity|].
    unfold SpecFloat.fexp. lia.
  - destruct (Z.ltb_spec m' (2 ^ prec)) as [Hlt|Hge].
    + assert (Zdigits2 m' <= prec).
      { pose proof (Zdigits2_bounds m' ltac:(lia)) as [Hlo _].
        destruct (Z.le_gt_cases (Zdigits2 m') prec); [assumption|].
        assert (2 ^ prec <= 2 ^ (Zdigits2 m' - 1)) by (apply Z.pow_le_mono_r; lia). lia. }
      cbn [shr_record_of_loc]. rewrite shr_nop by (unfold SpecFloat.fexp; lia).
      cbn [shr_m]. destruct m' as [|p|p]; try lia. reflexivity.
    + assert (m' = 2 ^ prec) as Hm2 by lia.
      assert (Zdigits2 m' = prec + 1) as Hd.
      { apply Zdigits2_unique; [|lia]. rewrite Hm2.
        replace (prec + 1 - 1) with prec by lia.
        split; [lia|]. apply Z.pow_lt_mono_r; lia. }
      rewrite Hd.
      replace (fexp (prec + 1 + e1) - e1) with 1 by (unfold SpecFloat.fexp; lia).
      cbn [shr_record_of_loc]. rewrite shr_spec by lia. cbn [shr_m].
      change (2 ^ 1) with 2.
      assert (0 < m' / 2).
      { rewrite Hm2. replace prec with (prec - 1 + 1) by lia.
        rewrite Z.pow_add_r by lia. change (2 ^ 1) with 2.
        rewrite Z.div_mul by lia. apply Z.pow_pos_nonneg; lia. }
      destruct (m' / 2) as [|p|p]; try lia. reflexivity.
Qed.

Lemma bounded_spec (m : positive) e :
  bounded prec emax m e = true
  <-> fexp (Zdigits2 (Zpos m) + e) = e /\ e <= emax - prec.
Proof.
  unfold bounded, canonical_mantissa. cbn [Zdigits2].
  rewrite andb_true_iff, Z.eqb_eq, Z.leb_le. reflexivity.
Qed.

(** A canonical mantissa has at most [prec] digits, and exactly [prec]
    above the smallest exponent. *)
Lemma canonical_digits (m : positive) e :
  fexp (Zdigits2 (Zpos m) + e) = e ->
  emin <= e /\ Zdigits2 (Zpos m) <= prec /\ (emin < e -> Zdigits2 (Zpos m) = prec).
Proof. unfold SpecFloat.fexp. lia. Qed.

Lemma canonical_lt_pow (m : positive) e :
  fexp (Zdigits2 (Zpos m) + e) = e -> Zpos m < 2 ^ prec.
Proof.
  intros Hc. destruct (canonical_digits m e Hc) as (_ & Hd & _).
  pose proof (Zdigits2_bounds (Zpos m) ltac:(lia)) as [_ Hhi].
  eapply Z.lt_le_trans; [exact Hhi|]. apply Z.pow_le_mono_r; lia.
Qed.

Lemma binary_round_aux_spec sx mx ex lx :
  0 < mx -> ex <= fexp (Zdigits2 mx + ex) ->
  exists m',
    faithful mx lx (fexp (Zdigits2 mx + ex) - ex) m'
    /\ 0 <= m' <= 2 ^ prec
    /\ binary_round_aux prec emax sx mx ex lx
       = pack sx m' (fexp (Zdigits2 mx + ex)).
Proof.
  intros Hmx Hk. eexists. exact (binary_round_aux_pack sx mx ex lx Hmx Hk).
Qed.

(** Rounding an exact mantissa is [rne]. *)
Lemma binary_round_aux_exact sx mx ex :
  0 < mx -> ex <= fexp (Zdigits2 mx + ex) ->
  let k := fexp (Zdigits2 mx + ex) - ex in
  0 <= rne mx k <= 2 ^ prec
  /\ binary_round_aux prec emax sx mx ex loc_Exact
     = pack sx (rne mx k) (fexp (Zdigits2 mx + ex)).
Proof.
  intros Hmx Hk. cbv zeta.
  pose proof (binary_round_aux_pack sx mx ex loc_Exact Hmx Hk) as H. cbv zeta in H.
  rewrite shr_rne in H by lia. destruct H as (_ & Hb & E). split; assumption.
Qed.

Lemma pack_valid sx mx ex lx m' :
  0 < mx -> ex <= fexp (Zdigits2 mx + ex) ->
  faithful mx lx (fexp (Zdigits2 mx + ex) - ex) m' ->
  m' <= 2 ^ prec ->
  valid_binary prec emax (pack sx m' (fexp (Zdigits2 mx + ex))) = true.
Proof.
  intros Hmx Hk Hf Hle. set (e1 := fexp (Zdigits2 mx + ex)) in *.
  pose proof (faithful_bounds mx lx (e1 - ex) m' ltac:(lia) ltac:(lia) Hf) as Hm'.
  assert (Hp2 : 0 < 2 ^ (e1 - ex)) by (apply Z.pow_pos_nonneg; lia).
  assert (Hq0 : 0 <= mx / 2 ^ (e1 - ex)) by (apply Z.div_pos; lia).
  pose proof (fexp_ge_emin (Zdigits2 mx + ex)) as Hemin. fold e1 in Hemin.
  unfold pack. destruct (Z.eqb_spec m' 0) as [Hz|Hnz]; [reflexivity|].
  destruct (Z.ltb_spec m' (2 ^ prec)) as [Hlt|Hge].
  - destruct (Z.leb_spec e1 (emax - prec)) as [He|He]; [|reflexivity].
    cbn [valid_binary]. apply bounded_spec. split; [|exact He].
    rewrite Z2Pos.id by lia.
    assert (Hd' : Zdigits2 m' <= prec).
    { pose proof (Zdigits2_bounds m' ltac:(lia)) as [Hlo _].
      destruct (Z.le_gt_cases (Zdigits2 m') prec); [assumption|].
      assert (2 ^ prec <= 2 ^ (Zdigits2 m' - 1)) by (apply Z.pow_le_mono_r; lia). lia. }
    destruct (Z.eq_dec e1 emin) as [Heq|Hne]; [unfold SpecFloat.fexp; lia|].
    assert (Hd : Zdigits2 m' = prec).
    { assert (He1 : e1 = Zdigits2 mx + ex - prec) by (unfold e1, SpecFloat.fexp in *; lia).
      pose proof (Zdigits2_bounds mx Hmx) as [Hlo _].
      assert (2 ^ (prec - 1) <= mx / 2 ^ (e1 - ex)).
      { apply Z.div_le_lower_bound; [lia|]. rewrite <- Z.pow_add_r by lia.
        replace (e1 - ex + (prec - 1)) with (Zdigits2 mx - 1) by lia. exact Hlo. }
      apply Zdigits2_unique; [|lia]. split; lia. }
    unfold SpecFloat.fexp. lia.
  - assert (m' = 2 ^ prec) as Hm2 by lia.
    destruct (Z.leb_spec (e1 + 1) (emax - prec)) as [He|He]; [|reflexivity].
    cbn [valid_binary]. apply bounded_spec. split; [|exact He].
    assert (Hhalf : m' / 2 = 2 ^ (prec - 1)).
    { rewrite Hm2. replace prec with (prec - 1 + 1) at 1 by lia.
      rewrite Z.pow_add_r by lia. change (2 ^ 1) with 2. apply Z.div_mul. lia. }
    assert (0 < 2 ^ (prec - 1)) by (apply Z.pow_pos_nonneg; lia).
    rewrite Z2Pos.id by lia. rewrite Hhalf.
    rewrite (Zdigits2_unique (2 ^ (prec - 1)) prec); [unfold SpecFloat.fexp; lia | | lia].
    split; [lia|]. apply Z.pow_lt_mono_r; lia.
Qed.



Lemma pack_mag sx m e b :
  0 <= m <= 2 ^ prec -> b <= e ->
  is_finite (pack sx m e) = true ->
  mag b (pack sx m e) = m * 2 ^ (e - b) /\ has_sign sx (pack sx m e).
Proof.
  intros Hm Hb. unfold pack.
  destruct (Z.eqb_spec m 0) as [-> | Hnz]; [intros _; split; reflexivity|].
  destruct (Z.ltb_spec m (2 ^ prec)) as [Hlt|Hge].
  - destruct (e <=? emax - prec); [|discriminate]. intros _. cbn [mag has_sign].
    rewrite Z2Pos.id by lia. split; reflexivity.
  - destruct (e + 1 <=? emax - prec); [|discriminate]. intros _. cbn [mag has_sign].
    assert (m = 2 ^ prec) as -> by lia.
    assert (Hhalf : 2 ^ prec / 2 = 2 ^ (prec - 1)).
    { replace prec with (prec - 1 + 1) at 1 by lia.
      rewrite Z.pow_add_r by lia. change (2 ^ 1) with 2. apply Z.div_mul. lia. }
    assert (0 < 2 ^ (prec - 1)) by (apply Z.pow_pos_nonneg; lia).
    rewrite Z2Pos.id by lia. rewrite Hhalf. split; [|reflexivity].
    rewrite <- !Z.pow_add_r by lia. f_equal. lia.
Qed.

Lemma faithful_exact m k m' :
  faithful m loc_Exact k m' -> m mod 2 ^ k = 0 -> m' = m / 2 ^ k.
Proof.
  intros [-> | [_ [Hne | Hne]]] Hz; [reflexivity | contradiction | discriminate].
Qed.

(** Rounding never goes past a representable bound: if the exact value
    [mx * 2 ^ ex] is at most the float [mB * 2 ^ eB], so is the result
    of rounding it. *)
Lemma round_aux_le sx mx ex lx (mB : positive) eB b :
  0 < mx -> ex <= fexp (Zdigits2 mx + ex) ->
  bounded prec emax mB eB = true ->
  b <= ex -> b <= eB ->
  (mx + Z.b2z (inexact lx)) * 2 ^ (ex - b) <= Zpos mB * 2 ^ (eB - b) ->
  let r := binary_round_aux prec emax sx mx ex lx in
  valid_binary prec emax r = true
  /\ is_finite r = true
  /\ has_sign sx r
  /\ mag b r <= Zpos mB * 2 ^ (eB - b).
Proof.
  intros Hmx Hk HB Hbx HbB Hle. cbv zeta.
  destruct (binary_round_aux_spec sx mx ex lx Hmx Hk) as (m' & Hf & Hm' & ->).
  pose proof (pack_valid sx mx ex lx m' Hmx Hk Hf ltac:(lia)) as Hvalid.
  assert (Hle0 : mx * 2 ^ (ex - b) <= Zpos mB * 2 ^ (eB - b)).
  { assert (0 < 2 ^ (ex - b)) by (apply Z.pow_pos_nonneg; lia).
    destruct (inexact lx); cbn [Z.b2z] in Hle; nia. }
  set (e1 := fexp (Zdigits2 mx + ex)) in *.
  apply bounded_spec in HB. destruct HB as [HcB HeB].
  pose proof (canonical_lt_pow mB eB HcB) as HmB.
  pose proof (Zdigits2_bounds mx Hmx) as [Hlo Hhi].
  pose proof (Zdigits2_bounds (Zpos mB) ltac:(lia)) as [HloB HhiB].
  pose proof (Zdigits2_pos mx Hmx) as Hdpos.
  pose proof (Zdigits2_pos (Zpos mB) ltac:(lia)) as HdBpos.
  pose proof (value_le_digits mx ex (Zpos mB) eB b Hmx ltac:(lia) Hbx HbB Hle0) as Hdig.
  assert (He1B : e1 <= eB) by (rewrite <- HcB; apply fexp_mono; exact Hdig).
  set (P1 := 2 ^ (ex - b)). set (P2 := 2 ^ (e1 - ex)). set (P3 := 2 ^ (eB - e1)).
  assert (HP1 : 0 < P1) by (apply Z.pow_pos_nonneg; lia).
  assert (HP2 : 0 < P2) by (apply Z.pow_pos_nonneg; lia).
  assert (HP3 : 0 < P3) by (apply Z.pow_pos_nonneg; lia).
  assert (E1 : 2 ^ (e1 - b) = P2 * P1).
  { unfold P1, P2. rewrite <- Z.pow_add_r by lia. f_equal. lia. }
  assert (E2 : 2 ^ (eB - b) = P3 * (P2 * P1)).
  { unfold P1, P2, P3. rewrite <- !Z.pow_add_r by lia. f_equal. lia. }
  fold P1 in Hle, Hle0. rewrite E2 in Hle, Hle0 |- *.
  assert (Hc : mx + Z.b2z (inexact lx) <= Zpos mB * P3 * P2) by nia.
  assert (Hm'c : m' <= Zpos mB * P3).
  { pose proof (Z.div_mod mx P2 ltac:(lia)) as Hdm.
    pose proof (Z.mod_pos_bound mx P2 HP2) as Hmod.
    unfold faithful in Hf. fold P2 in Hf.
    destruct Hf as [-> | [-> Hne]].
    - apply Z.div_le_upper_bound; [lia|]. destruct (inexact lx); cbn [Z.b2z] in Hc; nia.
    - assert (mx / P2 < Zpos mB * P3); [|lia].
      apply Z.div_lt_upper_bound; [lia|].
      destruct Hne as [Hne | Hne].
      + destruct (Z.eq_dec mx (Zpos mB * P3 * P2)) as [Heq|Hneq];
          [|destruct (inexact lx); cbn [Z.b2z] in Hc; lia].
        exfalso. apply Hne. rewrite Heq. apply Z.mod_mul. lia.
      + rewrite Hne in Hc. cbn [Z.b2z] in Hc. lia. }
  assert (Hfin : is_finite (pack sx m' e1) = true).
  { unfold pack. destruct (m' =? 0); [reflexivity|].
    destruct (Z.ltb_spec m' (2 ^ prec)).
    - destruct (Z.leb_spec e1 (emax - prec)); [reflexivity | lia].
    - destruct (Z.leb_spec (e1 + 1) (emax - prec)); [reflexivity|].
      exfalso. assert (eB = e1) by lia.
      assert (P3 = 1) by (unfold P3; replace (eB - e1) with 0 by lia; reflexivity).
      nia. }
  split; [exact Hvalid|]. split; [exact Hfin|].
  destruct (pack_mag sx m' e1 b Hm' ltac:(lia) Hfin) as [-> Hs].
  split; [exact Hs|]. rewrite E1. nia.
Qed.

(** [binary_round] first aligns the mantissa, then rounds; whatever the
    input exponent, the result obeys a representable upper bound. *)
Lemma binary_round_le sx (mx : positive) ex (mB : positive) eB b :
  bounded prec emax mB eB = true ->
  b <= ex -> b <= emin ->
  Zpos mx * 2 ^ (ex - b) <= Zpos mB * 2 ^ (eB - b) ->
  let r := binary_round prec emax sx mx ex in
  valid_binary prec emax r = true
  /\ is_finite r = true
  /\ has_sign sx r
  /\ mag b r <= Zpos mB * 2 ^ (eB - b).
Proof.
  intros HB Hbx Hbe Hle. unfold binary_round.
  pose proof (shl_align_spec mx ex (fexp (Zpos (digits2_pos mx) + ex))) as [He Hm].
  destruct (shl_align mx ex (fexp (Zpos (digits2_pos mx) + ex))) as [mz ez].
  cbn [fst snd] in He, Hm. rewrite <- He in Hm.
  pose proof (fexp_ge_emin (Zpos (digits2_pos mx) + ex)) as Hemin.
  assert (Hdz : Zdigits2 (Zpos mz) + ez = Zpos (digits2_pos mx) + ex).
  { rewrite Hm, Zdigits2_shift by lia. cbn [Zdigits2]. lia. }
  pose proof (proj1 (bounded_spec mB eB) HB) as [HcB _].
  destruct (canonical_digits mB eB HcB) as (HeB & _).
  apply round_aux_le; try lia.
  - rewrite Hdz. lia.
  - exact HB.
  - cbn [inexact Z.b2z]. rewrite Z.add_0_r.
    rewrite Hm, <- Z.mul_assoc, <- Z.pow_add_r by lia.
    replace (ex - ez + (ez - b)) with (ex - b) by lia. exact Hle.
Qed.

(** Nor does rounding fall below a representable bound: if the exact
    value [mx * 2 ^ ex] is at least the float [mB * 2 ^ eB], so is a finite
    result of rounding it. *)
Lemma round_aux_ge sx mx ex lx (mB : positive) eB b :
  0 < mx -> ex <= fexp (Zdigits2 mx + ex) ->
  bounded prec emax mB eB = true ->
  b <= ex -> b <= eB ->
  Zpos mB * 2 ^ (eB - b) <= mx * 2 ^ (ex - b) ->
  let r := binary_round_aux prec emax sx mx ex lx in
  is_finite r = true ->
  Zpos mB * 2 ^ (eB - b) <= mag b r.
Proof.
  intros Hmx Hk HB Hbx HbB Hle. cbv zeta.
  destruct (binary_round_aux_spec sx mx ex lx Hmx Hk) as (m' & Hf & Hm' & ->).
  intros Hfin.
  set (e1 := fexp (Zdigits2 mx + ex)) in *.
  apply bounded_spec in HB. destruct HB as [HcB HeB].
  destruct (canonical_digits mB eB HcB) as (HeminB & _).
  pose proof (Zdigits2_bounds mx Hmx) as [Hlo Hhi].
  pose proof (Zdigits2_bounds (Zpos mB) ltac:(lia)) as [HloB HhiB].
  pose proof (Zdigits2_pos mx Hmx) as Hdpos.
  pose proof (Zdigits2_pos (Zpos mB) ltac:(lia)) as HdBpos.
  pose proof (value_le_digits (Zpos mB) eB mx ex b ltac:(lia) Hmx HbB Hbx Hle) as Hdig.
  assert (HeB1 : eB <= e1) by (rewrite <- HcB; apply fexp_mono; exact Hdig).
  pose proof (faithful_bounds mx lx (e1 - ex) m' ltac:(lia) ltac:(lia) Hf) as [Hfl _].
  set (P1 := 2 ^ (ex - b)) in *. set (P2 := 2 ^ (e1 - ex)) in *.
  assert (HP1 : 0 < P1) by (apply Z.pow_pos_nonneg; lia).
  assert (HP2 : 0 < P2) by (apply Z.pow_pos_nonneg; lia).
  assert (E1 : 2 ^ (e1 - b) = P2 * P1).
  { unfold P1, P2. rewrite <- Z.pow_add_r by lia. f_equal. lia. }
  destruct (pack_mag sx m' e1 b Hm' ltac:(lia) Hfin) as [-> _]. rewrite E1.
  destruct (Z.eq_dec (Zdigits2 (Zpos mB) + eB) (Zdigits2 mx + ex)) as [Ed|Nd].
  - assert (eB = e1) by (unfold e1; rewrite <- Ed; symmetry; exact HcB). subst eB.
    rewrite E1 in Hle.
    assert (Zpos mB <= mx / P2) by (apply Z.div_le_lower_bound; nia).
    nia.
  - assert (He1 : e1 <= Zdigits2 mx + ex - 1) by (unfold e1, SpecFloat.fexp; lia).
    set (Q := 2 ^ (Zdigits2 mx - 1 - (e1 - ex))).
    assert (HQ : Q <= mx / P2).
    { apply Z.div_le_lower_bound; [lia|]. unfold P2, Q.
      rewrite <- Z.pow_add_r by lia.
      replace (e1 - ex + (Zdigits2 mx - 1 - (e1 - ex))) with (Zdigits2 mx - 1) by lia.
      exact Hlo. }
    assert (HB2 : Zpos mB * 2 ^ (eB - b) < 2 ^ (Zdigits2 (Zpos mB) + (eB - b))).
    { rewrite Z.pow_add_r by lia.
      apply Z.mul_lt_mono_pos_r; [apply Z.pow_pos_nonneg; lia | exact HhiB]. }
    assert (HB3 : 2 ^ (Zdigits2 (Zpos mB) + (eB - b)) <= Q * (P2 * P1)).
    { unfold Q, P2, P1. rewrite <- !Z.pow_add_r by lia.
      apply Z.pow_le_mono_r; lia. }
    nia.
Qed.

Lemma binary_round_ge sx (mx : positive) ex (mB : positive) eB :
  bounded prec emax mB eB = true ->
  emin <= ex ->
  Zpos mB * 2 ^ (eB - emin) <= Zpos mx * 2 ^ (ex - emin) ->
  let r := binary_round prec emax sx mx ex in
  is_finite r = true ->
  Zpos mB * 2 ^ (eB - emin) <= mag emin r.
Proof.
  intros HB Hex Hle. unfold binary_round.
  pose proof (shl_align_spec mx ex (fexp (Zpos (digits2_pos mx) + ex))) as [He Hm].
  destruct (shl_align mx ex (fexp (Zpos (digits2_pos mx) + ex))) as [mz ez].
  cbn [fst snd] in He, Hm. rewrite <- He in Hm.
  pose proof (fexp_ge_emin (Zpos (digits2_pos mx) + ex)) as Hemin.
  assert (Hdz : Zdigits2 (Zpos mz) + ez = Zpos (digits2_pos mx) + ex).
  { rewrite Hm, Zdigits2_shift by lia. cbn [Zdigits2]. lia. }
  pose proof (proj1 (bounded_spec mB eB) HB) as [HcB _].
  destruct (canonical_digits mB eB HcB) as (HeB & _).
  apply round_aux_ge; try lia.
  - rewrite Hdz. lia.
  - exact HB.
  - rewrite Hm, <- Z.mul_assoc, <- Z.pow_add_r by lia.
    replace (ex - ez + (ez - emin)) with (ex - emin) by lia. exact Hle.
Qed.

(** [binary_round] keeps the sign it is given and never yields a NaN. *)
Lemma binary_round_sign sx (mx : positive) ex :
  match binary_round prec emax sx mx ex with
  | S754_nan => False
  | S754_zero s | S754_infinity s | S754_finite s _ _ => s = sx
  end
  /\ valid_binary prec emax (binary_round prec emax sx mx ex) = true.
Proof.
  unfold binary_round.
  pose proof (shl_align_spec mx ex (fexp (Zpos (digits2_pos mx) + ex))) as [He Hm].
  destruct (shl_align mx ex (fexp (Zpos (digits2_pos mx) + ex))) as [mz ez].
  cbn [fst snd] in He, Hm. rewrite <- He in Hm.
  assert (Hdz : Zdigits2 (Zpos mz) + ez = Zpos (digits2_pos mx) + ex).
  { rewrite Hm, Zdigits2_shift by lia. cbn [Zdigits2]. lia. }
  assert (Hk : ez <= fexp (Zdigits2 (Zpos mz) + ez)) by (rewrite Hdz; lia).
  destruct (binary_round_aux_spec sx (Zpos mz) ez loc_Exact ltac:(lia) Hk)
    as (m' & Hf & Hm' & Hr).
  pose proof (pack_valid sx (Zpos mz) ez loc_Exact m' ltac:(lia) Hk Hf ltac:(lia)) as Hv.
  rewrite Hr. split; [|exact Hv].
  unfold pack. destruct (m' =? 0); [reflexivity|].
  destruct (m' <? 2 ^ prec).
  - destruct (_ <=? _); reflexivity.
  - destruct (_ <=? _); reflexivity.
Qed.

Lemma mag_pos b (m : positive) e s : b <= e -> 0 < mag b (S754_finite s m e).
Proof.
  intros Hb. cbn [mag].
  apply Z.mul_pos_pos; [lia | apply Z.pow_pos_nonneg; lia].
Qed.

Lemma valid_finite_emin s m e :
  valid_binary prec emax (S754_finite s m e) = true -> emin <= e.
Proof.
  cbn [valid_binary]. intros Hb. apply bounded_spec in Hb. destruct Hb as [Hc _].
  apply (canonical_digits m e Hc).
Qed.

(** Among canonical floats the exponent decides the order. *)
Lemma canonical_lt (m1 m2 : positive) e1 e2 :
  bounded prec emax m1 e1 = true -> bounded prec emax m2 e2 = true ->
  e1 < e2 ->
  Zpos m1 * 2 ^ (e1 - emin) < Zpos m2 * 2 ^ (e2 - emin).
Proof.
  intros H1 H2 Hlt.
  apply bounded_spec in H1. destruct H1 as [Hc1 _].
  apply bounded_spec in H2. destruct H2 as [Hc2 _].
  pose proof (canonical_lt_pow m1 e1 Hc1) as Hm1.
  destruct (canonical_digits m1 e1 Hc1) as (He1 & _ & _).
  destruct (canonical_digits m2 e2 Hc2) as (He2 & _ & Hd2).
  specialize (Hd2 ltac:(lia)).
  pose proof (Zdigits2_bounds (Zpos m2) ltac:(lia)) as [Hlo2 _]. rewrite Hd2 in Hlo2.
  assert (0 < 2 ^ (e1 - emin)) by (apply Z.pow_pos_nonneg; lia).
  assert (0 < 2 ^ (prec - 1)) by (apply Z.pow_pos_nonneg; lia).
  assert (E : 2 ^ (e2 - emin) = 2 ^ (e2 - e1 - 1) * 2 * 2 ^ (e1 - emin)).
  { replace 2 with (2 ^ 1) at 3 by reflexivity.
    rewrite <- !Z.pow_add_r by lia. f_equal. lia. }
  assert (0 < 2 ^ (e2 - e1 - 1)) by (apply Z.pow_pos_nonneg; lia).
  assert (Ep : 2 ^ prec = 2 * 2 ^ (prec - 1)).
  { replace 2 with (2 ^ 1) at 2 by reflexivity.
    rewrite <- Z.pow_add_r by lia. f_equal. lia. }
  rewrite E. nia.
Qed.

Lemma SFcompare_Zv x y :
  valid_binary prec emax x = true -> valid_binary prec emax y = true ->
  is_finite x = true -> is_finite y = true ->
  SFcompare x y = Some (Zv x ?= Zv y).
Proof.
  intros Hx Hy Fx Fy.
  destruct x as [sx|sx| |sx mx ex], y as [sy|sy| |sy my ey]; try discriminate.
  - reflexivity.
  - pose proof (valid_finite_emin _ _ _ Hy).
    pose proof (mag_pos emin my ey sy ltac:(lia)) as Hp. cbn [mag] in Hp.
    cbn [SFcompare Zv]. destruct sy; cbn [cond_Zopp]; f_equal; symmetry;
      [apply Z.compare_gt_iff | apply Z.compare_lt_iff]; lia.
  - pose proof (valid_finite_emin _ _ _ Hx).
    pose proof (mag_pos emin mx ex sx ltac:(lia)) as Hp. cbn [mag] in Hp.
    cbn [SFcompare Zv]. destruct sx; cbn [cond_Zopp]; f_equal; symmetry;
      [apply Z.compare_lt_iff | apply Z.compare_gt_iff]; lia.
  - pose proof (valid_finite_emin _ _ _ Hx). pose proof (valid_finite_emin _ _ _ Hy).
    pose proof (mag_pos emin mx ex sx ltac:(lia)) as Hpx. cbn [mag] in Hpx.
    pose proof (mag_pos emin my ey sy ltac:(lia)) as Hpy. cbn [mag] in Hpy.
    cbn [valid_binary] in Hx, Hy.
    cbn [SFcompare Zv].
    assert (Hsame : forall c, (ex ?= ey) = c ->
              match c with
              | Eq => Pos.compare_cont Eq mx my
              | Lt => Lt
              | Gt => Gt
              end = (Zpos mx * 2 ^ (ex - emin) ?= Zpos my * 2 ^ (ey - emin))).
    { intros c Hc. destruct c.
      - apply Z.compare_eq in Hc. subst ey.
        change (Pos.compare_cont Eq mx my) with (Zpos mx ?= Zpos my).
        apply Zmult_compare_compat_r.
        apply Z.lt_gt, Z.pow_pos_nonneg; lia.
      - symmetry. apply Z.compare_lt_iff. apply canonical_lt; assumption.
      - symmetry. apply Z.compare_gt_iff. apply canonical_lt; try assumption.
        apply Z.compare_gt_iff in Hc. lia. }
    specialize (Hsame (ex ?= ey) eq_refl).
    destruct sx, sy; cbn [cond_Zopp]; f_equal.
    + rewrite Z.compare_opp.
      rewrite (Z.compare_antisym (Zpos mx * 2 ^ (ex - emin)) (Zpos my * 2 ^ (ey - emin))).
      rewrite <- Hsame. destruct (ex ?= ey); reflexivity.
    + symmetry. apply Z.compare_lt_iff. lia.
    + symmetry. apply Z.compare_gt_iff. lia.
    + exact Hsame.
Qed.

Lemma SFleb_Zv x y :
  valid_binary prec emax x = true -> valid_binary prec emax y = true ->
  is_finite x = true -> is_finite y = true ->
  SFleb x y = (Zv x <=? Zv y).
Proof.
  intros Hx Hy Fx Fy. unfold SFleb. rewrite SFcompare_Zv by assumption.
  unfold Z.leb. destruct (Zv x ?= Zv y); reflexivity.
Qed.

Lemma SFltb_Zv x y :
  valid_binary prec emax x = true -> valid_binary prec emax y = true ->
  is_finite x = true -> is_finite y = true ->
  SFltb x y = (Zv x <? Zv y).
Proof.
  intros Hx Hy Fx Fy. unfold SFltb. rewrite SFcompare_Zv by assumption.
  unfold Z.ltb. destruct (Zv x ?= Zv y); reflexivity.
Qed.

Lemma Zv_of_sign s r : has_sign s r -> Zv r = cond_Zopp s (mag emin r).
Proof.
  destruct r as [s'| | |s' m e]; cbn [has_sign Zv mag]; try contradiction.
  - intros _. destruct s; reflexivity.
  - intros ->. reflexivity.
Qed.

Lemma SFsub_add_opp x y : SFsub prec emax x y = SFadd prec emax x (SFopp y).
Proof.
  destruct x as [[]|[]| |sx mx ex], y as [[]|[]| |sy my ey]; try reflexivity.
  cbn [SFsub SFadd SFopp]. f_equal. destruct sy; cbn [cond_Zopp negb]; lia.
Qed.

Lemma aligned_value s (m : positive) e ez :
  emin <= ez -> ez <= e ->
  cond_Zopp s (Zpos (fst (shl_align m e ez))) * 2 ^ (ez - emin)
  = Zv (S754_finite s m e).
Proof.
  intros Hez Hle. destruct (shl_align_spec m e ez) as [_ ->].
  replace (Z.min e ez) with ez by lia. cbn [Zv].
  replace (e - emin) with (e - ez + (ez - emin)) by lia.
  rewrite Z.pow_add_r by lia. destruct s; cbn [cond_Zopp]; lia.
Qed.

(** Addition of valid finite floats stays between two representable
    bounds that enclose the exact sum. *)
Lemma SFadd_interval x y lo hi :
  valid_binary prec emax x = true -> valid_binary prec emax y = true ->
  valid_binary prec emax lo = true -> valid_binary prec emax hi = true ->
  is_finite x = true -> is_finite y = true ->
  is_finite lo = true -> is_finite hi = true ->
  Zv lo <= Zv x + Zv y <= Zv hi ->
  valid_binary prec emax (SFadd prec emax x y) = true
  /\ is_finite (SFadd prec emax x y) = true
  /\ Zv lo <= Zv (SFadd prec emax x y) <= Zv hi.
Proof.
  intros Vx Vy Vlo Vhi Fx Fy Flo Fhi HV.
  destruct x as [sx|sx| |sx mx ex], y as [sy|sy| |sy my ey]; try discriminate.
  - destruct sx, sy; cbn [SFadd Bool.eqb Zv] in *; repeat split; lia.
  - cbn [SFadd]. cbn [Zv] in HV |- *. repeat split; try assumption; lia.
  - cbn [SFadd]. cbn [Zv] in HV |- *. repeat split; try assumption; lia.
  - pose proof (valid_finite_emin _ _ _ Vx) as Hex.
    pose proof (valid_finite_emin _ _ _ Vy) as Hey.
    cbn [SFadd]. set (ez := Z.min ex ey) in *.
    pose proof (aligned_value sx mx ex ez ltac:(lia) ltac:(lia)) as Hax.
    pose proof (aligned_value sy my ey ez ltac:(lia) ltac:(lia)) as Hay.
    set (M := cond_Zopp sx (Zpos (fst (shl_align mx ex ez)))
              + cond_Zopp sy (Zpos (fst (shl_align my ey ez)))) in *.
    assert (HM : M * 2 ^ (ez - emin) = Zv (S754_finite sx mx ex) + Zv (S754_finite sy my ey))
      by (unfold M; lia).
    assert (Hp : 0 < 2 ^ (ez - emin)) by (apply Z.pow_pos_nonneg; lia).
    rewrite <- HM in HV. clear HM Hax Hay. clearbody M.
    destruct M as [|p|p]; cbn [binary_normalize].
    + cbn [Zv valid_binary is_finite]. repeat split; lia.
    + destruct hi as [sh|sh| |sh mh eh]; try discriminate; [cbn [Zv] in HV; lia|].
      assert (sh = false) as ->.
      { destruct sh; [|reflexivity]. exfalso. cbn [Zv cond_Zopp] in HV.
        pose proof (valid_finite_emin _ _ _ Vhi).
        pose proof (mag_pos emin mh eh true ltac:(lia)) as Hm. cbn [mag] in Hm. lia. }
      cbn [Zv cond_Zopp] in HV |- *. cbn [valid_binary] in Vhi.
      pose proof (valid_finite_emin false mh eh Vhi).
      destruct (binary_round_le false p ez mh eh emin Vhi ltac:(lia) ltac:(lia) ltac:(lia))
        as (Hv & Hf & Hs & Hm).
      split; [exact Hv|]. split; [exact Hf|].
      rewrite (Zv_of_sign false _ Hs). cbn [cond_Zopp].
      split; [|lia].
      assert (0 <= mag emin (binary_round prec emax false p ez)).
      { destruct (binary_round prec emax false p ez); cbn [mag]; lia. }
      destruct lo as [sl|sl| |sl ml el]; try discriminate; [cbn [Zv]; lia|].
      pose proof (valid_finite_emin _ _ _ Vlo).
      pose proof (mag_pos emin ml el sl ltac:(lia)) as Hml. cbn [mag] in Hml.
      destruct sl; cbn [Zv cond_Zopp] in HV |- *; [lia|].
      apply (binary_round_ge false p ez ml el Vlo ltac:(lia) ltac:(lia) Hf).
    + destruct lo as [sl|sl| |sl ml el]; try discriminate; [cbn [Zv] in HV; lia|].
      assert (sl = true) as ->.
      { destruct sl; [reflexivity|]. exfalso. cbn [Zv cond_Zopp] in HV.
        pose proof (valid_finite_emin _ _ _ Vlo).
        pose proof (mag_pos emin ml el false ltac:(lia)) as Hm. cbn [mag] in Hm. lia. }
      cbn [Zv cond_Zopp] in HV |- *. cbn [valid_binary] in Vlo.
      pose proof (valid_finite_emin true ml el Vlo).
      destruct (binary_round_le true p ez ml el emin Vlo ltac:(lia) ltac:(lia) ltac:(lia))
        as (Hv & Hf & Hs & Hm).
      split; [exact Hv|]. split; [exact Hf|].
      rewrite (Zv_of_sign true _ Hs). cbn [cond_Zopp].
      split; [lia|].
      assert (0 <= mag emin (binary_round prec emax true p ez)).
      { destruct (binary_round prec emax true p ez); cbn [mag]; lia. }
      destruct hi as [sh|sh| |sh mh eh]; try discriminate; [cbn [Zv]; lia|].
      pose proof (valid_finite_emin _ _ _ Vhi).
      pose proof (mag_pos emin mh eh sh ltac:(lia)) as Hmh. cbn [mag] in Hmh.
      destruct sh; cbn [Zv cond_Zopp] in HV |- *; [|lia].
      pose proof (binary_round_ge true p ez mh eh Vhi ltac:(lia) ltac:(lia) Hf). lia.
Qed.

Lemma emin_nonpos : emin <= 0.
Proof. unfold SpecFloat.emin. lia. Qed.

Lemma finite_nonneg_sign s m e :
  valid_binary prec emax (S754_finite s m e) = true ->
  0 <= Zv (S754_finite s m e) -> s = false.
Proof.
  intros Hv Hz. destruct s; [|reflexivity]. exfalso.
  pose proof (valid_finite_emin _ _ _ Hv).
  pose proof (mag_pos emin m e true ltac:(lia)) as Hm. cbn [mag] in Hm.
  cbn [Zv cond_Zopp] in Hz. lia.
Qed.

(** The sum of two valid finite floats whose exact sum is non-negative. *)
Lemma SFadd_nonneg x y :
  valid_binary prec emax x = true -> valid_binary prec emax y = true ->
  is_finite x = true -> is_finite y = true ->
  0 <= Zv x + Zv y ->
  nonneg (SFadd prec emax x y)
  /\ valid_binary prec emax (SFadd prec emax x y) = true.
Proof.
  intros Vx Vy Fx Fy HV.
  destruct x as [sx|sx| |sx mx ex], y as [sy|sy| |sy my ey]; try discriminate.
  - destruct sx, sy; split; reflexivity.
  - cbn [SFadd nonneg]. split; [|exact Vy].
    apply (finite_nonneg_sign sy my ey Vy). cbn [Zv] in HV |- *. lia.
  - cbn [SFadd nonneg]. split; [|exact Vx].
    apply (finite_nonneg_sign sx mx ex Vx). cbn [Zv] in HV |- *. lia.
  - pose proof (valid_finite_emin _ _ _ Vx) as Hex.
    pose proof (valid_finite_emin _ _ _ Vy) as Hey.
    cbn [SFadd]. set (ez := Z.min ex ey) in *.
    pose proof (aligned_value sx mx ex ez ltac:(lia) ltac:(lia)) as Hax.
    pose proof (aligned_value sy my ey ez ltac:(lia) ltac:(lia)) as Hay.
    set (M := cond_Zopp sx (Zpos (fst (shl_align mx ex ez)))
              + cond_Zopp sy (Zpos (fst (shl_align my ey ez)))) in *.
    assert (HM : M * 2 ^ (ez - emin) = Zv (S754_finite sx mx ex) + Zv (S754_finite sy my ey))
      by (unfold M; lia).
    assert (Hp : 0 < 2 ^ (ez - emin)) by (apply Z.pow_pos_nonneg; lia).
    rewrite <- HM in HV. clear HM Hax Hay. clearbody M.
    destruct M as [|p|p]; cbn [binary_normalize]; [split; reflexivity | | nia].
    destruct (binary_round_sign false p ez) as [Hs Hv]. split; [|exact Hv].
    destruct (binary_round prec emax false p ez); cbn [nonneg]; try assumption; exact I.
Qed.

(** Below a float whose mantissa is not a power of two, the next valid
    float is one unit of its last place away. *)
Lemma below_pred x (mB : positive) eB :
  valid_binary prec emax x = true -> is_finite x = true ->
  bounded prec emax mB eB = true -> 2 ^ (prec - 1) < Zpos mB ->
  Zv x < Zpos mB * 2 ^ (eB - emin) ->
  Zv x <= (Zpos mB - 1) * 2 ^ (eB - emin).
Proof.
  intros Vx Fx HB Hnp Hlt.
  pose proof (proj1 (bounded_spec mB eB) HB) as [HcB _].
  destruct (canonical_digits mB eB HcB) as (HeB & _).
  assert (0 < 2 ^ (eB - emin)) by (apply Z.pow_pos_nonneg; lia).
  assert (0 < 2 ^ (prec - 1)) by (apply Z.pow_pos_nonneg; lia).
  destruct x as [s|s| |s m e]; try discriminate; [cbn [Zv]; nia|].
  pose proof (valid_finite_emin _ _ _ Vx) as He.
  cbn [valid_binary] in Vx.
  pose proof (proj1 (bounded_spec m e) Vx) as [Hc _].
  pose proof (canonical_lt_pow m e Hc) as Hm.
  assert (0 < 2 ^ (e - emin)) by (apply Z.pow_pos_nonneg; lia).
  destruct s; cbn [Zv cond_Zopp] in *; [nia|].
  destruct (Z.le_gt_cases eB e) as [Hle|Hgt].
  - assert (E : 2 ^ (e - emin) = 2 ^ (e - eB) * 2 ^ (eB - emin)).
    { rewrite <- Z.pow_add_r by lia. f_equal. lia. }
    assert (0 < 2 ^ (e - eB)) by (apply Z.pow_pos_nonneg; lia).
    rewrite E in *.
    set (A := 2 ^ (e - eB)) in *. set (B := 2 ^ (eB - emin)) in *.
    assert (Zpos m * A < Zpos mB) by nia.
    assert (Zpos m * A <= Zpos mB - 1) by lia. nia.
  - assert (E : 2 ^ (eB - emin) = 2 ^ (eB - e - 1) * 2 * 2 ^ (e - emin)).
    { replace 2 with (2 ^ 1) at 3 by reflexivity.
      rewrite <- !Z.pow_add_r by lia. f_equal. lia. }
    assert (0 < 2 ^ (eB - e - 1)) by (apply Z.pow_pos_nonneg; lia).
    assert (Ep : 2 ^ prec = 2 * 2 ^ (prec - 1)).
    { replace 2 with (2 ^ 1) at 2 by reflexivity.
      rewrite <- Z.pow_add_r by lia. f_equal. lia. }
    rewrite E. nia.
Qed.

Lemma Zdigits2_pow2 k : 0 <= k -> Zdigits2 (2 ^ k) = k + 1.
Proof.
  intros Hk. assert (0 < 2 ^ k) by (apply Z.pow_pos_nonneg; lia).
  apply Zdigits2_unique; [|lia].
  replace (k + 1 - 1) with k by lia. split; [lia|].
  apply Z.pow_lt_mono_r; lia.
Qed.

Lemma Zdigits2_mul_ge m n :
  0 < m -> 0 < n -> Zdigits2 m + Zdigits2 n - 1 <= Zdigits2 (m * n).
Proof.
  intros Hm Hn.
  pose proof (Zdigits2_bounds m Hm) as [Hlm _].
  pose proof (Zdigits2_bounds n Hn) as [Hln _].
  pose proof (Zdigits2_pos m Hm). pose proof (Zdigits2_pos n Hn).
  assert (0 < 2 ^ (Zdigits2 m - 1)) by (apply Z.pow_pos_nonneg; lia).
  assert (0 < 2 ^ (Zdigits2 n - 1)) by (apply Z.pow_pos_nonneg; lia).
  assert (Hle : 2 ^ (Zdigits2 m - 1 + (Zdigits2 n - 1)) <= m * n).
  { rewrite Z.pow_add_r by lia. nia. }
  assert (Hpos : 0 < 2 ^ (Zdigits2 m - 1 + (Zdigits2 n - 1)))
    by (apply Z.pow_pos_nonneg; lia).
  pose proof (Zdigits2_le _ _ Hpos Hle) as Hd.
  rewrite Zdigits2_pow2 in Hd by lia. lia.
Qed.

(** The product of two canonical mantissas never needs a left shift. *)
Lemma mul_aligned (mx my : positive) ex ey :
  bounded prec emax mx ex = true -> bounded prec emax my ey = true ->
  ex + ey <= fexp (Zdigits2 (Zpos (mx * my)) + (ex + ey)).
Proof.
  intros Hx Hy.
  pose proof (proj1 (bounded_spec mx ex) Hx) as [Hcx _].
  pose proof (proj1 (bounded_spec my ey) Hy) as [Hcy _].
  destruct (canonical_digits mx ex Hcx) as (Hex & Hdx & Hnx).
  destruct (canonical_digits my ey Hcy) as (Hey & Hdy & Hny).
  pose proof (Zdigits2_mul_ge (Zpos mx) (Zpos my) ltac:(lia) ltac:(lia)) as Hd.
  pose proof (Zdigits2_pos (Zpos mx) ltac:(lia)).
  pose proof (Zdigits2_pos (Zpos my) ltac:(lia)).
  pose proof emin_nonpos.
  rewrite Pos2Z.inj_mul. unfold SpecFloat.fexp.
  destruct (Z.eq_dec ex emin), (Z.eq_dec ey emin); lia.
Qed.

(** Multiplying by one changes nothing. *)
Lemma SFmul_one_l y :
  valid_binary prec emax y = true ->
  SFmul prec emax (S754_finite false (Z.to_pos (2 ^ (prec - 1))) (1 - prec)) y = y.
Proof.
  intros Vy. destruct y as [sy|sy| |sy my ey]; try reflexivity.
  cbn [SFmul xorb valid_binary] in *.
  pose proof (proj1 (bounded_spec my ey) Vy) as [Hcy Hey].
  pose proof (canonical_lt_pow my ey Hcy) as Hmy.
  assert (Hp : 0 < 2 ^ (prec - 1)) by (apply Z.pow_pos_nonneg; lia).
  rewrite Pos2Z.inj_mul, Z2Pos.id by lia.
  set (M := 2 ^ (prec - 1) * Zpos my).
  assert (HdM : Zdigits2 M + (1 - prec + ey) = Zdigits2 (Zpos my) + ey).
  { unfold M. rewrite Z.mul_comm, Zdigits2_shift by lia. lia. }
  assert (Hk : 1 - prec + ey <= fexp (Zdigits2 M + (1 - prec + ey)))
    by (rewrite HdM, Hcy; lia).
  destruct (binary_round_aux_spec sy M (1 - prec + ey) loc_Exact ltac:(unfold M; lia) Hk)
    as (m' & Hf & Hm' & ->).
  rewrite HdM, Hcy in Hf |- *.
  replace (ey - (1 - prec + ey)) with (prec - 1) in Hf by lia.
  assert (m' = Zpos my) as ->.
  { rewrite (faithful_exact _ _ _ Hf); unfold M.
    - rewrite Z.mul_comm. apply Z.div_mul. lia.
    - rewrite Z.mul_comm. apply Z.mod_mul. lia. }
  unfold pack. cbn [Z.eqb].
  destruct (Z.ltb_spec (Zpos my) (2 ^ prec)); [|lia].
  destruct (Z.leb_spec ey (emax - prec)); [|lia]. reflexivity.
Qed.

(** The product of two non-negative valid floats stays below a
    representable bound on the exact product. *)
Lemma SFmul_interval x y hi :
  valid_binary prec emax x = true -> valid_binary prec emax y = true ->
  valid_binary prec emax hi = true ->
  is_finite x = true -> is_finite y = true -> is_finite hi = true ->
  0 <= Zv x -> 0 <= Zv y ->
  Zv x * Zv y <= Zv hi * 2 ^ (- emin) ->
  valid_binary prec emax (SFmul prec emax x y) = true
  /\ is_finite (SFmul prec emax x y) = true
  /\ 0 <= Zv (SFmul prec emax x y) <= Zv hi.
Proof.
  intros Vx Vy Vhi Fx Fy Fhi Hx Hy HV.
  pose proof emin_nonpos as Hemin.
  assert (Hpe : 0 < 2 ^ (- emin)) by (apply Z.pow_pos_nonneg; lia).
  assert (Hhi : 0 <= Zv hi) by nia.
  destruct x as [sx|sx| |sx mx ex], y as [sy|sy| |sy my ey]; try discriminate;
    try (cbn; repeat split; lia).
  pose proof (finite_nonneg_sign sx mx ex Vx Hx) as ->.
  pose proof (finite_nonneg_sign sy my ey Vy Hy) as ->.
  pose proof (valid_finite_emin _ _ _ Vx) as Hex.
  pose proof (valid_finite_emin _ _ _ Vy) as Hey.
  cbn [SFmul xorb valid_binary Zv cond_Zopp] in *.
  assert (0 < 2 ^ (ex - emin)) by (apply Z.pow_pos_nonneg; lia).
  assert (0 < 2 ^ (ey - emin)) by (apply Z.pow_pos_nonneg; lia).
  destruct hi as [sh|sh| |sh mh eh]; try discriminate; [cbn [Zv] in HV; nia|].
  assert (sh = false) as ->.
  { apply (finite_nonneg_sign sh mh eh Vhi). exact Hhi. }
  cbn [Zv cond_Zopp valid_binary] in *.
  pose proof (valid_finite_emin false mh eh Vhi) as Heh.
  destruct (round_aux_le false (Zpos (mx * my)) (ex + ey) loc_Exact mh eh (2 * emin)
              ltac:(lia) (mul_aligned mx my ex ey Vx Vy) Vhi ltac:(lia) ltac:(lia))
    as (Hv & Hf & Hs & Hm).
  { cbn [inexact Z.b2z]. rewrite Z.add_0_r, Pos2Z.inj_mul.
    replace (ex + ey - 2 * emin) with (ex - emin + (ey - emin)) by lia.
    replace (eh - 2 * emin) with (eh - emin + - emin) by lia.
    rewrite !Z.pow_add_r by lia. lia. }
  split; [exact Hv|]. split; [exact Hf|].
  rewrite (Zv_of_sign false _ Hs). cbn [cond_Zopp].
  destruct (binary_round_aux prec emax false (Zpos (mx * my)) (ex + ey) loc_Exact)
    as [| | |s' m' e']; cbn [mag] in *; try lia.
  pose proof (valid_finite_emin s' m' e' Hv) as He'.
  replace (e' - 2 * emin) with (e' - emin + - emin) in Hm by lia.
  replace (eh - 2 * emin) with (eh - emin + - emin) in Hm by lia.
  rewrite !Z.pow_add_r in Hm by lia.
  assert (0 < 2 ^ (e' - emin)) by (apply Z.pow_pos_nonneg; lia).
  split; [lia | nia].
Qed.

Lemma new_location_inexact n r : inexact (new_location n r) = negb (r =? 0).
Proof.
  unfold new_location, new_location_even, new_location_odd.
  destruct (Z.even n), (r =? 0); reflexivity.
Qed.

(** What [SFdiv_core_binary] returns: the integer quotient of the shifted
    dividend, its exponent, and a location that is exact exactly when the
    remainder is zero. *)
Lemma SFdiv_core_spec m1 e1 m2 e2 :
  0 < m1 -> 0 < m2 ->
  let e0 := Z.min (fexp (Zdigits2 m1 + e1 - (Zdigits2 m2 + e2))) (e1 - e2) in
  exists q r l,
    SFdiv_core_binary prec emax m1 e1 m2 e2 = (q, e0, l)
    /\ m1 * 2 ^ (e1 - e2 - e0) = q * m2 + r
    /\ 0 <= r < m2
    /\ inexact l = negb (r =? 0).
Proof.
  intros H1 H2 e0. unfold SFdiv_core_binary. fold e0.
  set (s := e1 - e2 - e0). assert (Hs : 0 <= s) by (unfold s, e0; lia).
  set (m' := match s with Z.pos _ => Z.shiftl m1 s | 0 => m1 | Z.neg _ => 0 end).
  assert (Hm' : m' = m1 * 2 ^ s).
  { unfold m'. clearbody s. destruct s as [|p|p]; [rewrite Z.pow_0_r; lia | | lia].
    apply Z.shiftl_mul_pow2. lia. }
  pose proof (Z_div_mod m' m2 ltac:(lia)) as Hdm.
  destruct (Z.div_eucl m' m2) as [q r]. destruct Hdm as [Heq Hr].
  exists q, r, (new_location m2 r). split; [reflexivity|].
  split; [lia|]. split; [exact Hr | apply new_location_inexact].
Qed.

Lemma one_bounded : bounded prec emax (Z.to_pos (2 ^ (prec - 1))) (1 - prec) = true.
Proof.
  apply bounded_spec. assert (0 < 2 ^ (prec - 1)) by (apply Z.pow_pos_nonneg; lia).
  rewrite Z2Pos.id by lia. rewrite Zdigits2_pow2 by lia.
  unfold SpecFloat.fexp, SpecFloat.emin. lia.
Qed.

(** The quotient of two positive valid floats, the first at most the
    second and not so much smaller that the quotient underflows, is a valid
    float between 0 and 1. *)
Lemma SFdiv_le_one (mx my : positive) ex ey :
  bounded prec emax mx ex = true -> bounded prec emax my ey = true ->
  Zpos mx * 2 ^ (ex - emin) <= Zpos my * 2 ^ (ey - emin) ->
  emin + prec <= Zdigits2 (Zpos mx) + ex - (Zdigits2 (Zpos my) + ey) ->
  let r := SFdiv prec emax (S754_finite false mx ex) (S754_finite false my ey) in
  valid_binary prec emax r = true
  /\ is_finite r = true
  /\ 0 <= Zv r <= 2 ^ (- emin).
Proof.
  intros Hx Hy Hle Hnu. cbv zeta. cbn [SFdiv xorb].
  pose proof (proj1 (bounded_spec mx ex) Hx) as [Hcx _].
  pose proof (proj1 (bounded_spec my ey) Hy) as [Hcy _].
  destruct (canonical_digits mx ex Hcx) as (Hex & _).
  destruct (canonical_digits my ey Hcy) as (Hey & _).
  pose proof emin_nonpos as Hemin.
  set (dx := Zdigits2 (Zpos mx)) in *. set (dy := Zdigits2 (Zpos my)) in *.
  pose proof (value_le_digits (Zpos mx) ex (Zpos my) ey emin
                ltac:(lia) ltac:(lia) Hex Hey Hle) as HD.
  fold dx dy in HD.
  destruct (SFdiv_core_spec (Zpos mx) ex (Zpos my) ey ltac:(lia) ltac:(lia))
    as (q & r0 & l & -> & Hqr & Hr0 & Hl).
  fold dx dy in Hqr |- *.
  assert (Hf : fexp (dx + ex - (dy + ey)) = dx + ex - (dy + ey) - prec)
    by (unfold SpecFloat.fexp; lia).
  rewrite Hf in *.
  set (e' := Z.min (dx + ex - (dy + ey) - prec) (ex - ey)) in *.
  set (s := ex - ey - e') in *.
  assert (Hs : dy - dx + prec <= s) by (unfold s, e'; lia).
  pose proof (Zdigits2_bounds (Zpos mx) ltac:(lia)) as [Hlox _]. fold dx in Hlox.
  pose proof (Zdigits2_bounds (Zpos my) ltac:(lia)) as [_ Hhiy]. fold dy in Hhiy.
  pose proof (Zdigits2_pos (Zpos mx) ltac:(lia)) as Hdx. fold dx in Hdx.
  pose proof (Zdigits2_pos (Zpos my) ltac:(lia)) as Hdy. fold dy in Hdy.
  assert (Hps : 0 < 2 ^ s) by (apply Z.pow_pos_nonneg; lia).
  (* the quotient has at least [dx + s - dy] digits *)
  assert (Hqlo : 2 ^ (dx - 1 + s - dy) <= q).
  { assert (Hpow : 2 ^ (dx - 1 + s) = 2 ^ (dx - 1 + s - dy) * 2 ^ dy).
    { rewrite <- Z.pow_add_r by lia. f_equal. lia. }
    assert (0 < 2 ^ (dx - 1 + s - dy)) by (apply Z.pow_pos_nonneg; lia).
    assert (2 ^ (dx - 1 + s) <= Zpos mx * 2 ^ s).
    { rewrite Z.pow_add_r by lia. nia. }
    destruct (Z.le_gt_cases (2 ^ (dx - 1 + s - dy)) q); [assumption|].
    exfalso. nia. }
  assert (Hq : 0 < q).
  { assert (0 < 2 ^ (dx - 1 + s - dy)) by (apply Z.pow_pos_nonneg; lia). lia. }
  assert (Hdq : dx + s - dy <= Zdigits2 q).
  { pose proof (Zdigits2_le (2 ^ (dx - 1 + s - dy)) q
                  ltac:(apply Z.pow_pos_nonneg; lia) Hqlo) as Hd.
    rewrite Zdigits2_pow2 in Hd by lia. lia. }
  assert (Hk : e' <= fexp (Zdigits2 q + e')).
  { pose proof (fexp_mono (dx + ex - (dy + ey)) (Zdigits2 q + e') ltac:(unfold s in *; lia)).
    unfold SpecFloat.fexp in *. lia. }
  (* the exact quotient is at most one *)
  assert (He'0 : e' <= - prec) by (unfold e'; lia).
  assert (Hm1 : Zpos mx * 2 ^ s <= Zpos my * 2 ^ (- e')).
  { destruct (Z.le_gt_cases ey ex).
    - assert (E1 : 2 ^ (ex - emin) = 2 ^ (ex - ey) * 2 ^ (ey - emin))
        by (rewrite <- Z.pow_add_r by lia; f_equal; lia).
      assert (E2 : 2 ^ s = 2 ^ (ex - ey) * 2 ^ (- e'))
        by (rewrite <- Z.pow_add_r by lia; f_equal; unfold s; lia).
      assert (0 < 2 ^ (ey - emin)) by (apply Z.pow_pos_nonneg; lia).
      assert (0 < 2 ^ (- e')) by (apply Z.pow_pos_nonneg; lia).
      assert (0 < 2 ^ (ex - ey)) by (apply Z.pow_pos_nonneg; lia).
      rewrite E1 in Hle. rewrite E2. nia.
    - assert (E1 : 2 ^ (ey - emin) = 2 ^ (ey - ex) * 2 ^ (ex - emin))
        by (rewrite <- Z.pow_add_r by lia; f_equal; lia).
      assert (E2 : 2 ^ (- e') = 2 ^ (ey - ex) * 2 ^ s)
        by (rewrite <- Z.pow_add_r by lia; f_equal; unfold s; lia).
      assert (0 < 2 ^ (ex - emin)) by (apply Z.pow_pos_nonneg; lia).
      assert (0 < 2 ^ (ey - ex)) by (apply Z.pow_pos_nonneg; lia).
      rewrite E1 in Hle. rewrite E2. nia. }
  assert (Hup : q + Z.b2z (inexact l) <= 2 ^ (- e')).
  { assert (0 < 2 ^ (- e')) by (apply Z.pow_pos_nonneg; lia).
    rewrite Hl. destruct (Z.eqb_spec r0 0); cbn [negb Z.b2z]; nia. }
  set (b := Z.min e' emin).
  assert (Hp1 : 0 < 2 ^ (prec - 1)) by (apply Z.pow_pos_nonneg; lia).
  destruct (round_aux_le false q e' l (Z.to_pos (2 ^ (prec - 1))) (1 - prec) b
              Hq Hk one_bounded ltac:(unfold b; lia) ltac:(unfold b; lia))
    as (Hv & Hfin & Hsg & Hm).
  { rewrite Z2Pos.id by lia. rewrite <- Z.pow_add_r by (unfold b; lia).
    replace (prec - 1 + (1 - prec - b)) with (- e' + (e' - b)) by lia.
    rewrite Z.pow_add_r by (unfold b; lia).
    apply Z.mul_le_mono_nonneg_r; [apply Z.pow_nonneg; lia | exact Hup]. }
  split; [exact Hv|]. split; [exact Hfin|].
  rewrite (Zv_of_sign false _ Hsg). cbn [cond_Zopp].
  rewrite Z2Pos.id in Hm by lia. rewrite <- Z.pow_add_r in Hm by (unfold b; lia).
  replace (prec - 1 + (1 - prec - b)) with (- emin + (emin - b)) in Hm by lia.
  rewrite Z.pow_add_r in Hm by (unfold b; lia).
  assert (0 < 2 ^ (emin - b)) by (apply Z.pow_pos_nonneg; unfold b; lia).
  destruct (binary_round_aux prec emax false q e' l) as [| | |sr mr er];
    cbn [mag] in *; try (split; [lia | apply Z.pow_nonneg; lia]).
  pose proof (valid_finite_emin sr mr er Hv) as Her.
  replace (er - b) with (er - emin + (emin - b)) in Hm by lia.
  rewrite Z.pow_add_r in Hm by (unfold b; lia).
  assert (0 < 2 ^ (er - emin)) by (apply Z.pow_pos_nonneg; lia).
  split; [lia | nia].
Qed.

(** [(float)n] for a positive integer [n] that does not overflow: [n]
    rounded to [prec] bits, ties to even. *)
Lemma of_int_value n :
  0 < n -> Zdigits2 n <= emax - 1 ->
  let k := Z.max 0 (Zdigits2 n - prec) in
  let r := binary_normalize prec emax n 0 false in
  valid_binary prec emax r = true
  /\ is_finite r = true
  /\ has_sign false r
  /\ Zv r = rne n k * 2 ^ (k - emin).
Proof.
  intros Hn Hd. cbv zeta.
  destruct n as [|p|p]; try lia. cbn [binary_normalize].
  pose proof (binary_round_sign false p 0) as [_ Hv].
  split; [exact Hv|]. clear Hv. unfold binary_round.
  pose proof (Zdigits2_pos (Zpos p) ltac:(lia)) as Hdpos.
  change (Zpos (digits2_pos p)) with (Zdigits2 (Zpos p)).
  set (d := Zdigits2 (Zpos p)) in *.
  assert (Hfd : fexp (d + 0) = d - prec) by (unfold SpecFloat.fexp, SpecFloat.emin; lia).
  pose proof (shl_align_spec p 0 (fexp (d + 0))) as [He Hm].
  destruct (shl_align p 0 (fexp (d + 0))) as [mz ez]. cbn [fst snd] in He, Hm.
  rewrite Hfd in He, Hm. rewrite <- He in Hm.
  assert (Hdz : Zdigits2 (Zpos mz) + ez = d).
  { rewrite Hm, Zdigits2_shift by lia. fold d. lia. }
  assert (Hfz : fexp (Zdigits2 (Zpos mz) + ez) = d - prec)
    by (rewrite Hdz; unfold SpecFloat.fexp, SpecFloat.emin; lia).
  destruct (binary_round_aux_exact false (Zpos mz) ez ltac:(lia) ltac:(lia)) as [Hb ->].
  rewrite Hfz in Hb |- *.
  replace (d - prec - ez) with (Z.max 0 (d - prec)) in Hb |- * by lia.
  set (k := Z.max 0 (d - prec)) in *. set (m' := rne (Zpos mz) k) in *.
  assert (Hfin : is_finite (pack false m' (d - prec)) = true).
  { unfold pack. destruct (m' =? 0); [reflexivity|].
    destruct (m' <? 2 ^ prec).
    - destruct (Z.leb_spec (d - prec) (emax - prec)); [reflexivity | lia].
    - destruct (Z.leb_spec (d - prec + 1) (emax - prec)); [reflexivity | lia]. }
  split; [exact Hfin|].
  destruct (pack_mag false m' (d - prec) emin Hb
              ltac:(unfold SpecFloat.emin; lia) Hfin) as [Hmag Hs].
  split; [exact Hs|].
  rewrite (Zv_of_sign false _ Hs). cbn [cond_Zopp]. rewrite Hmag. unfold m'.
  destruct (Z.le_gt_cases d prec) as [Hle|Hgt].
  - replace k with 0 by lia. rewrite !rne_0, Hm.
    replace (0 - ez) with (prec - d) by lia.
    rewrite <- Z.mul_assoc, <- Z.pow_add_r by (unfold SpecFloat.emin; lia).
    do 2 f_equal. lia.
  - replace ez with 0 in Hm by lia. rewrite Z.sub_diag, Z.mul_1_r in Hm. rewrite Hm.
    do 2 f_equal. lia.
Qed.

Lemma of_int_bounds n :
  0 < n -> Zdigits2 n <= emax - 1 ->
  let r := binary_normalize prec emax n 0 false in
  2 ^ (Zdigits2 n - 1 - emin) <= Zv r <= 2 ^ (Zdigits2 n - emin).
Proof.
  intros Hn Hd. cbv zeta.
  destruct (of_int_value n Hn Hd) as (_ & _ & _ & ->).
  pose proof (Zdigits2_pos n Hn) as Hdpos.
  pose proof (Zdigits2_bounds n Hn) as [Hlo Hhi].
  set (d := Zdigits2 n) in *. set (k := Z.max 0 (d - prec)).
  pose proof (rne_bounds n k) as [Hr1 Hr2].
  assert (Hpk : 0 < 2 ^ k) by (apply Z.pow_pos_nonneg; lia).
  assert (Hpe : 0 < 2 ^ (k - emin))
    by (apply Z.pow_pos_nonneg; unfold SpecFloat.emin; lia).
  assert (Hq1 : 2 ^ (d - 1 - k) <= n / 2 ^ k).
  { apply Z.div_le_lower_bound; [lia|].
    rewrite <- Z.pow_add_r by lia. replace (k + (d - 1 - k)) with (d - 1) by lia.
    exact Hlo. }
  assert (Hq2 : n / 2 ^ k < 2 ^ (d - k)).
  { apply Z.div_lt_upper_bound; [lia|].
    rewrite <- Z.pow_add_r by lia. replace (k + (d - k)) with d by lia. exact Hhi. }
  replace (d - 1 - emin) with (d - 1 - k + (k - emin)) by lia.
  replace (d - emin) with (d - k + (k - emin)) by lia.
  rewrite !Z.pow_add_r by (unfold SpecFloat.emin; lia).
  split; apply Z.mul_le_mono_nonneg_r; lia.
Qed.

(** Converting integers to floats is monotone. *)
Lemma of_int_mono r R :
  0 < r <= R -> Zdigits2 R <= emax - 1 ->
  Zv (binary_normalize prec emax r 0 false)
  <= Zv (binary_normalize prec emax R 0 false).
Proof.
  intros [Hr HrR] HdR.
  pose proof (Zdigits2_le r R Hr HrR) as Hd.
  destruct (Z.eq_dec (Zdigits2 r) (Zdigits2 R)) as [E|N].
  - destruct (of_int_value r Hr ltac:(lia)) as (_ & _ & _ & ->).
    destruct (of_int_value R ltac:(lia) HdR) as (_ & _ & _ & ->).
    rewrite E. apply Z.mul_le_mono_nonneg_r.
    + apply Z.pow_nonneg. lia.
    + apply rne_mono; lia.
  - pose proof (of_int_bounds r Hr ltac:(lia)) as [_ H1].
    pose proof (of_int_bounds R ltac:(lia) HdR) as [H2 _]. cbv zeta in H1, H2.
    assert (2 ^ (Zdigits2 r - emin) <= 2 ^ (Zdigits2 R - 1 - emin))
      by (apply Z.pow_le_mono_r; lia).
    lia.
Qed.
End Format.

(** ** binary32 *)

Lemma prec32 : 0 < 24. Proof. lia. Qed.
Lemma emax32 : 24 < 128. Proof. lia. Qed.

Lemma two_pi_eq : two_pi = S754_finite false 13176795 (-21).
Proof. vm_compute. reflexivity. Qed.

Lemma f1_0_eq : f1_0 = S754_finite false (Z.to_pos (2 ^ (24 - 1))) (1 - 24).
Proof. vm_compute. reflexivity. Qed.

(** Converting a [double] to [float] gives a valid binary32 value. *)
Lemma of_double_valid (d : spec_float) : F32.valid (F32.of_double d) = true.
Proof.
  destruct d as [s|s| |s m e]; try reflexivity.
  apply (binary_round_sign 24 128 prec32).
Qed.

Lemma rotationSpeed_mul (y : spec_float) :
  F32.valid y = true -> F32.mul rotationSpeed y = y.
Proof.
  intros Vy. unfold rotationSpeed, F32.mul, F32.prec, F32.emax. rewrite f1_0_eq.
  apply (SFmul_one_l 24 128 prec32), Vy.
Qed.

(** A valid float in [[0, two_pi)], as an integer number of units
    [2 ^ -149]. *)
Lemma in_turn_Zv (a : spec_float) :
  F32.valid a = true ->
  F32.leb f0_0 a = true -> F32.ltb a two_pi = true ->
  is_finite a = true
  /\ 0 <= Zv 24 128 a <= 13176794 * 2 ^ 128.
Proof.
  unfold F32.valid, F32.leb, F32.ltb, F32.prec, F32.emax. rewrite two_pi_eq.
  intros Va H0 Hlt.
  assert (Fa : is_finite a = true).
  { destruct a as [s|[]| |s m e]; try reflexivity; discriminate. }
  split; [exact Fa|].
  rewrite (SFleb_Zv 24 128 prec32) in H0 by (assumption || reflexivity).
  rewrite (SFltb_Zv 24 128 prec32) in Hlt by (assumption || reflexivity).
  apply Z.leb_le in H0. apply Z.ltb_lt in Hlt.
  change (Zv 24 128 f0_0) with 0 in H0.
  split; [exact H0|].
  apply (below_pred 24 128 prec32 a 13176795 (-21) Va Fa); [reflexivity | reflexivity |].
  exact Hlt.
Qed.

Lemma Zv_in_turn (a : spec_float) :
  F32.valid a = true -> is_finite a = true ->
  0 <= Zv 24 128 a < 13176795 * 2 ^ 128 ->
  F32.leb f0_0 a = true /\ F32.ltb a two_pi = true.
Proof.
  unfold F32.valid, F32.leb, F32.ltb, F32.prec, F32.emax. rewrite two_pi_eq.
  intros Va Fa [H0 Hlt].
  rewrite (SFleb_Zv 24 128 prec32), (SFltb_Zv 24 128 prec32) by (assumption || reflexivity).
  split; [apply Z.leb_le | apply Z.ltb_lt]; assumption.
Qed.

(** Lines 382-383 keep a valid angle of [[0, two_pi)] there, when the
    increment is non-negative and below [two_pi]. *)
Lemma wrap_in_turn (a inc : spec_float) :
  F32.valid a = true -> F32.valid inc = true ->
  F32.leb f0_0 a = true -> F32.ltb a two_pi = true ->
  F32.leb f0_0 inc = true -> F32.ltb inc two_pi = true ->
  let sum := F32.add a inc in
  let a' := if F32.leb two_pi sum then F32.sub sum two_pi else sum in
  F32.valid a' = true /\ F32.leb f0_0 a' = true /\ F32.ltb a' two_pi = true.
Proof.
  intros Va Vi Ha0 Ha1 Hi0 Hi1.
  destruct (in_turn_Zv a Va Ha0 Ha1) as [Fa Hza].
  destruct (in_turn_Zv inc Vi Hi0 Hi1) as [Fi Hzi].
  assert (Hback : forall x, valid_binary 24 128 x = true -> is_finite x = true ->
            0 <= Zv 24 128 x < 13176795 * 2 ^ 128 ->
            SFleb f0_0 x = true /\ F32.ltb x (S754_finite false 13176795 (-21)) = true).
  { intros x Vx Fx Hx. rewrite <- two_pi_eq. apply Zv_in_turn; assumption. }
  clear Ha0 Ha1 Hi0 Hi1.
  unfold F32.valid, F32.add, F32.sub, F32.leb, F32.prec, F32.emax in *.
  rewrite two_pi_eq.
  destruct (SFadd_interval 24 128 prec32 a inc f0_0 (S754_finite false 13176794 (-20))
              Va Vi eq_refl eq_refl Fa Fi eq_refl eq_refl)
    as (Vs & Fs & Hzs).
  { change (Zv 24 128 f0_0) with 0.
    change (Zv 24 128 (S754_finite false 13176794 (-20))) with (13176794 * 2 ^ 129).
    change (2 ^ 129) with (2 * 2 ^ 128). lia. }
  change (Zv 24 128 f0_0) with 0 in Hzs.
  change (Zv 24 128 (S754_finite false 13176794 (-20))) with (13176794 * (2 * 2 ^ 128)) in Hzs.
  cbv zeta. set (sum := SFadd 24 128 a inc) in *.
  assert (Hcmp : SFleb (S754_finite false 13176795 (-21)) sum
                 = (13176795 * 2 ^ 128 <=? Zv 24 128 sum)).
  { rewrite (SFleb_Zv 24 128 prec32) by (assumption || reflexivity). reflexivity. }
  rewrite Hcmp. destruct (Z.leb_spec (13176795 * 2 ^ 128) (Zv 24 128 sum)) as [Hge|Hlt].
  - rewrite (SFsub_add_opp 24 128).
    destruct (SFadd_interval 24 128 prec32 sum (SFopp (S754_finite false 13176795 (-21)))
                f0_0 (S754_finite false 13176793 (-21))
                Vs eq_refl eq_refl eq_refl Fs eq_refl eq_refl eq_refl)
      as (Vr & Fr & Hzr).
    { change (Zv 24 128 f0_0) with 0.
      change (Zv 24 128 (S754_finite false 13176793 (-21))) with (13176793 * 2 ^ 128).
      change (Zv 24 128 (SFopp (S754_finite false 13176795 (-21))))
        with (- (13176795 * 2 ^ 128)).
      lia. }
    change (Zv 24 128 f0_0) with 0 in Hzr.
    change (Zv 24 128 (S754_finite false 13176793 (-21))) with (13176793 * 2 ^ 128) in Hzr.
    split; [exact Vr|]. apply Hback; [exact Vr | exact Fr | lia].
  - split; [exact Vs|]. apply Hback; [exact Vs | exact Fs | lia].
Qed.

(** ** The rotation angle *)

Lemma render_loop_locals frames : forall l w,
  fst (render_loop l frames w) = foldl frame_locals l frames.
Proof.
  induction frames as [|f frames IH]; intros l w.
  - reflexivity.
  - rewrite render_loop_cons, IH. reflexivity.
Qed.

Lemma increment_valid (l : Locals) (f : Frame) : F32.valid (increment l f) = true.
Proof.
  unfold increment. rewrite rotationSpeed_mul; apply of_double_valid.
Qed.

(** One frame keeps a valid angle of [[0, two_pi)] there. *)
Lemma frame_in_turn (l : Locals) (f : Frame) :
  F32.valid (rotationAngle l) = true ->
  in_turn (rotationAngle l) ->
  F32.leb f0_0 (increment l f) = true ->
  F32.ltb (increment l f) two_pi = true ->
  let sum := F32.add (rotationAngle l) (increment l f) in
  F32.valid (next_angle l f) = true
  /\ in_turn (next_angle l f)
  /\ (next_angle l f = sum
      \/ F32.leb two_pi sum = true /\ next_angle l f = F32.sub sum two_pi).
Proof.
  intros Va [Ha0 Ha1] Hi0 Hi1. cbv zeta.
  pose proof (wrap_in_turn _ _ Va (increment_valid l f) Ha0 Ha1 Hi0 Hi1) as Hw.
  cbv zeta in Hw.
  unfold next_angle, advance. fold (increment l f).
  destruct (F32.leb two_pi (F32.add (rotationAngle l) (increment l f))) eqn:Hc;
    destruct Hw as (Hv & H0 & H1); repeat split; try assumption.
  - right. split; reflexivity.
  - left. reflexivity.
Qed.

Lemma paced_run : forall k frames l,
  F32.valid (rotationAngle l) = true ->
  in_turn (rotationAngle l) ->
  paced l frames ->
  let l' := foldl frame_locals l (take k frames) in
  F32.valid (rotationAngle l') = true
  /\ in_turn (rotationAngle l')
  /\ paced l' (drop k frames).
Proof.
  induction k as [|k IH]; intros frames l Va Hin Hp.
  - cbv zeta. rewrite take_0, drop_0. cbn [foldl]. repeat split; try assumption; apply Hin.
  - destruct frames as [|f frames].
    + cbv zeta. cbn [take drop foldl]. repeat split; try assumption; apply Hin.
    + cbn [paced] in Hp. destruct Hp as (Hi0 & Hi1 & Hp).
      destruct (frame_in_turn l f Va Hin Hi0 Hi1) as (Va' & Hin' & _).
      cbv zeta. cbn [take drop foldl].
      apply (IH frames (frame_locals l f)); assumption.
Qed.




(** ** Random floats *)

Lemma emin32 : emin 24 128 = -149.
Proof. reflexivity. Qed.

(** [(float)n] for a positive [int] is a positive float of magnitude
    between 1 and [2 ^ 31]. *)
Lemma of_int_finite (n : Z) :
  0 < n < 2 ^ 31 ->
  exists m e,
    F32.of_int n = S754_finite false m e
    /\ bounded 24 128 m e = true
    /\ 1 <= Zdigits2 (Zpos m) + e <= 32.
Proof.
  intros Hn. unfold F32.of_int, F32.prec, F32.emax.
  pose proof (Zdigits2_le n (2 ^ 31 - 1) ltac:(lia) ltac:(lia)) as Hd.
  change (Zdigits2 (2 ^ 31 - 1)) with 31 in Hd.
  pose proof (Zdigits2_pos n ltac:(lia)) as Hd0.
  destruct (of_int_value 24 128 prec32 emax32 n ltac:(lia) ltac:(lia))
    as (Hv & Hf & Hs & _).
  pose proof (of_int_bounds 24 128 prec32 emax32 n ltac:(lia) ltac:(lia)) as [Hlo Hhi].
  cbv zeta in Hlo, Hhi. rewrite emin32 in Hlo, Hhi.
  assert (Hp : 0 < 2 ^ (Zdigits2 n - 1 - -149)) by (apply Z.pow_pos_nonneg; lia).
  destruct (binary_normalize 24 128 n 0 false) as [s|s| |s m e];
    try discriminate; cbn [Zv has_sign] in *; [lia|].
  subst s. cbn [cond_Zopp] in *. exists m, e.
  split; [reflexivity|]. split; [exact Hv|].
  pose proof (valid_finite_emin 24 128 _ _ _ Hv) as He. rewrite emin32 in *.
  split.
  - pose proof (value_le_digits 1 (Zdigits2 n - 1) (Zpos m) e (-149)
                  ltac:(lia) ltac:(lia) ltac:(lia) He ltac:(lia)) as H.
    change (Zdigits2 1) with 1 in H. lia.
  - pose proof (value_le_digits (Zpos m) e 1 (Zdigits2 n) (-149)
                  ltac:(lia) ltac:(lia) He ltac:(lia) ltac:(lia)) as H.
    change (Zdigits2 1) with 1 in H. lia.
Qed.

(** [((float)rand()) / RAND_MAX] is a float between 0 and 1. *)
Lemma random_unit (R r : Z) :
  0 < R < 2 ^ 31 -> 0 <= r <= R ->
  let random := F32.div (F32.of_int r) (F32.of_int R) in
  F32.valid random = true /\ is_finite random = true
  /\ 0 <= value32 random <= 2 ^ 149.
Proof.
  intros HR Hr. cbv zeta.
  destruct (of_int_finite R HR) as (mB & eB & EB & HB & HdB).
  unfold F32.div, F32.valid, value32.
  destruct (Z.eq_dec r 0) as [-> | Hr0].
  - rewrite EB. cbn. repeat split; lia.
  - pose proof (of_int_mono 24 128 prec32 emax32 r R ltac:(lia)) as Hmono.
    destruct (of_int_finite r ltac:(lia)) as (m & e & E & Hb & Hd).
    unfold F32.of_int, F32.prec, F32.emax in *. rewrite E, EB in Hmono |- *.
    cbn [Zv cond_Zopp] in Hmono.
    destruct (SFdiv_le_one 24 128 prec32 emax32 m mB e eB Hb HB) as (Hv & Hf & Hz).
    + apply Hmono.
      pose proof (Zdigits2_le R (2 ^ 31 - 1) ltac:(lia) ltac:(lia)) as HdR.
      change (Zdigits2 (2 ^ 31 - 1)) with 31 in HdR. lia.
    + rewrite emin32. lia.
    + rewrite emin32 in Hz. change (- -149) with 149 in Hz.
      split; [exact Hv|]. split; [exact Hf | exact Hz].
Qed.

Lemma nonneg_value (x : spec_float) : nonneg x -> 0 <= value32 x.
Proof.
  unfold value32. destruct x as [s|s| |s m e]; cbn [nonneg Zv]; intros H; try lia.
  subst s. cbn [cond_Zopp]. apply Z.mul_nonneg_nonneg; [lia | apply Z.pow_nonneg; lia].
Qed.

(** Lines 257-261 on a tight range. *)
Lemma rndFloat_with_in_range (env : Env) (r : Z) (lower upper : float) :
  0 < RAND_MAX env < 2 ^ 31 -> 0 <= r <= RAND_MAX env ->
  tight_range lower upper = true ->
  within lower upper (rndFloat_with env r lower upper).
Proof.
  intros HR Hr Ht. unfold tight_range in Ht.
  rewrite !andb_true_iff in Ht.
  destruct Ht as [[[[Vl Vu] Hlu] Fw] Hexact].
  destruct (random_unit _ r HR Hr) as (Vq & Fq & Hq). cbv zeta in Vq, Fq, Hq.
  unfold rndFloat_with, within.
  set (random := F32.div (F32.of_int r) (F32.of_int (RAND_MAX env))) in *.
  unfold F32.valid, F32.leb, F32.add, F32.sub, F32.mul, value32, F32.prec, F32.emax in *.
  assert (Fl : is_finite lower = true).
  { destruct lower as [?|[]| |], upper as [?|[]| |]; try reflexivity;
      cbn in Fw; discriminate. }
  assert (Fu : is_finite upper = true).
  { destruct lower as [?|[]| |], upper as [?|[]| |]; try reflexivity;
      cbn in Fw; discriminate. }
  rewrite (SFleb_Zv 24 128 prec32) in Hlu by assumption.
  apply Z.leb_le in Hlu, Hexact.
  set (width := SFsub 24 128 upper lower) in *.
  assert (Hw : nonneg width /\ valid_binary 24 128 width = true).
  { unfold width. rewrite (SFsub_add_opp 24 128).
    apply (SFadd_nonneg 24 128 prec32); try assumption.
    - destruct lower; assumption.
    - destruct lower; assumption.
    - destruct lower as [s|s| |s m e]; cbn [SFopp Zv] in *; try lia.
      destruct s; cbn [negb cond_Zopp] in *; lia. }
  destruct Hw as [Nw Vw]. pose proof (nonneg_value _ Nw) as Hw0.
  unfold value32, F32.prec, F32.emax in Hw0.
  destruct (SFmul_interval 24 128 prec32 emax32 random width width
              Vq Vw Vw Fq Fw Fw ltac:(lia) Hw0) as (Vt & Ft & Ht).
  { rewrite emin32. change (- -149) with 149. nia. }
  destruct (SFadd_interval 24 128 prec32 lower (SFmul 24 128 random width) lower upper
              Vl Vt Vl Vu Fl Ft Fl Fu ltac:(lia)) as (Vr & Fr & Hr').
  rewrite !(SFleb_Zv 24 128 prec32) by assumption.
  split; apply Z.leb_le; lia.
Qed.

Lemma call_site_ranges :
  tight_range (SFopp ASPECT_RATIO) ASPECT_RATIO = true
  /\ tight_range fm1_0 f1_0 = true
  /\ tight_range f0_0 f1_0 = true.
Proof. repeat split; vm_compute; reflexivity. Qed.

(** C9 as stated fails: with [RAND_MAX = 32767], [rand()] returning 32767,
    [lower = -1] and [upper = 3 * 2 ^ -25], the width [upper - lower]
    rounds up to [1 + 2 ^ -23] and [rndFloat] returns [2 ^ -23], above
    [upper]. *)
Lemma rndFloat_range_counterexample :
  ~ (forall (env : Env) (lower upper : float) (w : World),
       F32.valid lower = true -> F32.valid upper = true ->
       0 <= rand_value env (rand_calls w) <= RAND_MAX env ->
       F32.leb lower upper = true ->
       within lower upper (eval (rndFloat env lower upper) w)).
Proof.
  intros H.
  specialize (H top_env fm1_0 (S754_finite false 12582912 (-47)) world_initial
                eq_refl eq_refl ltac:(cbn; lia) eq_refl).
  destruct H as [_ H]. vm_compute in H. discriminate.
Qed.

(** C9, amended: given that [rand()] returns a value between 0 and
    [RAND_MAX], a positive [int], [rndFloat lower upper] returns a value
    in the closed interval from [lower] to [upper] on every tight range:
    [lower <= upper] and the width [upper - lower] is computed without
    overflow and without rounding up.  The three ranges of [main] are
    tight, so every instance position lies in
    [[-ASPECT_RATIO, ASPECT_RATIO] x [-1, 1]] and every colour component
    in [[0, 1]], at start-up and after any number of frames. *)
Theorem rndFloat_in_range (env : Env) :
  0 < RAND_MAX env < 2 ^ 31 ->
  (forall n, 0 <= rand_value env n <= RAND_MAX env) ->
  (forall lower upper w,
     tight_range lower upper = true ->
     within lower upper (eval (rndFloat env lower upper) w))
  /\ tight_range (SFopp ASPECT_RATIO) ASPECT_RATIO = true
  /\ tight_range fm1_0 f1_0 = true
  /\ tight_range f0_0 f1_0 = true
  /\ forall frames,
       let l0 := eval (main_init env) world_initial in
       let w0 := exec (main_init env) world_initial in
       let l := eval (render_loop l0 frames) w0 in
       length (instances l) = 1000%nat
       /\ length (instance_colors l) = 1000%nat
       /\ (forall i p, instances l !! i = Some p ->
             within (SFopp ASPECT_RATIO) ASPECT_RATIO (vec2.x p)
             /\ within fm1_0 f1_0 (vec2.y p))
       /\ (forall i c, instance_colors l !! i = Some c ->
             within f0_0 f1_0 (vec3.x c)
             /\ within f0_0 f1_0 (vec3.y c)
             /\ within f0_0 f1_0 (vec3.z c)).
Proof.
  intros HR Hrand.
  destruct call_site_ranges as (T1 & T2 & T3).
  split.
  { intros lower upper w Ht. unfold eval, rndFloat. mred. cbn [fst].
    apply rndFloat_with_in_range; [exact HR | apply Hrand | exact Ht]. }
  split; [exact T1|]. split; [exact T2|]. split; [exact T3|].
  intros frames. cbv zeta. unfold eval, exec. rewrite main_init_run. cbn [fst snd].
  destruct (render_loop_arrays frames (init_locals env) (init_world env))
    as (H1 & H2 & _).
  rewrite H1, H2. cbn [init_locals instances instance_colors].
  unfold init_instances, init_colors.
  split; [rewrite length_fmap, length_seq; reflexivity|].
  split; [rewrite length_fmap, length_seq; reflexivity|].
  split.
  - intros i p Hp. rewrite list_lookup_fmap in Hp.
    destruct (seq 0 instances_index !! i) as [j|]; [|discriminate].
    injection Hp as <-. unfold instance_at. cbn [vec2.x vec2.y].
    split; apply rndFloat_with_in_range; auto.
  - intros i c Hc. rewrite list_lookup_fmap in Hc.
    destruct (seq 0 instances_index !! i) as [j|]; [|discriminate].
    injection Hc as <-. unfold color_at. cbn [vec3.x vec3.y vec3.z].
    repeat split; apply rndFloat_with_in_range; auto.
Qed.

Lemma rndFloat_in_range_witness :
  within fm1_0 f1_0 (eval (rndFloat sample_env fm1_0 f1_0) world_initial).
Proof.
  refine (proj1 (rndFloat_in_range sample_env _ _) fm1_0 f1_0 world_initial _).
  - cbn. lia.
  - intros n. cbn [sample_env rand_value RAND_MAX].
    pose proof (Z.mod_pos_bound (Z.of_nat n * 7919 + 13) 32768 ltac:(lia)). lia.
  - vm_compute. reflexivity.
Defined.

(** * Further properties of [main.cpp] *)

(** ** The key callback *)

(** X1: [keyCallback] ignores every event that is not a press, and every
    event of a key other than SPACE and T: such a call leaves the globals,
    the driver state, the trace and the output exactly as they were. *)
Theorem key_other_events_ignored (w : World) (key scancode action mods : Z) :
  action <> GLFW_PRESS \/ (key <> GLFW_KEY_SPACE /\ key <> GLFW_KEY_T) ->
  exec (keyCallback key scancode action mods) w = w.
Proof.
  intros H. unfold exec. rewrite keyCallback_run. cbn [snd]. unfold key_step.
  assert (Hs : (key =? GLFW_KEY_SPACE) && (action =? GLFW_PRESS) = false).
  { apply andb_false_iff. destruct H as [H | [H _]]; [right | left];
      apply Z.eqb_neq; exact H. }
  assert (Ht : (key =? GLFW_KEY_T) && (action =? GLFW_PRESS) = false).
  { apply andb_false_iff. destruct H as [H | [_ H]]; [right | left];
      apply Z.eqb_neq; exact H. }
  rewrite Hs, Ht. reflexivity.
Qed.

Lemma key_other_events_ignored_witness :
  exec (keyCallback GLFW_KEY_SPACE 57 GLFW_REPEAT 0) (init_world sample_env)
  = init_world sample_env.
Proof.
  apply (key_other_events_ignored (init_world sample_env) GLFW_KEY_SPACE 57 GLFW_REPEAT 0).
  left. discriminate.
Defined.

(** X2: the two keys of [keyCallback] are independent.  A press of SPACE
    leaves the active shader alone; a press of T leaves the wireframe flag
    alone, makes no OpenGL call and leaves the driver state as it is; and
    a press of SPACE followed by a press of T gives the same world as the
    two presses in the other order. *)
Theorem key_toggles_independent (w : World) (sc1 md1 sc2 md2 : Z) :
  let space := keyCallback GLFW_KEY_SPACE sc1 GLFW_PRESS md1 in
  let t := keyCallback GLFW_KEY_T sc2 GLFW_PRESS md2 in
  activeShader (globals (exec space w)) = activeShader (globals w)
  /\ WIREFRAME_ENABLED (globals (exec t w)) = WIREFRAME_ENABLED (globals w)
  /\ gl (exec t w) = gl w
  /\ trace (exec t w) = trace w
  /\ exec t (exec space w) = exec space (exec t w).
Proof.
  cbv zeta. unfold exec. rewrite !keyCallback_run. cbn [snd].
  destruct w as [[c r a wf] d t o rc]. repeat split.
Qed.

Lemma dispatch_polls events w :
  exec (glfwPollEvents events) w
  = snd (dispatch events (snd (emit Call.glfwPollEvents w))).
Proof.
  unfold exec, glfwPollEvents. unfold mbind at 1, M_bind.
  destruct (emit Call.glfwPollEvents w) as [[] w1]. reflexivity.
Qed.

Lemma dispatch_flag events : forall w,
  WIREFRAME_ENABLED (globals (snd (dispatch events w)))
  = xorb (WIREFRAME_ENABLED (globals w)) (Nat.odd (presses GLFW_KEY_SPACE events)).
Proof.
  induction events as [|e events IH]; intros w.
  - change (snd (dispatch [] w)) with w. cbn [presses Nat.odd].
    destruct (WIREFRAME_ENABLED (globals w)); reflexivity.
  - rewrite dispatch_cons, IH. cbn [presses]. unfold is_press, key_step, toggle_wireframe,
      swap_shader.
    destruct ((key e =? GLFW_KEY_SPACE) && (action e =? GLFW_PRESS));
      destruct ((key e =? GLFW_KEY_T) && (action e =? GLFW_PRESS));
      cbn [globals WIREFRAME_ENABLED Nat.add];
      rewrite ?Nat.odd_succ, <- ?Nat.negb_odd;
      destruct (WIREFRAME_ENABLED (globals w)), (Nat.odd (presses GLFW_KEY_SPACE events));
      reflexivity.
Qed.

Lemma other_other (g g' : Globals) :
  circleShader g' = circleShader g -> rectangleShader g' = rectangleShader g ->
  activeShader g' = other_shader g ->
  activeShader g = circleShader g \/ activeShader g = rectangleShader g ->
  other_shader g' = activeShader g.
Proof.
  destruct g as [c r a wf], g' as [c' r' a' wf']. unfold other_shader.
  cbn [circleShader rectangleShader activeShader]. intros -> -> -> H.
  destruct (Z.eqb_spec a r) as [-> | Hne].
  - destruct (Z.eqb_spec c r) as [-> | _]; reflexivity.
  - rewrite Z.eqb_refl. destruct H as [-> | ->]; [reflexivity | contradiction].
Qed.

Lemma key_step_shaders k a w :
  let g := globals w in
  let g' := globals (key_step k a w) in
  circleShader g' = circleShader g
  /\ rectangleShader g' = rectangleShader g
  /\ activeShader g'
     = (if (k =? GLFW_KEY_T) && (a =? GLFW_PRESS) then other_shader g else activeShader g).
Proof.
  cbv zeta. unfold key_step, toggle_wireframe, swap_shader, other_shader.
  destruct ((k =? GLFW_KEY_SPACE) && (a =? GLFW_PRESS));
    destruct ((k =? GLFW_KEY_T) && (a =? GLFW_PRESS)); repeat split.
Qed.

Lemma dispatch_shader events : forall w,
  activeShader (globals w) = circleShader (globals w)
  \/ activeShader (globals w) = rectangleShader (globals w) ->
  activeShader (globals (snd (dispatch events w)))
  = (if Nat.odd (presses GLFW_KEY_T events)
     then other_shader (globals w) else activeShader (globals w)).
Proof.
  induction events as [|e events IH]; intros w Hw.
  - reflexivity.
  - rewrite dispatch_cons. cbn [presses]. unfold is_press.
    destruct (key_step_shaders (key e) (action e) w) as (Hc & Hr & Ha).
    set (w1 := key_step (key e) (action e) w) in *.
    destruct ((key e =? GLFW_KEY_T) && (action e =? GLFW_PRESS)).
    + rewrite IH.
      * cbn [Nat.add]. rewrite Nat.odd_succ, <- Nat.negb_odd.
        rewrite (other_other (globals w) (globals w1) Hc Hr Ha Hw), Ha.
        destruct (Nat.odd (presses GLFW_KEY_T events)); reflexivity.
      * rewrite Hc, Hr, Ha. unfold other_shader.
        destruct (activeShader (globals w) =? rectangleShader (globals w)); auto.
    + rewrite IH by (rewrite Hc, Hr, Ha; exact Hw).
      cbn [Nat.add]. unfold other_shader. rewrite Hc, Hr, Ha. reflexivity.
Qed.

(** X3: after [glfwPollEvents] has run [keyCallback] on a batch of events,
    the wireframe flag is flipped exactly when the batch holds an odd number
    of SPACE presses; and, when the active shader was one of the two
    programs, it is the other one exactly when the batch holds an odd number
    of T presses.  Releases, repeats and other keys do not count. *)
Theorem key_presses_parity (events : list KeyEvent) (w : World) :
  let w' := exec (glfwPollEvents events) w in
  WIREFRAME_ENABLED (globals w')
  = xorb (WIREFRAME_ENABLED (globals w)) (Nat.odd (presses GLFW_KEY_SPACE events))
  /\ (activeShader (globals w) = circleShader (globals w)
      \/ activeShader (globals w) = rectangleShader (globals w) ->
      activeShader (globals w')
      = (if Nat.odd (presses GLFW_KEY_T events)
         then other_shader (globals w) else activeShader (globals w))).
Proof.
  cbv zeta. rewrite dispatch_polls. split.
  - rewrite dispatch_flag. reflexivity.
  - intros H. rewrite dispatch_shader by exact H. reflexivity.
Qed.

Lemma key_presses_parity_witness :
  let w' := exec (glfwPollEvents sample_events) (init_world sample_env) in
  WIREFRAME_ENABLED (globals w') = true
  /\ activeShader (globals w') = circleShader (globals w').
Proof.
  cbv zeta.
  destruct (key_presses_parity sample_events (init_world sample_env)) as [Hf Hs].
  split.
  - rewrite Hf. reflexivity.
  - rewrite Hs; [reflexivity | right; reflexivity].
Defined.

Lemma dispatch_sync events : forall w,
  mode_in_sync w -> mode_in_sync (snd (dispatch events w)).
Proof.
  induction events as [|e events IH]; intros w Hw.
  - exact Hw.
  - rewrite dispatch_cons. apply IH. revert Hw.
    unfold mode_in_sync, key_step, toggle_wireframe, swap_shader.
    destruct ((key e =? GLFW_KEY_SPACE) && (action e =? GLFW_PRESS));
      destruct ((key e =? GLFW_KEY_T) && (action e =? GLFW_PRESS));
      cbn [globals gl WIREFRAME_ENABLED gl_polygon_mode]; intros Hw; try assumption;
      destruct (WIREFRAME_ENABLED (globals w)); reflexivity.
Qed.

Lemma render_loop_sync frames : forall l w,
  mode_in_sync w -> mode_in_sync (snd (render_loop l frames w)).
Proof.
  induction frames as [|f frames IH]; intros l w Hw.
  - exact Hw.
  - rewrite render_loop_cons. apply IH, dispatch_sync. exact Hw.
Qed.

(** X4: at the end of every run of [main], whatever keys were pressed, the
    polygon mode of the driver is [GL_LINE] exactly when [WIREFRAME_ENABLED]
    is set, and [GL_FILL] otherwise. *)
Theorem wireframe_mode_in_sync (env : Env) (frames : list Frame) :
  mode_in_sync (exec (main env frames) world_initial).
Proof.
  unfold exec. rewrite main_run. cbn [snd].
  apply (render_loop_sync frames (init_locals env) (init_world env)). reflexivity.
Qed.

(** ** The buffer helpers *)













(** ** Replaying a trace *)

Lemma replay_app s a b : replay s (a ++ b) = replay (replay s a) b.
Proof. apply fold_left_app. Qed.

Lemma checked_app P a : forall s b,
  checked P s (a ++ b) <-> checked P s a /\ checked P (replay s a) b.
Proof.
  induction a as [|c a IH]; intros s b.
  - cbn. tauto.
  - cbn [app checked]. rewrite IH. cbn [replay fold_left]. unfold replay. tauto.
Qed.

Lemma checked_and P Q s calls :
  checked (fun s c => P s c /\ Q s c) s calls -> checked P s calls /\ checked Q s calls.
Proof.
  revert s. induction calls as [|c calls IH]; intros s; cbn [checked].
  - tauto.
  - intros [[HP HQ] H]. destruct (IH _ H). tauto.
Qed.

(** Calls whose check does not depend on the state. *)
Lemma checked_stateless P calls :
  Forall (fun c => forall s, P s c) calls -> forall s, checked P s calls.
Proof.
  induction 1 as [|c calls Hc _ IH]; intros s; cbn [checked]; [exact I|].
  split; [apply Hc | apply IH].
Qed.

Lemma polygon_calls_inert keys :
  Forall is_glPolygonMode keys ->
  forall s, replay s keys = s /\ checked call_safe s keys
            /\ List.filter is_draw keys = [].
Proof.
  induction 1 as [|c keys Hc _ IH]; intros s.
  - repeat split.
  - destruct c; try contradiction. cbn [replay fold_left pipeline_step checked List.filter
      is_draw]. destruct (IH s) as (H1 & H2 & H3). repeat split; assumption.
Qed.

(** *** Start-up *)

Lemma replay_buffer_calls env :
  replay pipeline_initial (buffer_calls env)
  = mkPipeline 5 0 (<[1 := quad_vao]> ∅)
               (<[5 := Vec3s init_models]>
                (<[4 := Vec3s (init_colors env)]>
                 (<[3 := Vec2s (init_instances env)]>
                  (<[2 := UInts indices]>
                   (<[1 := Floats vertices]> ∅)))))
               0 ∅.
Proof.
  unfold buffer_calls. generalize (init_instances env), (init_colors env).
  intros A C. vm_compute. reflexivity.
Qed.

Lemma replay_compile_calls env n vs fs s :
  replay s (compile_calls env n vs fs)
  = mkPipeline (pl_array_buffer s) (pl_vertex_array s) (pl_vaos s) (pl_buffers s)
               (pl_program s) ({[n + 2]} ∪ pl_programs s).
Proof.
  unfold compile_calls, shader_log_call, program_log_call.
  destruct (compile_status env n =? 0), (compile_status env (n + 1) =? 0),
    (link_status env (n + 2) =? 0); reflexivity.
Qed.

Lemma replay_init_trace env :
  replay pipeline_initial (init_trace env) = init_pipeline env.
Proof.
  unfold init_trace. rewrite !replay_app.
  change (replay pipeline_initial [Call.glfwInit;
            Call.glfwCreateWindow WINDOW_WIDTH WINDOW_HEIGHT "OpenGL";
            Call.glfwSetKeyCallback; Call.glfwMakeContextCurrent; Call.glewInit])
    with pipeline_initial.
  rewrite replay_buffer_calls, !replay_compile_calls. reflexivity.
Qed.

Lemma init_lengths env :
  length (init_instances env) = instances_index
  /\ length (init_colors env) = instances_index
  /\ length init_models = instances_index.
Proof.
  unfold init_instances, init_colors, init_models.
  rewrite !length_fmap, !length_seq, length_replicate. repeat split.
Qed.

Lemma init_trace_stateless env :
  Forall (fun c => forall s, call_safe s c) (init_trace env).
Proof.
  destruct (init_lengths env) as (HA & HC & HM).
  assert (Hcompile : forall n vs fs,
            Forall (fun c => forall s, call_safe s c) (compile_calls env n vs fs)).
  { intros n vs fs. unfold compile_calls, shader_log_call, program_log_call.
    destruct (compile_status env n =? 0), (compile_status env (n + 1) =? 0),
      (link_status env (n + 2) =? 0);
      repeat (constructor; [intros s; split; exact I|]); constructor. }
  unfold init_trace.
  apply Forall_app; split; [|apply Forall_app; split; [|apply Forall_app; split;
    [|apply Forall_app; split]]].
  - repeat (constructor; [intros s; split; exact I|]); constructor.
  - unfold buffer_calls.
    repeat (constructor; [intros s; split; [exact I|]; cbn [upload_fits payload_bytes];
                          rewrite ?HA, ?HC, ?HM; first [exact I | reflexivity]|]).
    constructor.
  - apply Hcompile.
  - apply Hcompile.
  - unfold uniform_calls.
    repeat (constructor; [intros s; split; exact I|]); constructor.
Qed.

Lemma init_pipeline_ready env : pipeline_ready (init_pipeline env).
Proof.
  destruct (init_lengths env) as (HA & HC & HM).
  unfold pipeline_ready, init_pipeline.
  cbn [pl_vertex_array pl_vaos pl_buffers pl_programs].
  split; [reflexivity|]. split; [apply lookup_insert_eq|].
  split; [rewrite !lookup_insert_ne by discriminate; apply lookup_insert_eq|].
  split; [rewrite !lookup_insert_ne by discriminate; apply lookup_insert_eq|].
  split; [eexists; split;
          [rewrite !lookup_insert_ne by discriminate; apply lookup_insert_eq | exact HA]|].
  split; [eexists; split;
          [rewrite !lookup_insert_ne by discriminate; apply lookup_insert_eq | exact HC]|].
  split; [eexists; split; [apply lookup_insert_eq | exact HM]|].
  split; set_solver.
Qed.

(** *** One frame *)

Lemma frame_checked l f models a s :
  VAO l = 1 -> iModelVBO l = 5 -> length models = instances_index ->
  a = 3 \/ a = 6 ->
  pipeline_ready s ->
  checked call_safe s (frame_calls l f models a)
  /\ pipeline_ready (replay s (frame_calls l f models a))
  /\ List.filter is_draw (frame_calls l f models a)
     = [Call.glDrawElementsInstanced GL_TRIANGLES 6 GL_UNSIGNED_INT 0 1000].
Proof.
  intros HV HM Hlen Ha (H0 & Hvao & Hb1 & Hb2 & (A & Hb3 & HA) & (C & Hb4 & HC)
                        & (M & Hb5 & HM5) & Hp3 & Hp6).
  destruct s as [ab va vaos bufs pr prs].
  cbn [pl_vertex_array pl_vaos pl_buffers pl_programs] in *. subst va.
  unfold frame_calls. rewrite HV, HM.
  split; [|split; [|reflexivity]].
  - cbn [checked pipeline_step set_buffer bound_to pl_array_buffer pl_vertex_array
         pl_vaos pl_buffers pl_program pl_programs].
    unfold call_safe.
    cbn [draw_in_bounds upload_fits bound_to pl_array_buffer pl_buffers].
    repeat match goal with |- _ /\ _ => split end; try exact I.
    + lia.
    + cbn [payload_bytes]. rewrite Hlen. reflexivity.
    + exists (Vec3s M). split; [exact Hb5|]. cbn [payload_bytes]. rewrite HM5. reflexivity.
    + reflexivity.
    + unfold draw_reads_in_bounds, the_vao.
      cbn [pl_program pl_programs pl_vaos pl_vertex_array pl_buffers].
      rewrite Hvao. cbn [default]. split; [destruct Ha as [-> | ->]; assumption|].
      exists indices. split; [rewrite lookup_insert_ne by discriminate; exact Hb2|].
      split; [vm_compute; split; discriminate|].
      unfold shader_inputs, attrib_feeds.
      cbn [pl_buffers].
      repeat constructor; try (vm_compute; reflexivity).
      * exists (Floats vertices), 4.
        split; [rewrite lookup_insert_ne by discriminate; exact Hb1|].
        split; [reflexivity|]. left. split; [reflexivity|].
        repeat constructor; vm_compute; discriminate.
      * exists (Vec2s A), 1000.
        split; [rewrite lookup_insert_ne by discriminate; exact Hb3|].
        split; [cbn; rewrite HA; reflexivity|]. right. split; [reflexivity | vm_compute; discriminate].
      * exists (Vec3s C), 1000.
        split; [rewrite lookup_insert_ne by discriminate; exact Hb4|].
        split; [cbn; rewrite HC; reflexivity|]. right. split; [reflexivity | vm_compute; discriminate].
      * exists (Vec3s models), 1000.
        split; [apply lookup_insert_eq|].
        split; [cbn; rewrite Hlen; reflexivity|]. right. split; [reflexivity | vm_compute; discriminate].
  - cbn [replay fold_left pipeline_step set_buffer bound_to pl_array_buffer pl_vertex_array
         pl_vaos pl_buffers pl_program pl_programs].
    unfold pipeline_ready.
    cbn [pl_vertex_array pl_vaos pl_buffers pl_programs].
    rewrite !lookup_insert_ne by discriminate. rewrite lookup_insert_eq.
    repeat split; try assumption; eauto.
Qed.

(** *** The loop and the whole run *)

Lemma render_loop_checked frames : forall l w s,
  VAO l = 1 -> iModelVBO l = 5 -> length (instance_models l) = instances_index ->
  shader_invariant w ->
  circleShader (globals w) = 3 -> rectangleShader (globals w) = 6 ->
  pipeline_ready s ->
  exists calls,
    trace (snd (render_loop l frames w)) = trace w ++ calls
    /\ checked call_safe s calls
    /\ length (List.filter is_draw calls) = length frames.
Proof.
  induction frames as [|f frames IH]; intros l w s HV HM Hlen Hinv Hc Hr Hs.
  - exists [Call.glfwWindowShouldClose true]. repeat split.
  - rewrite render_loop_cons.
    set (w0 := snd (emit (Call.glfwWindowShouldClose false) w)).
    set (models := rotate_models (next_angle l f) (instance_models l)).
    assert (Hlen' : length models = instances_index)
      by (unfold models; rewrite rotate_models_length; exact Hlen).
    assert (Ha : activeShader (globals w) = 3 \/ activeShader (globals w) = 6).
    { destruct Hinv as (Hact & _). rewrite <- Hc, <- Hr. exact Hact. }
    destruct (frame_checked l f models (activeShader (globals w)) s HV HM Hlen' Ha Hs)
      as (Hchk & Hs' & Hdraw).
    set (w1 := frame_world l f w0).
    destruct (dispatch_frame (frame_keys f) w1)
      as (Hc1 & Hr1 & _ & _ & _ & _ & _ & _ & _ & _ & keys & Hk & Hpm).
    remember (replay s (frame_calls l f models (activeShader (globals w)))) as s1 eqn:Es1.
    destruct (polygon_calls_inert keys Hpm s1) as (Hrk & Hck & Hfk).
    destruct (IH (frame_locals l f) (snd (dispatch (frame_keys f) w1)) s1)
      as (calls & Ht & Hcalls & Hn).
    + exact HV.
    + exact HM.
    + cbn [frame_locals instance_models]. exact Hlen'.
    + apply dispatch_invariant. exact Hinv.
    + rewrite Hc1. exact Hc.
    + rewrite Hr1. exact Hr.
    + exact Hs'.
    + exists ([Call.glfwWindowShouldClose false]
              ++ frame_calls l f models (activeShader (globals w)) ++ keys ++ calls).
      split; [|split].
      * rewrite Ht, Hk. subst w1 w0. cbn [frame_world emit snd trace globals].
        rewrite <- !app_assoc. reflexivity.
      * apply checked_app. split; [repeat split|].
        change (replay s [Call.glfwWindowShouldClose false]) with s.
        apply checked_app. split; [exact Hchk|]. rewrite <- Es1.
        apply checked_app. split; [exact Hck|]. rewrite Hrk. exact Hcalls.
      * rewrite !List.filter_app, !length_app, Hdraw, Hfk, Hn. reflexivity.
Qed.

Lemma main_checked env frames :
  checked call_safe pipeline_initial (trace (exec (main env frames) world_initial))
  /\ length (List.filter is_draw (trace (exec (main env frames) world_initial)))
     = length frames.
Proof.
  unfold exec. rewrite main_run. cbn [snd emit trace].
  destruct (render_loop_checked frames (init_locals env) (init_world env)
              (init_pipeline env) eq_refl eq_refl (proj2 (proj2 (init_lengths env)))
              (init_world_invariant env) eq_refl eq_refl (init_pipeline_ready env))
    as (calls & -> & Hchk & Hn).
  cbn [init_world trace]. split.
  - rewrite <- app_assoc. apply checked_app. split.
    + apply checked_stateless, init_trace_stateless.
    + rewrite replay_init_trace. apply checked_app. split; [exact Hchk | repeat split].
  - assert (Hinit : List.filter is_draw (init_trace env) = []).
    { unfold init_trace, buffer_calls, uniform_calls, compile_calls, shader_log_call,
        program_log_call. rewrite !List.filter_app.
      destruct (compile_status env 1 =? 0), (compile_status env (1 + 1) =? 0),
        (link_status env (1 + 2) =? 0), (compile_status env 4 =? 0),
        (compile_status env (4 + 1) =? 0), (link_status env (4 + 2) =? 0);
        reflexivity. }
    rewrite !List.filter_app, !length_app, Hinit, Hn. cbn. lia.
Qed.


(** X9: in every run of [main], every [glBufferData] call passes the size in
    bytes of the array it uploads, and every [glBufferSubData] call passes
    the size of its array and stays inside the storage the target buffer was
    given. *)
Theorem uploads_fit_buffers (env : Env) (frames : list Frame) :
  checked upload_fits pipeline_initial (trace (exec (main env frames) world_initial)).
Proof. exact (proj2 (checked_and _ _ _ _ (proj1 (main_checked env frames)))). Qed.

(** ** The clock and the angle *)

Lemma emin64 : emin 53 1024 = -1074.
Proof. reflexivity. Qed.

Lemma prec64 : 0 < 53.
Proof. lia. Qed.

Lemma SFopp_valid prec emax x :
  valid_binary prec emax x = true -> valid_binary prec emax (SFopp x) = true.
Proof. destruct x; intros H; exact H. Qed.

Lemma Zv_opp prec emax x : Zv prec emax (SFopp x) = - Zv prec emax x.
Proof. destruct x as [| | |[] m e]; cbn [SFopp Zv negb cond_Zopp]; lia. Qed.

(** The time between two finite readings, the second not before the
    first and at most six seconds after it. *)
Lemma delta_bounds (last now : double) :
  reading last = true -> reading now = true ->
  value64 last <= value64 now <= value64 last + value64 six_seconds ->
  let delta := F64.sub now last in
  valid_binary 53 1024 delta = true /\ is_finite delta = true
  /\ 0 <= value64 delta <= value64 six_seconds.
Proof.
  unfold reading, value64, F64.sub, F64.prec, F64.emax.
  intros [Vl Fl]%andb_true_iff [Vn Fn]%andb_true_iff H. cbv zeta.
  rewrite (SFsub_add_opp 53 1024).
  apply (SFadd_interval 53 1024 prec64 now (SFopp last) (S754_zero false) six_seconds);
    try assumption; try reflexivity.
  - apply SFopp_valid, Vl.
  - destruct last; try discriminate; reflexivity.
  - rewrite Zv_opp. change (Zv 53 1024 (S754_zero false)) with 0. lia.
Qed.

(** Line 382's increment over such a frame is at least 0 and below
    [two_pi]. *)
Lemma increment_bounds (last now : double) :
  reading last = true -> reading now = true ->
  value64 last <= value64 now <= value64 last + value64 six_seconds ->
  let inc := F32.mul rotationSpeed (F32.of_double (F64.sub now last)) in
  F32.leb f0_0 inc = true /\ F32.ltb inc two_pi = true.
Proof.
  intros Rl Rn H. cbv zeta.
  destruct (delta_bounds last now Rl Rn H) as (Vd & Fd & Hd0 & Hd6). cbv zeta in *.
  rewrite rotationSpeed_mul by apply of_double_valid.
  unfold value64, F64.prec, F64.emax in *.
  destruct (F64.sub now last) as [s|s| |s m e]; try discriminate.
  - destruct s; split; reflexivity.
  - assert (s = false) as -> by (apply (finite_nonneg_sign 53 1024 s m e Vd); exact Hd0).
    cbn [F32.of_double].
    pose proof (valid_finite_emin 53 1024 _ _ _ Vd) as He. rewrite emin64 in He.
    cbn [Zv cond_Zopp] in Hd6. rewrite emin64 in Hd6.
    destruct (binary_round_le 24 128 prec32 false m e 12582912 (-21) (-1074)
                eq_refl He ltac:(rewrite emin32; lia)) as (Hv & Hf & Hs & Hm).
    { etransitivity; [exact Hd6|]. vm_compute. discriminate. }
    unfold F32.prec, F32.emax.
    assert (Hz : 0 <= Zv 24 128 (binary_round 24 128 false m e) <= 12582912 * 2 ^ 128).
    { rewrite (Zv_of_sign 24 128 false _ Hs). cbn [cond_Zopp]. rewrite emin32.
      destruct (binary_round 24 128 false m e) as [s'|s'| |s' m' e'];
        cbn [mag] in *; try lia.
      pose proof (valid_finite_emin 24 128 _ _ _ Hv) as He'. rewrite emin32 in He'.
      assert (0 < 2 ^ (e' - -149)) by (apply Z.pow_pos_nonneg; lia).
      split; [lia|].
      replace (e' - -1074) with (e' - -149 + 925) in Hm by lia.
      rewrite Z.pow_add_r in Hm by lia.
      change (12582912 * 2 ^ (-21 - -1074)) with (12582912 * 2 ^ 128 * 2 ^ 925) in Hm.
      assert (0 < 2 ^ 925) by (apply Z.pow_pos_nonneg; lia). nia. }
    apply Zv_in_turn; [exact Hv | exact Hf |].
    change (13176795 * 2 ^ 128) with (12582912 * 2 ^ 128 + 593883 * 2 ^ 128).
    assert (0 < 593883 * 2 ^ 128) by (vm_compute; reflexivity). lia.
Qed.

Lemma steady_paced : forall frames l,
  reading (lastFrameTime l) = true ->
  steady_clock (lastFrameTime l) frames = true ->
  paced l frames.
Proof.
  induction frames as [|f frames IH]; intros l Rl Hs.
  - exact I.
  - cbn [steady_clock] in Hs. rewrite !andb_true_iff in Hs.
    destruct Hs as [[[Rn H1] H2] Hs]. apply Z.leb_le in H1, H2.
    cbn [paced].
    destruct (increment_bounds (lastFrameTime l) (frame_time f) Rl Rn (conj H1 H2))
      as [Hi0 Hi1].
    split; [exact Hi0|]. split; [exact Hi1|].
    apply IH; cbn [frame_locals lastFrameTime]; assumption.
Qed.

(** X10: when the last and the new reading of [glfwGetTime] are finite,
    the new one is not before the last one and at most 6 seconds after it,
    the increment [rotationSpeed * (float)getDeltaTima(lastFrameTime)] is a
    binary32 number that is at least 0 and less than 2 pi. *)
Theorem steady_clock_increment (l : Locals) (f : Frame) :
  reading (lastFrameTime l) = true -> reading (frame_time f) = true ->
  value64 (lastFrameTime l) <= value64 (frame_time f)
    <= value64 (lastFrameTime l) + value64 six_seconds ->
  F32.valid (increment l f) = true
  /\ F32.leb f0_0 (increment l f) = true
  /\ F32.ltb (increment l f) two_pi = true.
Proof.
  intros Rl Rn H. split; [apply increment_valid|].
  exact (increment_bounds _ _ Rl Rn H).
Qed.

Lemma steady_clock_increment_witness :
  F32.ltb (increment still_locals sample_frame) two_pi = true.
Proof.
  refine (proj2 (proj2 (steady_clock_increment still_locals sample_frame _ _ _))).
  - reflexivity.
  - reflexivity.
  - vm_compute. split; discriminate.
Defined.

(** X11: in a run of [main] whose clock readings are finite, never
    go back and are at most 6 seconds apart, [rotationAngle] is at least 0
    and less than 2 pi after any number of frames. *)
Theorem angle_in_turn_under_steady_clock (env : Env) (frames : list Frame) :
  reading (start_time env) = true ->
  steady_clock (start_time env) frames = true ->
  forall k,
    let l := eval (l0 ← main_init env; render_loop l0 (take k frames)) world_initial in
    F32.valid (rotationAngle l) = true /\ in_turn (rotationAngle l).
Proof.
  intros Rs Hs k. cbv zeta. unfold eval, mbind, M_bind. rewrite main_init_run.
  rewrite render_loop_locals.
  destruct (paced_run k frames (init_locals env) eq_refl (conj eq_refl eq_refl)
              (steady_paced frames (init_locals env) Rs Hs)) as (Hv & Hin & _).
  split; assumption.
Qed.

Lemma angle_in_turn_under_steady_clock_witness :
  in_turn (rotationAngle
             (eval (l0 ← main_init sample_env; render_loop l0 (take 2 half_second_frames))
                   world_initial)).
Proof.
  refine (proj2 (angle_in_turn_under_steady_clock sample_env half_second_frames _ _ 2%nat)).
  - reflexivity.
  - vm_compute. reflexivity.
Defined.

(** *** A frame of two turns or more *)

(** A sum of valid finite floats that is at least a positive float: the
    rounded sum is at least that float, or overflows to plus infinity. *)
Lemma SFadd_ge prec emax (Hp : 0 < prec) x y (mB : positive) eB :
  valid_binary prec emax x = true -> valid_binary prec emax y = true ->
  is_finite x = true -> is_finite y = true ->
  bounded prec emax mB eB = true ->
  Zpos mB * 2 ^ (eB - emin prec emax) <= Zv prec emax x + Zv prec emax y ->
  let r := SFadd prec emax x y in
  valid_binary prec emax r = true
  /\ (r = S754_infinity false
      \/ is_finite r = true /\ Zpos mB * 2 ^ (eB - emin prec emax) <= Zv prec emax r).
Proof.
  intros Vx Vy Fx Fy HB Hle. cbv zeta.
  pose proof (valid_finite_emin prec emax false mB eB HB) as HeB.
  assert (HBpos : 0 < Zpos mB * 2 ^ (eB - emin prec emax))
    by (apply Z.mul_pos_pos; [lia | apply Z.pow_pos_nonneg; lia]).
  destruct x as [sx|sx| |sx mx ex], y as [sy|sy| |sy my ey]; try discriminate.
  - cbn [Zv] in Hle. lia.
  - cbn [SFadd]. split; [exact Vy|]. right. split; [reflexivity|]. cbn [Zv] in *. lia.
  - cbn [SFadd]. split; [exact Vx|]. right. split; [reflexivity|]. cbn [Zv] in *. lia.
  - pose proof (valid_finite_emin _ _ _ _ _ Vx) as Hex.
    pose proof (valid_finite_emin _ _ _ _ _ Vy) as Hey.
    cbn [SFadd]. set (ez := Z.min ex ey) in *.
    pose proof (aligned_value prec emax sx mx ex ez ltac:(lia) ltac:(lia)) as Hax.
    pose proof (aligned_value prec emax sy my ey ez ltac:(lia) ltac:(lia)) as Hay.
    set (M := cond_Zopp sx (Zpos (fst (shl_align mx ex ez)))
              + cond_Zopp sy (Zpos (fst (shl_align my ey ez)))) in *.
    assert (HM : M * 2 ^ (ez - emin prec emax)
                 = Zv prec emax (S754_finite sx mx ex) + Zv prec emax (S754_finite sy my ey))
      by (unfold M; lia).
    assert (Hpz : 0 < 2 ^ (ez - emin prec emax)) by (apply Z.pow_pos_nonneg; lia).
    rewrite <- HM in Hle. clear HM Hax Hay. clearbody M.
    destruct M as [|p|p]; cbn [binary_normalize]; try lia.
    destruct (binary_round_sign prec emax Hp false p ez) as [Hs Hv].
    split; [exact Hv|].
    pose proof (binary_round_ge prec emax Hp false p ez mB eB HB ltac:(lia) Hle) as Hge.
    cbv zeta in Hge.
    destruct (binary_round prec emax false p ez) as [s|s| |s m e]; try contradiction.
    + specialize (Hge eq_refl). cbn [mag] in Hge. lia.
    + left. subst s. reflexivity.
    + right. split; [reflexivity|]. subst s. specialize (Hge eq_refl).
      cbn [mag Zv cond_Zopp] in *. exact Hge.
Qed.

Lemma four_pi_eq : four_pi = S754_finite false 13176795 (-20).
Proof. vm_compute. reflexivity. Qed.

(** X12: the wrap of [rotationAngle] is a single subtraction.  When the
    angle is in [0, 2 pi) and the increment of a frame is 4 pi or more, the
    angle after the frame is 2 pi or more: it has left the range. *)
Theorem long_frame_leaves_turn (l : Locals) (f : Frame) :
  F32.valid (rotationAngle l) = true ->
  in_turn (rotationAngle l) ->
  F32.leb four_pi (increment l f) = true ->
  F32.leb two_pi (next_angle l f) = true /\ ~ in_turn (next_angle l f).
Proof.
  intros Va [Ha0 Ha1] Hinc.
  assert (Hgoal : F32.leb two_pi (next_angle l f) = true
                  /\ F32.ltb (next_angle l f) two_pi = false);
    [|destruct Hgoal as [H1 H2]; split; [exact H1|]; intros [_ H3]; congruence].
  destruct (in_turn_Zv _ Va Ha0 Ha1) as [Fa [Hza _]].
  pose proof (increment_valid l f) as Vi.
  unfold next_angle, advance. fold (increment l f).
  set (a := rotationAngle l) in *. set (inc := increment l f) in *.
  unfold F32.valid, F32.leb, F32.ltb, F32.add, F32.sub, F32.prec, F32.emax in *.
  rewrite four_pi_eq in Hinc. rewrite two_pi_eq.
  assert (Hinf : forall x, x = S754_infinity false ->
            SFleb (S754_finite false 13176795 (-21))
                  (if SFleb (S754_finite false 13176795 (-21)) x
                   then SFsub 24 128 x (S754_finite false 13176795 (-21)) else x) = true
            /\ SFltb (if SFleb (S754_finite false 13176795 (-21)) x
                      then SFsub 24 128 x (S754_finite false 13176795 (-21)) else x)
                     (S754_finite false 13176795 (-21)) = false)
    by (intros x ->; split; reflexivity).
  assert (Hfin : forall x, valid_binary 24 128 x = true -> is_finite x = true ->
            13176795 * 2 ^ (-21 - emin 24 128) <= Zv 24 128 x ->
            SFleb (S754_finite false 13176795 (-21)) x = true
            /\ SFltb x (S754_finite false 13176795 (-21)) = false).
  { intros x Vx Fx Hx.
    rewrite (SFleb_Zv 24 128 prec32), (SFltb_Zv 24 128 prec32)
      by (assumption || reflexivity).
    cbn [Zv cond_Zopp]. split; [apply Z.leb_le | apply Z.ltb_ge]; lia. }
  destruct inc as [si|si| |si mi ei] eqn:Ei; try discriminate.
  - (* the increment is plus infinity *)
    destruct si; [discriminate|].
    apply Hinf. destruct a as [sa|sa| |sa ma ea]; try discriminate; reflexivity.
  - rewrite (SFleb_Zv 24 128 prec32) in Hinc by (assumption || reflexivity).
    apply Z.leb_le in Hinc. cbn [Zv cond_Zopp] in Hinc.
    destruct (SFadd_ge 24 128 prec32 a (S754_finite si mi ei) 13176795 (-20)
                Va Vi Fa eq_refl eq_refl ltac:(cbn [Zv cond_Zopp] in *; lia))
      as (Vs & [Hs | [Fs Hs]]).
    + apply Hinf, Hs.
    + set (sum := SFadd 24 128 a (S754_finite si mi ei)) in *.
      assert (H4 : 13176795 * 2 ^ (-20 - emin 24 128)
                   = 2 * (13176795 * 2 ^ (-21 - emin 24 128))) by reflexivity.
      assert (Hpos : 0 < 13176795 * 2 ^ (-21 - emin 24 128)) by reflexivity.
      destruct (Hfin sum Vs Fs ltac:(lia)) as [-> _].
      rewrite (SFsub_add_opp 24 128).
      destruct (SFadd_ge 24 128 prec32 sum (SFopp (S754_finite false 13176795 (-21)))
                  13176795 (-21) Vs eq_refl Fs eq_refl eq_refl)
        as (Vr & [Hr | [Fr Hr]]).
      * rewrite Zv_opp. cbn [Zv cond_Zopp]. lia.
      * rewrite Hr. split; reflexivity.
      * apply Hfin; assumption.
Qed.

Lemma long_frame_leaves_turn_witness :
  F32.leb two_pi
    (next_angle still_locals (mkFrame (S754_finite false 4503599627370496 (-48)) []))
  = true.
Proof.
  refine (proj1 (long_frame_leaves_turn still_locals
                   (mkFrame (S754_finite false 4503599627370496 (-48)) []) _ _ _)).
  - reflexivity.
  - split; reflexivity.
  - vm_compute. reflexivity.
Defined.

(** ** Random floats: the ends of the range *)

(** A positive float divided by itself is 1. *)
Lemma F32_div_self (m : positive) (e : Z) :
  F32.div (S754_finite false m e) (S754_finite false m e) = f1_0.
Proof.
  unfold F32.div, F32.prec, F32.emax. cbn [SFdiv xorb].
  destruct (SFdiv_core_spec 24 128 (Zpos m) e (Zpos m) e ltac:(lia) ltac:(lia))
    as (q & r & lz & -> & Hqr & Hr & Hl).
  replace (Zdigits2 (Zpos m) + e - (Zdigits2 (Zpos m) + e)) with 0 in * by lia.
  rewrite Z.sub_diag in Hqr |- *.
  change (Z.min (fexp 24 128 0) 0) with (-24) in *.
  change (2 ^ (0 - -24)) with 16777216 in Hqr.
  assert (q = 16777216) as -> by nia.
  assert (r = 0) as -> by lia.
  destruct lz; [|discriminate]. vm_compute. reflexivity.
Qed.

Lemma exact_range_spec lower upper :
  exact_range lower upper = true ->
  F32.valid lower = true /\ F32.valid upper = true
  /\ is_finite lower = true /\ is_finite upper = true
  /\ value32 lower <= value32 upper
  /\ F32.valid (F32.sub upper lower) = true
  /\ is_finite (F32.sub upper lower) = true
  /\ value32 (F32.sub upper lower) = value32 upper - value32 lower.
Proof.
  unfold exact_range. rewrite !andb_true_iff.
  intros [[[[Vl Vu] Hlu] Fw] Hx]. apply Z.eqb_eq in Hx.
  assert (Fl : is_finite lower = true).
  { unfold F32.sub in Fw. destruct lower as [?|[]| |], upper as [?|[]| |];
      try reflexivity; cbn in Fw; discriminate. }
  assert (Fu : is_finite upper = true).
  { unfold F32.sub in Fw. destruct lower as [?|[]| |], upper as [?|[]| |];
      try reflexivity; cbn in Fw; discriminate. }
  unfold F32.valid, F32.leb, F32.sub, value32, F32.prec, F32.emax in *.
  rewrite (SFleb_Zv 24 128 prec32) in Hlu by assumption. apply Z.leb_le in Hlu.
  repeat split; try assumption.
  rewrite (SFsub_add_opp 24 128).
  apply (SFadd_nonneg 24 128 prec32); try assumption.
  - destruct lower; assumption.
  - destruct lower; assumption.
  - destruct lower as [s|s| |s m e]; cbn [SFopp Zv] in *; try lia.
    destruct s; cbn [negb cond_Zopp] in *; lia.
Qed.

(** X13: [rndFloat] reaches both ends of its range.  For a range whose
    width [upper - lower] is computed without rounding, a [rand] result of 0
    gives [lower] and a [rand] result of [RAND_MAX] gives [upper]. *)
Theorem rndFloat_endpoints (env : Env) (lower upper : float) :
  0 < RAND_MAX env < 2 ^ 31 ->
  exact_range lower upper = true ->
  let lowest := rndFloat_with env 0 lower upper in
  let highest := rndFloat_with env (RAND_MAX env) lower upper in
  is_finite lowest = true /\ value32 lowest = value32 lower
  /\ is_finite highest = true /\ value32 highest = value32 upper.
Proof.
  intros HR Hx. cbv zeta.
  destruct (exact_range_spec lower upper Hx)
    as (Vl & Vu & Fl & Fu & Hlu & Vw & Fw & Hw).
  destruct (of_int_finite (RAND_MAX env) HR) as (m & e & E & Hb & _).
  unfold rndFloat_with. rewrite E.
  set (width := F32.sub upper lower) in *.
  assert (H0 : is_finite (F32.add lower (F32.mul (F32.div (F32.of_int 0)
                                                   (S754_finite false m e)) width)) = true
               /\ value32 (F32.add lower (F32.mul (F32.div (F32.of_int 0)
                                                    (S754_finite false m e)) width))
                  = value32 lower).
  { change (F32.div (F32.of_int 0) (S754_finite false m e)) with (S754_zero false).
    unfold value32, F32.add, F32.mul.
    clear -Fw Fl. clearbody width.
    destruct width as [[]|[]| |[] mw ew]; try discriminate;
      destruct lower as [[]|[]| |[] ml el]; try discriminate; split; reflexivity. }
  split; [exact (proj1 H0)|]. split; [exact (proj2 H0)|].
  rewrite F32_div_self.
  unfold F32.mul, F32.prec, F32.emax. rewrite f1_0_eq.
  rewrite (SFmul_one_l 24 128 prec32) by exact Vw.
  unfold F32.valid, F32.add, value32, F32.prec, F32.emax in *.
  destruct (SFadd_interval 24 128 prec32 lower width upper upper
              Vl Vw Vu Vu Fl Fw Fu Fu ltac:(lia)) as (_ & Fr & Hr).
  split; [exact Fr | lia].
Qed.

Lemma rndFloat_endpoints_witness :
  value32 (rndFloat_with sample_env 32767 fm1_0 f1_0) = value32 f1_0.
Proof.
  refine (proj2 (proj2 (proj2 (rndFloat_endpoints sample_env fm1_0 f1_0 _ _)))).
  - cbn. lia.
  - vm_compute. reflexivity.
Defined.

(** ** Uniform uploads *)









(** ** What the run leaves behind *)

Lemma render_loop_quiet frames : forall l w,
  stdout (snd (render_loop l frames w)) = stdout w
  /\ rand_calls (snd (render_loop l frames w)) = rand_calls w.
Proof.
  induction frames as [|f frames IH]; intros l w.
  - split; reflexivity.
  - rewrite render_loop_cons.
    set (w1 := frame_world l f (snd (emit (Call.glfwWindowShouldClose false) w))).
    destruct (dispatch_frame (frame_keys f) w1)
      as (_ & _ & _ & _ & _ & _ & _ & _ & Ho & Hr & _).
    destruct (IH (frame_locals l f) (snd (dispatch (frame_keys f) w1))) as [-> ->].
    rewrite Ho, Hr. split; reflexivity.
Qed.

(** X15: every run of [main] returns 0, prints the diagnostics of its two
    [compileShader] calls and nothing else (nothing at all when every
    status is non-zero), calls [rand] 5000 times, and makes [glfwTerminate]
    its last call. *)
Theorem main_side_effects (env : Env) (frames : list Frame) :
  let w := exec (main env frames) world_initial in
  eval (main env frames) world_initial = 0
  /\ stdout w = compile_messages env 1 ++ compile_messages env 4
  /\ rand_calls w = 5000%nat
  /\ last (trace w) = Some Call.glfwTerminate
  /\ ((forall n, compile_status env n <> 0) -> (forall n, link_status env n <> 0) ->
      stdout w = []).
Proof.
  cbv zeta. unfold exec, eval. rewrite main_run. cbn [fst snd emit stdout rand_calls trace].
  destruct (render_loop_quiet frames (init_locals env) (init_world env)) as [Ho Hr].
  rewrite Ho, Hr. cbn [init_world stdout rand_calls].
  split; [reflexivity|]. split; [reflexivity|]. split; [reflexivity|].
  split; [apply last_snoc|].
  intros Hc Hl. unfold compile_messages, vertex_message, fragment_message, link_message.
  repeat match goal with
         | |- context [compile_status env ?n =? 0] =>
             destruct (Z.eqb_spec (compile_status env n) 0) as [E|_];
             [exfalso; exact (Hc n E)|]
         | |- context [link_status env ?n =? 0] =>
             destruct (Z.eqb_spec (link_status env n) 0) as [E|_];
             [exfalso; exact (Hl n E)|]
         end.
  reflexivity.
Qed.

Lemma main_side_effects_witness :
  stdout (exec (main sample_env [sample_frame]) world_initial) = [].
Proof.
  refine (proj2 (proj2 (proj2 (proj2 (main_side_effects sample_env [sample_frame])))) _ _).
  - intros n. discriminate.
  - intros n. discriminate.
Defined.

(** ** What the render loop leaves alone *)

Lemma loop_keeps_refl l w : loop_keeps l w w.
Proof. unfold loop_keeps. repeat split. Qed.

Lemma frame_keeps l f w :
  loop_keeps l w
    (snd (dispatch (frame_keys f)
            (frame_world l f (snd (emit (Call.glfwWindowShouldClose false) w))))).
Proof.
  set (w1 := frame_world l f (snd (emit (Call.glfwWindowShouldClose false) w))).
  destruct (dispatch_frame (frame_keys f) w1)
    as (Hc & Hr & Hl & Ho & Hb & Hv & Hs & _ & Hout & Hrand & _).
  unfold loop_keeps. rewrite Hc, Hr, Hl, Ho, Hb, Hv, Hs, Hout, Hrand.
  subst w1. unfold frame_world. cbn [emit snd gl globals buffer_store next_object
    next_buffer next_vertex_array live_programs stdout rand_calls].
  split; [|repeat split].
  intros k Hk. apply lookup_insert_ne. congruence.
Qed.

Lemma loop_keeps_trans l w1 w2 w3 :
  loop_keeps l w1 w2 -> loop_keeps l w2 w3 -> loop_keeps l w1 w3.
Proof.
  unfold loop_keeps.
  intros (Hb & -> & -> & -> & -> & -> & -> & -> & ->) (Hb' & -> & -> & -> & -> & -> & -> & -> & ->).
  split; [|repeat split].
  intros k Hk. rewrite Hb' by exact Hk. apply Hb, Hk.
Qed.

Lemma render_loop_handles frames : forall l w,
  iModelVBO (fst (render_loop l frames w)) = iModelVBO l.
Proof.
  intros l w. rewrite render_loop_locals. revert l.
  induction frames as [|f frames IH]; intros l; [reflexivity|].
  cbn [foldl]. rewrite IH. reflexivity.
Qed.

(** X16: from any state and for any number of frames, the render loop
    writes no buffer other than [iModelVBO], hands out no object name,
    leaves the live programs and the two program handles as they are,
    prints nothing and never calls [rand]; the handle [iModelVBO] itself
    stays the same. *)
Theorem render_loop_keeps (l : Locals) (frames : list Frame) (w : World) :
  loop_keeps l w (exec (render_loop l frames) w)
  /\ iModelVBO (eval (render_loop l frames) w) = iModelVBO l.
Proof.
  unfold exec, eval. split; [|apply render_loop_handles].
  revert l w. induction frames as [|f frames IH]; intros l w.
  - exact (loop_keeps_refl l w).
  - rewrite render_loop_cons.
    eapply loop_keeps_trans; [apply frame_keeps|].
    exact (IH (frame_locals l f) _).
Qed.

Lemma render_loop_keeps_witness :
  buffer_store (gl (exec (render_loop (init_locals sample_env) [sample_frame])
                         (init_world sample_env))) !! 2
  = Some (UInts indices).
Proof.
  refine (eq_trans
    (proj1 (proj1 (render_loop_keeps (init_locals sample_env) [sample_frame]
                     (init_world sample_env))) 2 _) _).
  - discriminate.
  - reflexivity.
Defined.

(** X17: when the buffer [iModelVBO] holds the array [instance_models]
    before the render loop, it holds the array the loop ends with after any
    number of frames: the copy on the GPU never lags behind. *)
Theorem model_buffer_in_sync (l : Locals) (frames : list Frame) (w : World) :
  models_in_sync l w ->
  models_in_sync (eval (render_loop l frames) w) (exec (render_loop l frames) w).
Proof.
  unfold eval, exec. revert l w. induction frames as [|f frames IH]; intros l w Hw.
  - exact Hw.
  - rewrite render_loop_cons. apply IH.
    set (w1 := frame_world l f (snd (emit (Call.glfwWindowShouldClose false) w))).
    destruct (dispatch_frame (frame_keys f) w1) as (_ & _ & _ & _ & _ & _ & Hs & _).
    unfold models_in_sync. rewrite Hs. subst w1. unfold frame_world, frame_locals.
    cbn [gl buffer_store iModelVBO instance_models]. apply lookup_insert_eq.
Qed.

Lemma model_buffer_in_sync_witness :
  models_in_sync (eval (render_loop (init_locals sample_env) [sample_frame])
                       (init_world sample_env))
                 (exec (render_loop (init_locals sample_env) [sample_frame])
                       (init_world sample_env)).
Proof.
  apply (model_buffer_in_sync (init_locals sample_env) [sample_frame]
           (init_world sample_env)).
  reflexivity.
Defined.

(** ** [compileShader]: log queries *)

(** X18: [compileShader] queries an info log once for each of its three
    stages that reports status 0, and prints one message for each: the
    number of log queries and the number of messages both equal the number
    of failed stages. *)
Theorem compileShader_queries_logs_on_failure (env : Env)
    (vertexSource fragSource : string) (w : World) :
  let w' := exec (compileShader env vertexSource fragSource) w in
  exists calls messages,
    trace w' = trace w ++ calls
    /\ stdout w' = stdout w ++ messages
    /\ length (List.filter is_log_query calls) = failures env (next_object (gl w))
    /\ length messages = failures env (next_object (gl w)).
Proof.
  cbv zeta. unfold exec. rewrite compileShader_run. cbn [snd trace stdout].
  eexists _, _. split; [reflexivity|]. split; [reflexivity|].
  unfold compile_calls, compile_messages, shader_log_call, program_log_call,
    vertex_message, fragment_message, link_message, failures.
  destruct (compile_status env (next_object (gl w)) =? 0),
    (compile_status env (next_object (gl w) + 1) =? 0),
    (link_status env (next_object (gl w) + 2) =? 0); split; reflexivity.
Qed.
